(** * AdvancedDS: a sequence container with min / max / median / mode / random views

    Shallow embedding of [src/code.cpp] (class [AdvancedDS]), at two levels.

    The first level is the class on an object whose nodes are one list of its
    own, [head] at its first node and [tail] at its last.  The second level
    ([Linked]) has the pointers themselves: a heap of nodes with [prev] and
    [next], and objects with [head] and [tail].  It is needed because the code
    leaves the first level: [split(k)] called with [k] the number of nodes of
    a list whose counter is above that number returns an object with a null
    [head] and a [tail] at the last node of this list.  The failing inputs
    that go through such a call are run at the second level; the general
    theorems are about the first level and name their conditions.

    Modelling conventions of the first level.
    - A [Node*] is an address ([ptr]).  The doubly linked list between [head]
      and [tail] is the Rocq list [nodes] of the nodes met from [head] by
      following [next]; [prev], [next], [head] and [tail] are implied by the
      position in that list.  The address that [new Node(x)] returns is an
      argument of [pushBack] and [pushFront].
    - [int] values and counts are [Z]; [size_t] counters and vector lengths
      are [nat].  Their wrap-around is not modelled: a count reaches 2^31
      only with as many equal elements stored.  The counter [sz] follows the
      code as long as it is not counted down at 0 ([Inv] excludes it) and
      stays in range; [a.reserve(sz)], which throws for an [sz] above
      [VEC_MAX], is left out.  The theorems about calls for which this
      matters assume the counter in range.  At the second level [sz] is
      counted modulo 2^64 and [reserve] is there.
    - [std::multiset<int>] is a list kept in non-decreasing order.
    - [std::unordered_map] is a [gmap]; an [unordered_set<Node*>] is a
      duplicate-free list.  [*set.begin()] is an unspecified element of the
      set: [deleteVal] and [update] take the rank of the element that is
      picked as their first argument.
    - [double] results are rationals: every [int], every sum of two [int]s and
      its half are represented exactly by a [double], and the values stored
      in a reachable container are [int]s ([reachable_is_int]).
    - A call that dereferences a null or dangling pointer has no result
      ([None]).
    - Memory allocation succeeds: [new Node(x)] always, the storage of a
      vector up to its [max_size()].
    - The random engine is left out: [getRandom] takes the index drawn. *)

From Stdlib Require Import ZArith Lia.
From Stdlib Require QArith.
From stdpp Require Import base option list gmap sorting.

Local Open Scope Z_scope.
#[local] Set Warnings "-clear-no-such-hyp".

(** ** Data model *)

Definition ptr := positive.

(** [struct Node { int val; Node *prev, *next; }] at a given address. *)
Record Node := mkNode { addr : ptr; val : Z }.

#[global] Instance Node_eq_dec : EqDecision Node.
Proof. solve_decision. Defined.

(** [freq], [modeVal], [modeCnt] *)
Record ModeT := mkMode { freq : gmap Z Z; modeVal : Z; modeCnt : Z }.

(** [lower], [upper] *)
Record Median := mkMedian { lower : list Z; upper : list Z }.

(** [pool], [poolPos] *)
Record Pool := mkPool { pool : list ptr; poolPos : gmap ptr nat }.

Record AdvancedDS := mkDS {
  nodes : list Node;            (* head ... tail *)
  sz : nat;
  locs : gmap Z (list ptr);
  mode : ModeT;
  allVals : list Z;
  median : Median;
  random : Pool
}.

Definition INT_MIN : Z := - 2 ^ 31.
Definition INT_MAX : Z := 2 ^ 31 - 1.

(** The values an [int] can hold. *)
Definition is_int (x : Z) : Prop := INT_MIN <= x <= INT_MAX.

(** [max_size()] of a [vector<int>] where [size_t] has 64 bits (libstdc++;
    no library has a smaller one): [a.reserve(n)] throws for a larger [n]. *)
Definition VEC_MAX : Z := 2 ^ 61 - 1.

(** A [double]: NaN or an exactly represented rational. *)
Inductive double : Type :=
| NaN : double
| Dbl : QArith_base.Q -> double.

(** The state of a default-constructed object. *)
Definition emptyDS : AdvancedDS :=
  mkDS [] 0%nat ∅ (mkMode ∅ 0 0) [] (mkMedian [] []) (mkPool [] ∅).

(** The values in sequence order: what [traverse] writes. *)
Definition traverse (s : AdvancedDS) : list Z := val <$> nodes s.

(** ** [std::multiset<int>] *)

(** [insert(x)]: after the elements not greater than [x]. *)
Fixpoint ms_insert (x : Z) (l : list Z) : list Z :=
  match l with
  | [] => [x]
  | y :: t => if x <? y then x :: l else y :: ms_insert x t
  end.

(** [find(x) != end()] *)
Definition ms_mem (x : Z) (l : list Z) : bool := bool_decide (x ∈ l).

(** [erase(find(x))]: one instance. *)
Fixpoint ms_erase (x : Z) (l : list Z) : list Z :=
  match l with
  | [] => []
  | y :: t => if x =? y then t else y :: ms_erase x t
  end.

(** ** Helpers of the class *)

(** [attachBack(node)] and [attachFront(node)] *)
Definition attachBack (n : Node) (l : list Node) : list Node := l ++ [n].
Definition attachFront (n : Node) (l : list Node) : list Node := n :: l.

(** [detach(node)]: unlink the node at address [p]. *)
Fixpoint detach (p : ptr) (l : list Node) : list Node :=
  match l with
  | [] => []
  | n :: t => if decide (addr n = p) then t else n :: detach p t
  end.

(** [node->val = v] for the node at address [p]. *)
Definition set_val (p : ptr) (v : Z) (l : list Node) : list Node :=
  (λ n, if decide (addr n = p) then mkNode p v else n) <$> l.

(** [node->val] read through a pointer; no result when no live node is there. *)
Definition deref (p : ptr) (l : list Node) : option Z :=
  val <$> (snd <$> list_find (λ n, addr n = p) l).

Definition poolAdd (p : ptr) (r : Pool) : Pool :=
  mkPool (pool r ++ [p]) (<[p := length (pool r)]> (poolPos r)).

(** Swap-remove.  The source indexes the vector unchecked; [pool_ok] below
    shows that in every reachable state [idx] and [last] are positions of the
    vector, so the [None] branch of the lookup is never taken there. *)
Definition poolRemove (p : ptr) (r : Pool) : Pool :=
  match poolPos r !! p with
  | None => r
  | Some idx =>
      let last_ := (length (pool r) - 1)%nat in
      let '(pl, pp) :=
        if decide (idx ≠ last_) then
          match pool r !! last_ with
          | Some q => (<[idx := q]> (pool r), <[q := idx]> (poolPos r))
          | None => (pool r, poolPos r)
          end
        else (pool r, poolPos r) in
      mkPool (removelast pl) (delete p pp)
  end.

Definition modeInc (x : Z) (m : ModeT) : ModeT :=
  let f := default 0 (freq m !! x) + 1 in
  let fr := <[x := f]> (freq m) in
  if (modeCnt m <? f) || ((f =? modeCnt m) && (x <? modeVal m))
  then mkMode fr x f
  else mkMode fr (modeVal m) (modeCnt m).

(** One round of the rescan loop of [modeDec]. *)
Definition scan_step (acc : Z * Z) (p : Z * Z) : Z * Z :=
  let '(mv, mc) := acc in
  let '(k, n) := p in
  if (mc <? n) || ((n =? mc) && (k <? mv)) then (k, n) else (mv, mc).

Definition modeDec (x : Z) (m : ModeT) : ModeT :=
  match freq m !! x with
  | None => m
  | Some n =>
      let fr := if n - 1 =? 0 then delete x (freq m) else <[x := n - 1]> (freq m) in
      if (x =? modeVal m) &&
         match fr !! x with None => true | Some k => k <? modeCnt m end
      then
        let '(mv, mc) := foldl scan_step (modeVal m, 0) (map_to_list fr) in
        mkMode fr mv mc
      else mkMode fr (modeVal m) (modeCnt m)
  end.

Definition rebalanceMedian (m : Median) : Median :=
  if (length (upper m) + 1 <? length (lower m))%nat then
    match last (lower m) with
    | Some v => mkMedian (removelast (lower m)) (ms_insert v (upper m))
    | None => m
    end
  else if (length (lower m) <? length (upper m))%nat then
    match upper m with
    | v :: up => mkMedian (ms_insert v (lower m)) up
    | [] => m
    end
  else m.

Definition medianAdd (x : Z) (m : Median) : Median :=
  rebalanceMedian
    (if match last (lower m) with None => true | Some top => x <=? top end
     then mkMedian (ms_insert x (lower m)) (upper m)
     else mkMedian (lower m) (ms_insert x (upper m))).

Definition medianRemove (x : Z) (m : Median) : Median :=
  rebalanceMedian
    (if match last (lower m) with None => false | Some top => x <=? top end
     then
       if ms_mem x (lower m) then mkMedian (ms_erase x (lower m)) (upper m)
       else if ms_mem x (upper m) then mkMedian (lower m) (ms_erase x (upper m))
       else m
     else
       if ms_mem x (upper m) then mkMedian (lower m) (ms_erase x (upper m))
       else if ms_mem x (lower m) then mkMedian (ms_erase x (lower m)) (upper m)
       else m).

(** [locs[x].insert(node)] *)
Definition locs_insert (x : Z) (p : ptr) (m : gmap Z (list ptr)) : gmap Z (list ptr) :=
  let l := default [] (m !! x) in
  <[x := if bool_decide (p ∈ l) then l else p :: l]> m.

(** [set.erase(node); if (set.empty()) locs.erase(it);] on the entry of [x],
    when there is one. *)
Definition locs_erase (x : Z) (p : ptr) (m : gmap Z (list ptr)) : gmap Z (list ptr) :=
  match m !! x with
  | None => m
  | Some l =>
      match filter (λ q, q ≠ p) l with
      | [] => delete x m
      | l' => <[x := l']> m
      end
  end.

(** [auto it = allVals.find(x); if (it != allVals.end()) allVals.erase(it);] *)
Definition allVals_erase (x : Z) (l : list Z) : list Z :=
  if ms_mem x l then ms_erase x l else l.

(** The five index updates of [addValueStructures], which the loop of
    [merge] repeats without the [sz++]. *)
Definition addIndices (x : Z) (p : ptr) (s : AdvancedDS) : AdvancedDS :=
  mkDS (nodes s) (sz s)
       (locs_insert x p (locs s))
       (modeInc x (mode s))
       (ms_insert x (allVals s))
       (medianAdd x (median s))
       (poolAdd p (random s)).

Definition addValueStructures (x : Z) (p : ptr) (s : AdvancedDS) : AdvancedDS :=
  let s' := addIndices x p s in
  mkDS (nodes s') (S (sz s')) (locs s') (mode s') (allVals s') (median s') (random s').

Definition removeValueStructures (x : Z) (p : ptr) (s : AdvancedDS) : AdvancedDS :=
  mkDS (nodes s) (sz s - 1)%nat
       (locs_erase x p (locs s))
       (modeDec x (mode s))
       (allVals_erase x (allVals s))
       (medianRemove x (median s))
       (poolRemove p (random s)).

(** The list keeps its nodes; every index is cleared and refilled; [sz] is
    left as it was and then counted up by [addValueStructures]. *)
Definition rebuildAll (s : AdvancedDS) : AdvancedDS :=
  foldl (λ st n, addValueStructures (val n) (addr n) st)
        (mkDS (nodes s) (sz s) ∅ (mkMode ∅ 0 0) [] (mkMedian [] []) (mkPool [] ∅))
        (nodes s).

Definition with_nodes (l : list Node) (s : AdvancedDS) : AdvancedDS :=
  mkDS l (sz s) (locs s) (mode s) (allVals s) (median s) (random s).

(** ** Public operations *)

Definition empty (s : AdvancedDS) : bool := bool_decide (sz s = 0%nat).
Definition size (s : AdvancedDS) : nat := sz s.

Definition pushBack (x : Z) (p : ptr) (s : AdvancedDS) : AdvancedDS :=
  addValueStructures x p (with_nodes (attachBack (mkNode p x) (nodes s)) s).

Definition pushFront (x : Z) (p : ptr) (s : AdvancedDS) : AdvancedDS :=
  addValueStructures x p (with_nodes (attachFront (mkNode p x) (nodes s)) s).

Definition popBack (s : AdvancedDS) : AdvancedDS :=
  match last (nodes s) with
  | None => s
  | Some n =>
      removeValueStructures (val n) (addr n) (with_nodes (detach (addr n) (nodes s)) s)
  end.

Definition popFront (s : AdvancedDS) : AdvancedDS :=
  match nodes s with
  | [] => s
  | n :: _ =>
      removeValueStructures (val n) (addr n) (with_nodes (detach (addr n) (nodes s)) s)
  end.

Definition front (s : AdvancedDS) : Z :=
  match nodes s with n :: _ => val n | [] => INT_MIN end.

Definition back (s : AdvancedDS) : Z :=
  match last (nodes s) with Some n => val n | None => INT_MIN end.

(** [top()]: an alias of [back()]. *)
Definition top (s : AdvancedDS) : Z := back s.

Definition contains (x : Z) (s : AdvancedDS) : bool :=
  bool_decide (is_Some (freq (mode s) !! x)).

Definition getFrequency (x : Z) (s : AdvancedDS) : Z :=
  default 0 (freq (mode s) !! x).

Definition getMin (s : AdvancedDS) : Z :=
  match allVals s with [] => INT_MAX | x :: _ => x end.

Definition getMax (s : AdvancedDS) : Z :=
  match last (allVals s) with None => INT_MIN | Some x => x end.

Definition avg2 (a b : Z) : QArith_base.Q :=
  QArith_base.Qdiv (QArith_base.Qplus (QArith_base.inject_Z a) (QArith_base.inject_Z b))
                   (QArith_base.inject_Z 2).

Definition getMedian (s : AdvancedDS) : option double :=
  if decide (sz s = 0%nat) then Some NaN
  else if (length (upper (median s)) <? length (lower (median s)))%nat then
    (λ a, Dbl (QArith_base.inject_Z a)) <$> last (lower (median s))
  else
    a ← last (lower (median s));
    b ← head (upper (median s));
    Some (Dbl (avg2 a b)).

Definition getMode (s : AdvancedDS) : Z :=
  if modeCnt (mode s) =? 0 then INT_MIN else modeVal (mode s).

(** [pick] is the rank of [*it->second.begin()] among the nodes of the set. *)
Definition deleteVal (pick : nat) (x : Z) (s : AdvancedDS) : bool * AdvancedDS :=
  match locs s !! x with
  | None => (false, s)
  | Some set =>
      match set !! (pick mod length set)%nat with
      | None => (false, s)
      | Some p =>
          (true, removeValueStructures x p (with_nodes (detach p (nodes s)) s))
      end
  end.

Definition update (pick : nat) (oldVal newVal : Z) (s : AdvancedDS) : bool * AdvancedDS :=
  match locs s !! oldVal with
  | None => (false, s)
  | Some set =>
      match set !! (pick mod length set)%nat with
      | None => (false, s)
      | Some p =>
          let s1 :=
            mkDS (set_val p newVal (nodes s)) (sz s)
                 (locs_erase oldVal p (locs s))
                 (modeDec oldVal (mode s))
                 (allVals_erase oldVal (allVals s))
                 (medianRemove oldVal (median s))
                 (random s) in
          (true, addValueStructures newVal p s1)
      end
  end.

Definition getKth (k : nat) (s : AdvancedDS) : option (option Z) :=
  if (sz s <=? k)%nat then Some None
  else match nodes s !! k with
       | Some n => Some (Some (val n))
       | None => None
       end.

(** [reverse()]; the name [reverse] is the list function. *)
Definition reverse_ (s : AdvancedDS) : AdvancedDS := with_nodes (reverse (nodes s)) s.

(** The walk of [steps] links from [head] and the relinking need a node at
    rank [steps] and one after it. *)
Definition rotate (k : nat) (s : AdvancedDS) : option AdvancedDS :=
  if decide (sz s = 0%nat) then Some s
  else
    let k := (k mod sz s)%nat in
    if decide (k = 0%nat) then Some s
    else
      let steps := (sz s - k - 1)%nat in
      if decide (S steps < length (nodes s))%nat then
        Some (with_nodes (drop (S steps) (nodes s) ++ take (S steps) (nodes s)) s)
      else None.

(** [i] is the index drawn by [dist(rng)], between 0 and [pool.size()-1]. *)
Definition getRandom (i : nat) (s : AdvancedDS) : option Z :=
  match pool (random s) with
  | [] => Some INT_MIN
  | _ => p ← pool (random s) !! i; deref p (nodes s)
  end.

Definition uniqueElements (s : AdvancedDS) : list Z := (map_to_list (freq (mode s))).*1.

Definition dedup_step (acc : AdvancedDS * list Z) (n : Node) : AdvancedDS * list Z :=
  let '(st, seen) := acc in
  if bool_decide (val n ∈ seen) then
    (removeValueStructures (val n) (addr n) (with_nodes (detach (addr n) (nodes st)) st), seen)
  else (st, val n :: seen).

Definition removeDuplicates (s : AdvancedDS) : AdvancedDS :=
  (foldl dedup_step (s, []) (nodes s)).1.

(** [while (cur) { cur->val = a[i++]; cur = cur->next; }] *)
Definition write_back (a : list Z) (l : list Node) : list Node :=
  zip_with (λ n v, mkNode (addr n) v) l a.

(** [std::sort(a.begin(), a.end())] *)
Definition sort_asc (a : list Z) : list Z := merge_sort Z.le a.

(** [std::sort(a.rbegin(), a.rend())] *)
Definition sort_desc (a : list Z) : list Z := reverse (merge_sort Z.le (reverse a)).

Definition sortAscending (s : AdvancedDS) : AdvancedDS :=
  if (sz s <=? 1)%nat then s
  else rebuildAll (with_nodes (write_back (sort_asc (traverse s)) (nodes s)) s).

Definition sortDescending (s : AdvancedDS) : AdvancedDS :=
  if (sz s <=? 1)%nat then s
  else rebuildAll (with_nodes (write_back (sort_desc (traverse s)) (nodes s)) s).

(** *** [std::next_permutation] and [std::prev_permutation]

    The library algorithm, on the reversed range [r] (its head is the last
    element): walk from the end to the first position [i] whose element
    compares below its successor; walk again from the end to the first
    element [*i2] that [*i] compares below; swap the two and reverse the
    tail after [i].  When there is no such [i] the whole range is reversed
    and the result is [false].  [prev_permutation] is the same algorithm with
    the comparison turned round. *)
Section StdPermutation.
Variable lt : Z -> Z -> bool.

(** The tail walked over (in reversed order), [*i], and what is before [i]. *)
Fixpoint pivot_split (r : list Z) : option (list Z * Z * list Z) :=
  match r with
  | x :: t =>
      match t with
      | y :: rest =>
          if lt y x then Some ([x], y, rest)
          else match pivot_split t with
               | Some (s, p, rest') => Some (x :: s, p, rest')
               | None => None
               end
      | [] => None
      end
  | [] => None
  end.

(** [iter_swap(i, i2)] on the reversed tail: the element taken out and the
    tail with [p] in its place. *)
Fixpoint swap_in (p : Z) (s : list Z) : option (Z * list Z) :=
  match s with
  | [] => None
  | x :: s' =>
      if lt p x then Some (x, p :: s')
      else match swap_in p s' with
           | Some (q, s'') => Some (q, x :: s'')
           | None => None
           end
  end.

Definition step_permutation (a : list Z) : list Z * bool :=
  match pivot_split (reverse a) with
  | None => (reverse a, false)
  | Some (s, p, rest) =>
      match swap_in p s with
      | Some (q, s') => (reverse rest ++ q :: s', true)
      | None => (a, true)
      end
  end.
End StdPermutation.

Definition next_permutation : list Z -> list Z * bool := step_permutation Z.ltb.
Definition prev_permutation : list Z -> list Z * bool := step_permutation (λ a b, b <? a).

Definition nextPermutation (s : AdvancedDS) : bool * AdvancedDS :=
  if (sz s <=? 1)%nat then (false, s)
  else
    let '(a, ok) := next_permutation (traverse s) in
    (ok, rebuildAll (with_nodes (write_back a (nodes s)) s)).

Definition prevPermutation (s : AdvancedDS) : bool * AdvancedDS :=
  if (sz s <=? 1)%nat then (false, s)
  else
    let '(a, ok) := prev_permutation (traverse s) in
    (ok, rebuildAll (with_nodes (write_back a (nodes s)) s)).

(** [this->merge(other)] for two different objects: the new states of [this]
    and of [other].  With [sz != 0] the relinking reads [tail->next] and
    [other.head->prev]. *)
Definition merge (s other : AdvancedDS) : option (AdvancedDS * AdvancedDS) :=
  if decide (sz other = 0%nat) then Some (s, other)
  else
    let linked :=
      if decide (sz s = 0%nat) then Some (nodes other)
      else match nodes s, nodes other with
           | _ :: _, _ :: _ => Some (nodes s ++ nodes other)
           | _, _ => None
           end in
    l ← linked;
    let s1 := mkDS l (sz s + sz other)%nat (locs s) (mode s) (allVals s) (median s) (random s) in
    let s2 := foldl (λ st n, addIndices (val n) (addr n) st) s1 (nodes other) in
    Some (mkDS (nodes s2) (sz s2) (locs s2) (mode s2) (allVals s2)
               (rebalanceMedian (median s2)) (random s2),
          emptyDS).

(** [this->split(k)]: the new state of [this] and the object returned (the
    local [right] itself: the class has no copy constructor of its own and
    relies on the copy being elided).  The
    walk of [k-1] links needs a node at rank [k-1]; when that node is the last
    one ([k] is the number of nodes, below an over-counting [sz]) the call
    returns an object with a null [head] and a [tail] that points into this
    list, which is no list of its own: this level has no state for it and
    gives [None] there too; [Linked.split] gives the two objects. *)
Definition split (k : nat) (s : AdvancedDS) : option (AdvancedDS * AdvancedDS) :=
  if (sz s <=? k)%nat then Some (s, emptyDS)
  else if decide (k = 0%nat) then
    '(r, s') ← merge emptyDS s; Some (s', r)
  else if decide (k < length (nodes s))%nat then
    let l := take k (nodes s) in
    let r := drop k (nodes s) in
    Some (rebuildAll (mkDS l (length l) (locs s) (mode s) (allVals s) (median s) (random s)),
          rebuildAll (mkDS r (length r) ∅ (mkMode ∅ 0 0) [] (mkMedian [] []) (mkPool [] ∅)))
  else None.

Definition clear (s : AdvancedDS) : AdvancedDS := emptyDS.

(** ** Specification-side definitions *)

(** Number of occurrences of [x] in [l]. *)
Definition cnt (x : Z) (l : list Z) : Z := Z.of_nat (length (filter (λ y, y = x) l)).

(** [m] is the value with the highest count in [l], the smallest of them on
    a tie. *)
Definition is_mode (l : list Z) (m : Z) : Prop :=
  m ∈ l ∧ ∀ y, cnt y l < cnt m l ∨ (cnt y l = cnt m l ∧ m <= y).

(** Brute-force frequency counting: scan the values and keep the best. *)
Definition brute_mode (l : list Z) : option Z :=
  foldr (λ x acc,
           match acc with
           | None => Some x
           | Some m =>
               if (cnt m l <? cnt x l) || ((cnt x l =? cnt m l) && (x <? m))
               then Some x else Some m
           end) None l.

(** The standard median of a non-empty list: sort, then take the middle value
    or the average of the two middle values, the rational (x + y) / 2. *)
Definition std_median (l : list Z) : option QArith_base.Q :=
  let a := merge_sort Z.le l in
  let n := length a in
  if Nat.odd n then QArith_base.inject_Z <$> a !! (n / 2)%nat
  else
    x ← a !! (n / 2 - 1)%nat;
    y ← a !! (n / 2)%nat;
    Some (QArith_base.Qmake (x + y) 2).

(** The sum of all frequency counts. *)
Definition freq_total (s : AdvancedDS) : Z :=
  foldr (λ p acc, p.2 + acc) 0 (map_to_list (freq (mode s))).

(** The aggregate invariant of the specification: the size counter, the
    number of nodes, the sum of the frequencies, and the cardinalities of the
    order-statistics multiset, of the two median halves together and of the
    random pool are all equal. *)
Definition aggregate_invariant (s : AdvancedDS) : Prop :=
  sz s = length (nodes s)
  ∧ Z.of_nat (sz s) = freq_total s
  ∧ sz s = length (allVals s)
  ∧ sz s = (length (lower (median s)) + length (upper (median s)))%nat
  ∧ sz s = length (pool (random s)).

(** The values of [l] that are not in [seen] and not earlier in [l], in the
    order of their first occurrence. *)
Fixpoint keep_first (seen : list Z) (l : list Z) : list Z :=
  match l with
  | [] => []
  | x :: t =>
      if bool_decide (x ∈ seen) then keep_first seen t
      else x :: keep_first (x :: seen) t
  end.

(** The value queries answer alike on [s] and on [t]; [getMedian] is compared
    where it reads the halves. *)
Definition same_answers (s t : AdvancedDS) : Prop :=
  getMin s = getMin t
  ∧ getMax s = getMax t
  ∧ getMode s = getMode t
  ∧ (∀ x, getFrequency x s = getFrequency x t)
  ∧ (∀ x, contains x s = contains x t)
  ∧ (sz s ≠ 0%nat → sz t ≠ 0%nat → getMedian s = getMedian t).

(** ** Representation invariant *)

Definition LocsInv (m : gmap Z (list ptr)) (l : list Node) : Prop :=
  ∀ x p, p ∈ default [] (m !! x) ↔ mkNode p x ∈ l.

Definition ModeInv (m : ModeT) (l : list Z) : Prop :=
  (∀ x, freq m !! x = if decide (cnt x l = 0) then None else Some (cnt x l))
  ∧ (∀ y, cnt y l <= modeCnt m)
  ∧ (l = [] → modeCnt m = 0)
  ∧ (l ≠ [] → cnt (modeVal m) l = modeCnt m
               ∧ ∀ y, cnt y l = modeCnt m → modeVal m <= y).

Definition AllInv (a : list Z) (l : list Z) : Prop :=
  StronglySorted Z.le a ∧ a ≡ₚ l.

Definition MedInv (m : Median) (l : list Z) : Prop :=
  StronglySorted Z.le (lower m ++ upper m)
  ∧ lower m ++ upper m ≡ₚ l
  ∧ (length (upper m) ≤ length (lower m) ≤ length (upper m) + 1)%nat.

(** Every recorded position holds the node it is recorded for; the vector
    accesses of [poolRemove] are then in range. *)
Definition pool_ok (r : Pool) : Prop :=
  ∀ p i, poolPos r !! p = Some i → pool r !! i = Some p.

(** The indices of [s] describe the node list [l]. *)
Definition AuxInv (s : AdvancedDS) (l : list Node) : Prop :=
  LocsInv (locs s) l
  ∧ ModeInv (mode s) (val <$> l)
  ∧ AllInv (allVals s) (val <$> l)
  ∧ MedInv (median s) (val <$> l)
  ∧ pool_ok (random s).

(** The condition of the general theorems.  A state of this level is a list
    of its own: [head] at the first node of [nodes s], [tail] at the last,
    every node linked to its neighbours and reached from no other object.
    [Inv] adds that the addresses are distinct, that the indices describe
    the list, and that the counter is not below the number of nodes. *)
Definition Inv (s : AdvancedDS) : Prop :=
  NoDup (addr <$> nodes s)
  ∧ AuxInv s (nodes s)
  ∧ (length (nodes s) ≤ sz s)%nat.

(** [p] is the address of no node of the list. *)
Definition fresh (p : ptr) (s : AdvancedDS) : Prop := p ∉ addr <$> nodes s.

(** States reached from a new object by public calls made on objects that
    are lists of their own.  An allocation returns an address that no live
    node has.  The relation follows [split] where its two results are lists
    ([split k s = Some _]); it does not follow the call that returns an object
    whose [tail] is in this list, after which two objects share a node (see
    [Linked]).  As long as the counter stays in range, every state in the
    relation is one the code reaches. *)
Inductive reachable : AdvancedDS → Prop :=
| reach_new : reachable emptyDS
| reach_pushBack s x p :
    reachable s → is_int x → fresh p s → reachable (pushBack x p s)
| reach_pushFront s x p :
    reachable s → is_int x → fresh p s → reachable (pushFront x p s)
| reach_popBack s : reachable s → reachable (popBack s)
| reach_popFront s : reachable s → reachable (popFront s)
| reach_deleteVal s pick x : reachable s → reachable (deleteVal pick x s).2
| reach_update s pick a b :
    reachable s → is_int b → reachable (update pick a b s).2
| reach_reverse s : reachable s → reachable (reverse_ s)
| reach_rotate s k s' : reachable s → rotate k s = Some s' → reachable s'
| reach_removeDuplicates s : reachable s → reachable (removeDuplicates s)
| reach_sortAscending s : reachable s → reachable (sortAscending s)
| reach_sortDescending s : reachable s → reachable (sortDescending s)
| reach_nextPermutation s : reachable s → reachable (nextPermutation s).2
| reach_prevPermutation s : reachable s → reachable (prevPermutation s).2
| reach_merge_this s o s' o' :
    reachable s → reachable o →
    (∀ p, p ∈ addr <$> nodes s → p ∉ addr <$> nodes o) →
    merge s o = Some (s', o') → reachable s'
| reach_merge_other s o s' o' :
    reachable s → reachable o →
    (∀ p, p ∈ addr <$> nodes s → p ∉ addr <$> nodes o) →
    merge s o = Some (s', o') → reachable o'
| reach_split_this s k s' r :
    reachable s → split k s = Some (s', r) → reachable s'
| reach_split_right s k s' r :
    reachable s → split k s = Some (s', r) → reachable r
| reach_clear s : reachable s → reachable (clear s).

(** Every address of [A] has a recorded position in the pool. *)
Definition pool_covers (r : Pool) (A : list ptr) : Prop :=
  ∀ q, q ∈ A → is_Some (poolPos r !! q).

(** Every node of the list has a recorded position in the pool. *)
Definition Covered (s : AdvancedDS) : Prop :=
  pool_covers (random s) (addr <$> nodes s).

(** ** Lexicographic order and the permutation cycle *)

(** [a] comes before [c] in the lexicographic order of the comparison [lt]. *)
Fixpoint lexb (lt : Z -> Z -> bool) (a c : list Z) : bool :=
  match a, c with
  | [], [] => false
  | [], _ :: _ => true
  | _ :: _, [] => false
  | x :: a', y :: c' => lt x y || (bool_decide (x = y) && lexb lt a' c')
  end.


(** A permutation step repeated until it answers [false]: the sequences it
    was called on, in order, and the sequence left by the last call. *)
Fixpoint step_cycle (step : list Z -> list Z * bool) (fuel : nat) (a : list Z)
  : option (list (list Z) * list Z) :=
  match fuel with
  | O => None
  | S f =>
      let '(b, ok) := step a in
      if ok then '(L, e) ← step_cycle step f b; Some (a :: L, e)
      else Some ([a], b)
  end.

(** [nextPermutation] called until it returns [false]: the sequences it was
    called on, in order, and the container left by the last call. *)
Fixpoint permutation_cycle (fuel : nat) (s : AdvancedDS)
  : option (list (list Z) * AdvancedDS) :=
  match fuel with
  | O => None
  | S f =>
      let '(ok, s') := nextPermutation s in
      if ok then '(L, e) ← permutation_cycle f s'; Some (traverse s :: L, e)
      else Some ([traverse s], s')
  end.

(** [x] is not above [y] in the order of the comparison [lt]. *)
Definition leb_of (lt : Z -> Z -> bool) (x y : Z) : Prop := lt y x = false.


(** ** Sample runs *)

(** [pushBack(1); pushBack(2)] on a new object. *)
Definition ds_1_2 : AdvancedDS := pushBack 2 2%positive (pushBack 1 1%positive emptyDS).

(** The example of the source file: [pushBack(3); pushBack(1); pushBack(2);
    pushFront(5)], the sequence 5 3 1 2. *)
Definition ds_5_3_1_2 : AdvancedDS :=
  pushFront 5 4%positive
    (pushBack 2 3%positive (pushBack 1 2%positive (pushBack 3 1%positive emptyDS))).

(** [pushBack(1); pushBack(2); pushBack(3)] on a new object. *)
Definition ds_1_2_3 : AdvancedDS := pushBack 3 3%positive ds_1_2.

(** [pushBack(1); pushBack(2); pushBack(3); pushBack(4)] on a new object. *)
Definition ds_1_2_3_4 : AdvancedDS := pushBack 4 4%positive ds_1_2_3.

(** The usage example of the source file up to its [rotate(1)]:
    [sortAscending(); nextPermutation(); deleteVal(2); update(5, 7)] on the
    sequence 5 3 1 2. *)
Definition ds_example : AdvancedDS :=
  (update 0 5 7 (deleteVal 0 2 (nextPermutation (sortAscending ds_5_3_1_2)).2).2).2.

(** [pushBack(1); update(1, 1); popBack()] on a new object: no node is left. *)
Definition ds_drained : AdvancedDS :=
  popBack (update 0 1 1 (pushBack 1 1%positive emptyDS)).2.

(** [pushBack(5)] on a new object, at an address of its own. *)
Definition ds_5 : AdvancedDS := pushBack 5 9%positive emptyDS.

(** [pushBack(1); pushBack(2); pushBack(3); pushBack(4); r = split(1);
    r.popBack(); r.merge(ds); r.popFront()] on a new object [ds]: [r] and
    [ds]. *)
Definition ds_split_merge : option (AdvancedDS * AdvancedDS) :=
  '(ds, r) ← split 1 ds_1_2_3_4;
  '(r, ds) ← merge (popBack r) ds;
  Some (popFront r, ds).

(** ** The class at the level of pointers

    The objects of the first part are lists of their own.  Here the nodes
    live in one heap, an object holds [head] and [tail], and a node holds
    [prev] and [next], as in the source: two objects can then reach the same
    node, which [split] brings about when it is called with [k] the number of
    nodes of a list whose counter is above that number.

    A call is a function of the heap that gives its result and the new heap;
    it gives nothing when the call dereferences a null pointer or a pointer
    to a node that was deleted, when a loop over the nodes does not end (the
    links form a cycle), and when [a.reserve(sz)] throws.  The indices are
    those of the first part, with the same helpers. *)
Module Linked.

(** [struct Node] *)
Record Node := mkNode { val : Z; prev : option ptr; next : option ptr }.

Definition heap := gmap ptr Node.

Record AdvancedDS := mkDS {
  head : option ptr;
  tail : option ptr;
  sz : Z;
  locs : gmap Z (list ptr);
  mode : ModeT;
  allVals : list Z;
  median : Median;
  random : Pool
}.

(** [size_t] arithmetic is modulo 2^64. *)
Definition size_t (n : Z) : Z := n mod 2 ^ 64.

(** A new object. *)
Definition emptyDS : AdvancedDS :=
  mkDS None None 0 ∅ (mkMode ∅ 0 0) [] (mkMedian [] []) (mkPool [] ∅).

Definition M (A : Type) : Type := heap → option (A * heap).

#[global] Instance M_ret : MRet M := λ A a h, Some (a, h).
#[global] Instance M_bind : MBind M :=
  λ A B f m h, match m h with Some (a, h') => f a h' | None => None end.

(** Undefined behaviour, a loop without end, or an exception. *)
Definition crash {A} : M A := λ _, None.

(** [new Node(x)]; [p] is the address returned, which is the address of no
    live node. *)
Definition new_Node (p : ptr) (x : Z) : M ptr :=
  λ h, match h !! p with
       | None => Some (p, <[p := mkNode x None None]> h)
       | Some _ => None
       end.

(** [delete node] *)
Definition delete_Node (p : ptr) : M unit :=
  λ h, match h !! p with
       | Some _ => Some ((), delete p h)
       | None => None
       end.

(** [*p] read, and one field of [*p] written. *)
Definition load (p : ptr) : M Node :=
  λ h, match h !! p with Some n => Some (n, h) | None => None end.

Definition store (p : ptr) (f : Node → Node) : M unit :=
  λ h, match h !! p with Some n => Some ((), <[p := f n]> h) | None => None end.

Definition set_val (v : Z) (n : Node) : Node := mkNode v (prev n) (next n).
Definition set_prev (q : option ptr) (n : Node) : Node := mkNode (val n) q (next n).
Definition set_next (q : option ptr) (n : Node) : Node := mkNode (val n) (prev n) q.

Definition with_links (hd tl : option ptr) (o : AdvancedDS) : AdvancedDS :=
  mkDS hd tl (sz o) (locs o) (mode o) (allVals o) (median o) (random o).

Definition with_sz (n : Z) (o : AdvancedDS) : AdvancedDS :=
  mkDS (head o) (tail o) n (locs o) (mode o) (allVals o) (median o) (random o).

(** [for (Node* cur = from; cur; cur = cur->next)]: the nodes met and their
    values.  A list that ends has at most as many nodes as the heap. *)
Fixpoint chain (fuel : nat) (h : heap) (cur : option ptr) : option (list (ptr * Z)) :=
  match cur with
  | None => Some []
  | Some p =>
      match fuel with
      | O => None
      | S f =>
          match h !! p with
          | Some n =>
              match chain f h (next n) with
              | Some l => Some ((p, val n) :: l)
              | None => None
              end
          | None => None
          end
      end
  end.

Definition walk (from : option ptr) : M (list (ptr * Z)) :=
  λ h, match chain (base.size h) h from with Some l => Some (l, h) | None => None end.

(** [while (k--) cur = cur->next;] *)
Fixpoint advance (k : nat) (cur : option ptr) : M (option ptr) :=
  match k with
  | O => mret cur
  | S k' =>
      match cur with
      | None => crash
      | Some p => n ← load p; advance k' (next n)
      end
  end.

Definition attachBack (node : ptr) (o : AdvancedDS) : M AdvancedDS :=
  match tail o with
  | None => mret (with_links (Some node) (Some node) o)
  | Some t =>
      store t (set_next (Some node));;
      store node (set_prev (Some t));;
      mret (with_links (head o) (Some node) o)
  end.

Definition attachFront (node : ptr) (o : AdvancedDS) : M AdvancedDS :=
  match head o with
  | None => mret (with_links (Some node) (Some node) o)
  | Some hd =>
      store node (set_next (Some hd));;
      store hd (set_prev (Some node));;
      mret (with_links (Some node) (tail o) o)
  end.

Definition detach (node : ptr) (o : AdvancedDS) : M AdvancedDS :=
  n ← load node;
  o1 ← match prev n with
       | Some pv => store pv (set_next (next n));; mret o
       | None => mret (with_links (next n) (tail o) o)
       end;
  n ← load node;
  o2 ← match next n with
       | Some nx => store nx (set_prev (prev n));; mret o1
       | None => mret (with_links (head o1) (prev n) o1)
       end;
  store node (set_prev None);;
  store node (set_next None);;
  mret o2.

(** The five index updates of [addValueStructures], which the loop of
    [merge] repeats without the [sz++]. *)
Definition addIndices (x : Z) (node : ptr) (o : AdvancedDS) : AdvancedDS :=
  mkDS (head o) (tail o) (sz o)
       (locs_insert x node (locs o))
       (modeInc x (mode o))
       (ms_insert x (allVals o))
       (medianAdd x (median o))
       (poolAdd node (random o)).

Definition addValueStructures (x : Z) (node : ptr) (o : AdvancedDS) : AdvancedDS :=
  with_sz (size_t (sz o + 1)) (addIndices x node o).

Definition removeValueStructures (x : Z) (node : ptr) (o : AdvancedDS) : AdvancedDS :=
  mkDS (head o) (tail o) (size_t (sz o - 1))
       (locs_erase x node (locs o))
       (modeDec x (mode o))
       (allVals_erase x (allVals o))
       (medianRemove x (median o))
       (poolRemove node (random o)).

Definition rebuildAll (o : AdvancedDS) : M AdvancedDS :=
  l ← walk (head o);
  mret (foldl (λ st c, addValueStructures c.2 c.1 st)
              (mkDS (head o) (tail o) (sz o) ∅ (mkMode ∅ 0 0) [] (mkMedian [] []) (mkPool [] ∅))
              l).

Definition empty (o : AdvancedDS) : bool := bool_decide (sz o = 0).
Definition size (o : AdvancedDS) : Z := sz o.

Definition pushBack (x : Z) (p : ptr) (o : AdvancedDS) : M AdvancedDS :=
  node ← new_Node p x;
  o1 ← attachBack node o;
  mret (addValueStructures x node o1).

Definition pushFront (x : Z) (p : ptr) (o : AdvancedDS) : M AdvancedDS :=
  node ← new_Node p x;
  o1 ← attachFront node o;
  mret (addValueStructures x node o1).

Definition popBack (o : AdvancedDS) : M AdvancedDS :=
  match tail o with
  | None => mret o
  | Some node =>
      n ← load node;
      o1 ← detach node o;
      let o2 := removeValueStructures (val n) node o1 in
      delete_Node node;;
      mret o2
  end.

Definition popFront (o : AdvancedDS) : M AdvancedDS :=
  match head o with
  | None => mret o
  | Some node =>
      n ← load node;
      o1 ← detach node o;
      let o2 := removeValueStructures (val n) node o1 in
      delete_Node node;;
      mret o2
  end.

Definition front (o : AdvancedDS) : M Z :=
  match head o with Some p => n ← load p; mret (val n) | None => mret INT_MIN end.

Definition back (o : AdvancedDS) : M Z :=
  match tail o with Some p => n ← load p; mret (val n) | None => mret INT_MIN end.

Definition top (o : AdvancedDS) : M Z := back o.

Definition contains (x : Z) (o : AdvancedDS) : bool :=
  bool_decide (is_Some (freq (mode o) !! x)).

Definition getFrequency (x : Z) (o : AdvancedDS) : Z :=
  default 0 (freq (mode o) !! x).

Definition getMin (o : AdvancedDS) : Z :=
  match allVals o with [] => INT_MAX | x :: _ => x end.

Definition getMax (o : AdvancedDS) : Z :=
  match last (allVals o) with None => INT_MIN | Some x => x end.

Definition getMedian (o : AdvancedDS) : option double :=
  if decide (sz o = 0) then Some NaN
  else if (length (upper (median o)) <? length (lower (median o)))%nat then
    (λ a, Dbl (QArith_base.inject_Z a)) <$> last (lower (median o))
  else
    a ← last (lower (median o));
    b ← List.head (upper (median o));
    Some (Dbl (avg2 a b)).

Definition getMode (o : AdvancedDS) : Z :=
  if modeCnt (mode o) =? 0 then INT_MIN else modeVal (mode o).

(** [pick] is the rank of [*it->second.begin()] among the nodes of the set. *)
Definition deleteVal (pick : nat) (x : Z) (o : AdvancedDS) : M (bool * AdvancedDS) :=
  match locs o !! x with
  | None => mret (false, o)
  | Some set =>
      match set !! (pick mod length set)%nat with
      | None => mret (false, o)
      | Some node =>
          o1 ← detach node o;
          let o2 := removeValueStructures x node o1 in
          delete_Node node;;
          mret (true, o2)
      end
  end.

Definition update (pick : nat) (oldVal newVal : Z) (o : AdvancedDS) : M (bool * AdvancedDS) :=
  match locs o !! oldVal with
  | None => mret (false, o)
  | Some set =>
      match set !! (pick mod length set)%nat with
      | None => mret (false, o)
      | Some node =>
          let o1 :=
            mkDS (head o) (tail o) (sz o)
                 (locs_erase oldVal node (locs o))
                 (modeDec oldVal (mode o))
                 (allVals_erase oldVal (allVals o))
                 (medianRemove oldVal (median o))
                 (random o) in
          store node (set_val newVal);;
          mret (true, addValueStructures newVal node o1)
      end
  end.

(** The values that [traverse] prints. *)
Definition traverse (o : AdvancedDS) : M (list Z) :=
  l ← walk (head o); mret (l.*2).

Definition getKth (k : nat) (o : AdvancedDS) : M (option Z) :=
  if sz o <=? Z.of_nat k then mret None
  else
    cur ← advance k (head o);
    match cur with
    | None => crash
    | Some p => n ← load p; mret (Some (val n))
    end.

(** [while (cur) { cur->val = a[i++]; cur = cur->next; }] *)
Fixpoint write_back (l : list (ptr * Z)) (a : list Z) : M unit :=
  match l, a with
  | c :: l', v :: a' => store c.1 (set_val v);; write_back l' a'
  | _, _ => mret ()
  end.

Definition sortAscending (o : AdvancedDS) : M AdvancedDS :=
  if sz o <=? 1 then mret o
  else if VEC_MAX <? sz o then crash
  else
    l ← walk (head o);
    write_back l (sort_asc (l.*2));;
    rebuildAll o.

Definition sortDescending (o : AdvancedDS) : M AdvancedDS :=
  if sz o <=? 1 then mret o
  else if VEC_MAX <? sz o then crash
  else
    l ← walk (head o);
    write_back l (sort_desc (l.*2));;
    rebuildAll o.

Definition nextPermutation (o : AdvancedDS) : M (bool * AdvancedDS) :=
  if sz o <=? 1 then mret (false, o)
  else if VEC_MAX <? sz o then crash
  else
    l ← walk (head o);
    let '(a, ok) := next_permutation (l.*2) in
    write_back l a;;
    o' ← rebuildAll o;
    mret (ok, o').

Definition prevPermutation (o : AdvancedDS) : M (bool * AdvancedDS) :=
  if sz o <=? 1 then mret (false, o)
  else if VEC_MAX <? sz o then crash
  else
    l ← walk (head o);
    let '(a, ok) := prev_permutation (l.*2) in
    write_back l a;;
    o' ← rebuildAll o;
    mret (ok, o').

(** [this->merge(other)] for two different objects: the new states of [this]
    and of [other]. *)
Definition merge (o other : AdvancedDS) : M (AdvancedDS * AdvancedDS) :=
  if decide (sz other = 0) then mret (o, other)
  else
    o1 ← (if decide (sz o = 0) then mret (with_links (head other) (tail other) o)
          else
            match tail o with
            | None => crash
            | Some t =>
                store t (set_next (head other));;
                match head other with
                | None => crash
                | Some oh =>
                    store oh (set_prev (Some t));;
                    mret (with_links (head o) (tail other) o)
                end
            end);
    l ← walk (head other);
    let o2 := foldl (λ st c, addIndices c.2 c.1 st)
                    (with_sz (size_t (sz o1 + sz other)) o1) l in
    mret (mkDS (head o2) (tail o2) (sz o2) (locs o2) (mode o2) (allVals o2)
               (rebalanceMedian (median o2)) (random o2),
          emptyDS).

(** [this->split(k)]: the new state of [this] and the object returned (the
    local [right] itself: the class has no copy constructor of its own and
    relies on the copy being elided). *)
Definition split (k : nat) (o : AdvancedDS) : M (AdvancedDS * AdvancedDS) :=
  if sz o <=? Z.of_nat k then mret (o, emptyDS)
  else
    match k with
    | O => '(r, o') ← merge emptyDS o; mret (o', r)
    | S cnt =>
        cur ← advance cnt (head o);
        match cur with
        | None => crash
        | Some c =>
            n ← load c;
            let newHead := next n in
            store c (set_next None);;
            match newHead with
            | Some q => store q (set_prev None)
            | None => mret ()
            end;;
            let right := with_links newHead (tail o) emptyDS in
            let this := with_links (head o) (Some c) o in
            lt ← walk (head this);
            lr ← walk (head right);
            this' ← rebuildAll (with_sz (size_t (Z.of_nat (length lt))) this);
            right' ← rebuildAll (with_sz (size_t (Z.of_nat (length lr))) right);
            mret (this', right')
        end
    end.

Fixpoint delete_all (l : list (ptr * Z)) : M unit :=
  match l with
  | [] => mret ()
  | c :: l' => delete_Node c.1;; delete_all l'
  end.

Definition clear (o : AdvancedDS) : M AdvancedDS :=
  l ← walk (head o);
  delete_all l;;
  mret emptyDS.

End Linked.

(** *** Runs at the level of pointers *)

(** [pushBack(1); pushBack(2); sortAscending(); r = split(2); r.pushBack(x)]
    on a new object: this object, [r] and the heap.  [sortAscending] leaves
    [sz] at 4 for the two nodes, so [split(2)] does not leave at [k >= sz]. *)
Definition run_split_push (x : Z)
  : option (Linked.AdvancedDS * Linked.AdvancedDS * Linked.heap) :=
  (ds ← Linked.pushBack 1 1%positive Linked.emptyDS;
   ds ← Linked.pushBack 2 2%positive ds;
   ds ← Linked.sortAscending ds;
   '(ds, r) ← Linked.split 2 ds;
   r ← Linked.pushBack x 3%positive r;
   mret (ds, r)) ∅.

(** [pushBack(5); update(5, 5); r = split(1); r.pushBack(3); r.pushBack(1);
    popFront()] on a new object: this object and the heap.  [update] leaves
    [sz] at 2 for the one node. *)
Definition run_split_pop : option (Linked.AdvancedDS * Linked.heap) :=
  (ds ← Linked.pushBack 5 1%positive Linked.emptyDS;
   '(_, ds) ← Linked.update 0 5 5 ds;
   '(ds, r) ← Linked.split 1 ds;
   r ← Linked.pushBack 3 2%positive r;
   r ← Linked.pushBack 1 3%positive r;
   Linked.popFront ds) ∅.

(** The usage example of the source file up to its [rotate(1)], as
    [ds_example]. *)
Definition run_example : option (Linked.AdvancedDS * Linked.heap) :=
  (ds ← Linked.pushBack 3 1%positive Linked.emptyDS;
   ds ← Linked.pushBack 1 2%positive ds;
   ds ← Linked.pushBack 2 3%positive ds;
   ds ← Linked.pushFront 5 4%positive ds;
   ds ← Linked.sortAscending ds;
   '(_, ds) ← Linked.nextPermutation ds;
   '(_, ds) ← Linked.deleteVal 0 2 ds;
   '(_, ds) ← Linked.update 0 5 7 ds;
   mret ds) ∅.

(** The calls of [ds_split_merge]: [r], this object and the heap. *)
Definition run_split_merge
  : option (Linked.AdvancedDS * Linked.AdvancedDS * Linked.heap) :=
  (ds ← Linked.pushBack 1 1%positive Linked.emptyDS;
   ds ← Linked.pushBack 2 2%positive ds;
   ds ← Linked.pushBack 3 3%positive ds;
   ds ← Linked.pushBack 4 4%positive ds;
   '(ds, r) ← Linked.split 1 ds;
   r ← Linked.popBack r;
   '(r, ds) ← Linked.merge r ds;
   r ← Linked.popFront r;
   mret (r, ds)) ∅.

(** ** Multiset lemmas *)

Lemma ms_insert_perm x l : ms_insert x l ≡ₚ x :: l.
Proof.
  induction l as [|y t IH]; simpl; [done|].
  destruct (x <? y); [done|]. rewrite IH. apply Permutation_swap.
Qed.

Lemma ms_insert_elem x y l : y ∈ ms_insert x l ↔ y = x ∨ y ∈ l.
Proof. rewrite ms_insert_perm. set_solver. Qed.

Lemma ms_insert_length x l : length (ms_insert x l) = S (length l).
Proof. by rewrite ms_insert_perm. Qed.

Lemma ms_insert_sorted x l :
  StronglySorted Z.le l → StronglySorted Z.le (ms_insert x l).
Proof.
  induction 1 as [|y t Ht IH Hy]; simpl.
  - repeat constructor.
  - destruct (Z.ltb_spec x y).
    + constructor; [by constructor|].
      constructor; [lia|]. eapply Forall_impl; [exact Hy|]. intros; simpl in *; lia.
    + constructor; [done|].
      apply Forall_forall. intros z Hz. apply ms_insert_elem in Hz as [->|Hz]; [done|].
      rewrite Forall_forall in Hy. by apply Hy.
Qed.

Lemma ms_erase_perm x l : x ∈ l → l ≡ₚ x :: ms_erase x l.
Proof.
  induction l as [|y t IH]; simpl; [by intros ?%elem_of_nil|].
  intros Hx. destruct (Z.eqb_spec x y) as [->|Hne]; [done|].
  apply elem_of_cons in Hx as [?|Hx]; [done|].
  rewrite (IH Hx) at 1. apply Permutation_swap.
Qed.

Lemma ms_erase_sublist x l : ms_erase x l `sublist_of` l.
Proof.
  induction l as [|y t IH]; simpl; [done|].
  destruct (x =? y); [by apply sublist_cons|by apply sublist_skip].
Qed.

Lemma ms_erase_elem x y l : y ∈ ms_erase x l → y ∈ l.
Proof. intros H. eapply elem_of_sublist; [exact H|apply ms_erase_sublist]. Qed.

Lemma SS_sublist (l k : list Z) :
  k `sublist_of` l → StronglySorted Z.le l → StronglySorted Z.le k.
Proof.
  induction 1 as [|y k l Hs IH|y k l Hs IH]; intros Hl; [done|..].
  - apply StronglySorted_cons in Hl as [Hy Hl]. apply StronglySorted_cons.
    split; [|by apply IH]. rewrite Forall_forall in Hy |- *.
    intros z Hz. apply Hy. by eapply elem_of_sublist.
  - apply StronglySorted_cons in Hl as [_ Hl]. by apply IH.
Qed.

Lemma ms_erase_sorted x l :
  StronglySorted Z.le l → StronglySorted Z.le (ms_erase x l).
Proof. apply SS_sublist, ms_erase_sublist. Qed.

Lemma ms_erase_length x l : x ∈ l → length l = S (length (ms_erase x l)).
Proof. intros H. by rewrite (ms_erase_perm x l H) at 1. Qed.

Lemma ms_mem_spec x l : ms_mem x l = true ↔ x ∈ l.
Proof. unfold ms_mem. by rewrite bool_decide_eq_true. Qed.

(** The last element of a sorted list is its maximum. *)
Lemma SS_last_max l top y :
  StronglySorted Z.le l → last l = Some top → y ∈ l → y <= top.
Proof.
  intros Hs [l' ->]%last_Some Hy.
  apply elem_of_app in Hy as [Hy|Hy].
  - eapply StronglySorted_app_1_elem_of; eauto. set_solver.
  - apply list_elem_of_singleton in Hy. lia.
Qed.

(** The first element of a sorted list is its minimum. *)
Lemma SS_head_min l x y :
  StronglySorted Z.le (x :: l) → y ∈ x :: l → x <= y.
Proof.
  intros [Hx _]%StronglySorted_cons [->|Hy]%elem_of_cons; [lia|].
  rewrite Forall_forall in Hx. by apply Hx.
Qed.

(** ** The median halves *)

(** After one insertion or removal and before [rebalanceMedian]. *)
Definition pre_balanced (m : Median) : Prop :=
  (length (upper m) ≤ length (lower m) + 1)%nat
  ∧ (length (lower m) ≤ length (upper m) + 2)%nat.

Lemma rebalanceMedian_ok m l :
  StronglySorted Z.le (lower m ++ upper m) →
  lower m ++ upper m ≡ₚ l →
  pre_balanced m →
  MedInv (rebalanceMedian m) l.
Proof.
  destruct m as [lo up]. unfold pre_balanced, rebalanceMedian, MedInv; simpl.
  intros Hs Hp [H1 H2].
  destruct (Nat.ltb_spec (length up + 1) (length lo)).
  - destruct (last lo) as [v|] eqn:Hl.
    + apply last_Some in Hl as [lo' ->]. rewrite removelast_last.
      rewrite length_app in *; simpl in *.
      apply StronglySorted_app in Hs as (Hc & Hlo & Hup).
      apply StronglySorted_app in Hlo as (Hc' & Hlo' & _).
      split_and!.
      * apply StronglySorted_app. split_and!; [|done|by apply ms_insert_sorted].
        intros x1 x2 Hx1 [->|Hx2]%ms_insert_elem.
        -- apply Hc'; set_solver.
        -- apply Hc; set_solver.
      * rewrite ms_insert_perm, <- Hp, <- (assoc_L (++)). done.
      * rewrite ms_insert_length. lia.
      * rewrite ms_insert_length. lia.
    + apply last_None in Hl as ->. simpl in *. lia.
  - destruct (Nat.ltb_spec (length lo) (length up)).
    + destruct up as [|v up']; simpl in *; [lia|].
      apply StronglySorted_app in Hs as (Hc & Hlo & Hup).
      split_and!.
      * apply StronglySorted_app. split_and!;
          [|by apply ms_insert_sorted|by apply StronglySorted_cons in Hup as [_ ?]].
        intros x1 x2 [->|Hx1]%ms_insert_elem Hx2.
        -- eapply SS_head_min; [exact Hup|by right].
        -- apply Hc; set_solver.
      * rewrite ms_insert_perm, <- Hp. simpl. apply Permutation_middle.
      * rewrite ms_insert_length. lia.
      * rewrite ms_insert_length. lia.
    + simpl. split_and!; [done|done|lia|lia].
Qed.

Lemma medianAdd_ok x m l l' :
  MedInv m l → l' ≡ₚ x :: l → MedInv (medianAdd x m) l'.
Proof.
  destruct m as [lo up]. unfold MedInv, medianAdd; simpl.
  intros (Hs & Hp & Hb1 & Hb2) Hl'.
  pose proof Hs as (Hc & Hlo & Hup)%StronglySorted_app.
  destruct (last lo) as [top|] eqn:Hl.
  - destruct (Z.leb_spec x top).
    + apply rebalanceMedian_ok; unfold pre_balanced; simpl.
      * apply StronglySorted_app. split_and!; [|by apply ms_insert_sorted|done].
        intros x1 x2 [->|Hx1]%ms_insert_elem Hx2; [|by apply Hc].
        assert (top <= x2); [|lia].
        apply Hc; [|done]. by apply last_Some_elem_of.
      * rewrite Hl', ms_insert_perm, <- Hp. done.
      * rewrite ms_insert_length. lia.
    + apply rebalanceMedian_ok; unfold pre_balanced; simpl.
      * apply StronglySorted_app. split_and!; [|done|by apply ms_insert_sorted].
        intros x1 x2 Hx1 [->|Hx2]%ms_insert_elem; [|by apply Hc].
        pose proof (SS_last_max lo top x1 Hlo Hl Hx1). lia.
      * rewrite Hl', ms_insert_perm, <- Hp. symmetry. apply Permutation_middle.
      * rewrite ms_insert_length. lia.
  - apply last_None in Hl as ->.
    destruct up; simpl in Hb1, Hb2; [|lia].
    apply rebalanceMedian_ok; unfold pre_balanced; simpl.
    + repeat constructor.
    + by rewrite Hl', <- Hp.
    + lia.
Qed.

Lemma medianRemove_ok x m l l' :
  MedInv m l → l ≡ₚ x :: l' → MedInv (medianRemove x m) l'.
Proof.
  destruct m as [lo up]. unfold MedInv, medianRemove; simpl.
  intros (Hs & Hp & Hb1 & Hb2) Hl'.
  pose proof Hs as (Hc & Hlo & Hup)%StronglySorted_app.
  assert (Hx : x ∈ lo ∨ x ∈ up).
  { apply elem_of_app. rewrite Hp, Hl'. by left. }
  assert (Hlow : x ∈ lo → MedInv (rebalanceMedian (mkMedian (ms_erase x lo) up)) l').
  { intros Hin. apply rebalanceMedian_ok; unfold pre_balanced; simpl.
    - apply StronglySorted_app. split_and!; [|by apply ms_erase_sorted|done].
      intros x1 x2 Hx1%ms_erase_elem Hx2. by apply Hc.
    - apply (Permutation_cons_inv (a := x)).
      rewrite <- Hl', <- Hp. rewrite (ms_erase_perm x lo Hin) at 2. done.
    - rewrite (ms_erase_length x lo Hin) in Hb1, Hb2. lia. }
  assert (Hupp : x ∈ up → MedInv (rebalanceMedian (mkMedian lo (ms_erase x up))) l').
  { intros Hin. apply rebalanceMedian_ok; unfold pre_balanced; simpl.
    - apply StronglySorted_app. split_and!; [|done|by apply ms_erase_sorted].
      intros x1 x2 Hx1 Hx2%ms_erase_elem. by apply Hc.
    - apply (Permutation_cons_inv (a := x)).
      rewrite <- Hl', <- Hp. rewrite (ms_erase_perm x up Hin) at 2.
      apply Permutation_middle.
    - rewrite (ms_erase_length x up Hin) in Hb1, Hb2. lia. }
  unfold MedInv in Hlow, Hupp.
  destruct (match last lo with Some top => x <=? top | None => false end).
  - destruct (ms_mem x lo) eqn:E1; [apply Hlow; by apply ms_mem_spec|].
    destruct (ms_mem x up) eqn:E2; [apply Hupp; by apply ms_mem_spec|].
    rewrite <- not_true_iff_false, ms_mem_spec in E1, E2. tauto.
  - destruct (ms_mem x up) eqn:E2; [apply Hupp; by apply ms_mem_spec|].
    destruct (ms_mem x lo) eqn:E1; [apply Hlow; by apply ms_mem_spec|].
    rewrite <- not_true_iff_false, ms_mem_spec in E1, E2. tauto.
Qed.

Lemma MedInv_perm m l l' : MedInv m l → l ≡ₚ l' → MedInv m l'.
Proof. intros (? & Hp & ?) E. split; [done|]. split; [by rewrite Hp|done]. Qed.

Lemma MedInv_empty : MedInv (mkMedian [] []) [].
Proof. split_and!; simpl; [constructor|done|lia|lia]. Qed.

(** ** Counting occurrences *)

Lemma cnt_nil x : cnt x [] = 0.
Proof. done. Qed.

Lemma cnt_cons x y l :
  cnt x (y :: l) = cnt x l + (if decide (y = x) then 1 else 0).
Proof.
  unfold cnt. rewrite filter_cons. destruct (decide (y = x)); simpl; lia.
Qed.

Lemma cnt_perm x l l' : l ≡ₚ l' → cnt x l = cnt x l'.
Proof. intros E. unfold cnt. by rewrite E. Qed.

Lemma cnt_nonneg x l : 0 <= cnt x l.
Proof. unfold cnt. lia. Qed.

Lemma cnt_pos x l : 0 < cnt x l ↔ x ∈ l.
Proof.
  induction l as [|y l IH]; [rewrite cnt_nil; split; [lia|by intros ?%elem_of_nil]|].
  rewrite cnt_cons, elem_of_cons. pose proof (cnt_nonneg x l).
  destruct (decide (y = x)) as [->|Hne]; [split; [by left|lia]|].
  rewrite Z.add_0_r, IH. naive_solver.
Qed.

Lemma cnt_zero x l : cnt x l = 0 ↔ x ∉ l.
Proof. rewrite <- cnt_pos. pose proof (cnt_nonneg x l). lia. Qed.

(** ** The frequency map and the mode cursor *)

Lemma ModeInv_perm m l l' : ModeInv m l → l ≡ₚ l' → ModeInv m l'.
Proof.
  intros (Hf & Hmax & He & Hne) E.
  assert (Hc : ∀ y, cnt y l' = cnt y l) by (intros; symmetry; by apply cnt_perm).
  split_and!.
  - intros x. by rewrite Hc.
  - intros y. by rewrite Hc.
  - intros ->. apply He. by apply Permutation_nil_r.
  - intros Hl'. destruct Hne as [H1 H2].
    { intros ->. by apply Permutation_nil in E. }
    rewrite Hc. split; [done|]. intros y. rewrite Hc. apply H2.
Qed.

Lemma ModeInv_empty : ModeInv (mkMode ∅ 0 0) [].
Proof. split_and!; simpl; try done. Qed.

Lemma modeInc_ok x m l l' :
  ModeInv m l → l' ≡ₚ x :: l → ModeInv (modeInc x m) l'.
Proof.
  intros (Hf & Hmax & He & Hne) Hl'.
  assert (Hc : ∀ y, cnt y l' = cnt y l + if decide (x = y) then 1 else 0).
  { intros y. by rewrite (cnt_perm _ _ _ Hl'), cnt_cons. }
  assert (Hl'ne : l' ≠ []).
  { intros ->. by apply Permutation_nil in Hl'. }
  assert (Hfx : default 0 (freq m !! x) = cnt x l).
  { rewrite Hf. destruct (decide (cnt x l = 0)); simpl; lia. }
  pose proof (cnt_nonneg x l) as Hx0.
  assert (Hfr : ∀ y, <[x := cnt x l + 1]> (freq m) !! y
                     = if decide (cnt y l' = 0) then None else Some (cnt y l')).
  { intros y. rewrite lookup_insert, Hc. pose proof (cnt_nonneg y l).
    destruct (decide (x = y)) as [->|]; simpl.
    - destruct (decide _); [lia|done].
    - rewrite Hf, Z.add_0_r. done. }
  unfold modeInc. rewrite Hfx.
  destruct ((modeCnt m <? cnt x l + 1)
            || ((cnt x l + 1 =? modeCnt m) && (x <? modeVal m))) eqn:E.
  - rewrite orb_true_iff, andb_true_iff, Z.ltb_lt, Z.eqb_eq, Z.ltb_lt in E.
    split_and!; simpl; [done|..|done|].
    + intros y. rewrite Hc. specialize (Hmax y). destruct (decide (x = y)); [subst|]; lia.
    + intros _. rewrite Hc. rewrite decide_True by done. split; [done|].
      intros y. rewrite Hc. specialize (Hmax y).
      destruct (decide (x = y)); [lia|]. intros Hy.
      destruct E as [E|[E1 E2]]; [lia|].
      destruct (decide (l = [])) as [->|Hl]; [rewrite cnt_nil in Hy; lia|].
      destruct (Hne Hl) as [_ Ht]. specialize (Ht y). lia.
  - rewrite orb_false_iff, andb_false_iff, Z.ltb_ge, Z.eqb_neq, Z.ltb_ge in E.
    assert (Hl : l ≠ []). { intros H. specialize (He H). lia. }
    destruct (Hne Hl) as [Hm Ht].
    split_and!; simpl; [done|..|done|].
    + intros y. rewrite Hc. specialize (Hmax y). destruct (decide (x = y)); [subst|]; lia.
    + intros _. rewrite !Hc. destruct (decide (x = modeVal m)) as [->|]; [lia|].
      split; [lia|]. intros y. rewrite Hc. specialize (Ht y).
      destruct (decide (x = y)); [subst|]; lia.
Qed.

(** The rescan keeps the entry with the highest count, the smallest key on a
    tie, in whatever order the entries come. *)
Lemma scan_fold es v0 :
  (∀ k n, (k, n) ∈ es → 0 < n) →
  ∀ v c, foldl scan_step (v0, 0) es = (v, c) →
    (∀ k n, (k, n) ∈ es → n < c ∨ (n = c ∧ v <= k))
    ∧ (es = [] → c = 0)
    ∧ (es ≠ [] → (v, c) ∈ es).
Proof.
  induction es as [|[k n] es IH] using rev_ind; intros Hpos v c.
  - simpl. intros [= <- <-]. split_and!; [by intros ?? ?%elem_of_nil|done|done].
  - rewrite foldl_snoc.
    destruct (foldl scan_step (v0, 0) es) as [v1 c1] eqn:E1.
    destruct (IH (λ k n H, Hpos k n (proj2 (elem_of_app _ _ _) (or_introl H)))
                 v1 c1 eq_refl) as (Hb & He & Hne).
    assert (Hn : 0 < n). { apply (Hpos k). set_solver. }
    assert (Hc1 : es = [] ∨ 0 < c1).
    { destruct es as [|e es']; [by left|right].
      apply (Hpos v1). apply elem_of_app. left. by apply Hne. }
    simpl.
    destruct ((c1 <? n) || ((n =? c1) && (k <? v1))) eqn:E;
      intros [= <- <-].
    + rewrite orb_true_iff, andb_true_iff, Z.ltb_lt, Z.eqb_eq, Z.ltb_lt in E.
      split_and!.
      * intros k' n' [Hin|[= -> ->]%list_elem_of_singleton]%elem_of_app; [|lia].
        specialize (Hb _ _ Hin). lia.
      * by intros ?%app_eq_nil%proj2.
      * intros _. set_solver.
    + rewrite orb_false_iff, andb_false_iff, Z.ltb_ge, Z.eqb_neq, Z.ltb_ge in E.
      destruct Hc1 as [->|Hc1]; [specialize (He eq_refl); lia|].
      split_and!.
      * intros k' n' [Hin|[= -> ->]%list_elem_of_singleton]%elem_of_app; [by apply Hb|lia].
      * by intros ?%app_eq_nil%proj2.
      * intros _. apply elem_of_app. left. apply Hne. intros ->. specialize (He eq_refl). lia.
Qed.

(** The iteration order of the map, which the library leaves open, does not
    change what the rescan finds. *)
Lemma scan_any_order es es' v0 :
  (∀ k n, (k, n) ∈ es → 0 < n) → es ≡ₚ es' →
  foldl scan_step (v0, 0) es = foldl scan_step (v0, 0) es'.
Proof.
  intros Hpos Hp.
  assert (Hpos' : ∀ k n, (k, n) ∈ es' → 0 < n).
  { intros k n Hin. apply (Hpos k). by rewrite Hp. }
  destruct (foldl scan_step (v0, 0) es) as [v c] eqn:E.
  destruct (foldl scan_step (v0, 0) es') as [v' c'] eqn:E'.
  destruct (scan_fold es v0 Hpos v c E) as (Hb & He & Hne).
  destruct (scan_fold es' v0 Hpos' v' c' E') as (Hb' & He' & Hne').
  destruct es as [|e es0].
  { apply Permutation_nil in Hp as ->. simpl in E, E'. congruence. }
  assert (Hes' : es' ≠ []).
  { intros ->. by apply Permutation_nil_r in Hp. }
  specialize (Hne ltac:(done)). specialize (Hne' Hes').
  rewrite Hp in Hne. rewrite <- Hp in Hne'.
  specialize (Hb _ _ Hne'). specialize (Hb' _ _ Hne).
  f_equal; lia.
Qed.

Lemma scan_ok (fr : gmap Z Z) l v0 v c :
  (∀ y, fr !! y = if decide (cnt y l = 0) then None else Some (cnt y l)) →
  foldl scan_step (v0, 0) (map_to_list fr) = (v, c) →
  (∀ y, cnt y l <= c)
  ∧ (l = [] → c = 0)
  ∧ (l ≠ [] → cnt v l = c ∧ ∀ y, cnt y l = c → v <= y).
Proof.
  intros Hf Hs.
  assert (Hin : ∀ k n, (k, n) ∈ map_to_list fr ↔ n = cnt k l ∧ n ≠ 0).
  { intros k n. rewrite elem_of_map_to_list, Hf.
    destruct (decide (cnt k l = 0)); naive_solver lia. }
  assert (Hpos : ∀ k n, (k, n) ∈ map_to_list fr → 0 < n).
  { intros k n [-> ?]%Hin. pose proof (cnt_nonneg k l). lia. }
  destruct (scan_fold _ v0 Hpos v c Hs) as (Hb & He & Hne).
  assert (Hc0 : 0 <= c).
  { destruct (map_to_list fr) as [|e es] eqn:E; [by rewrite He|].
    assert (0 < c); [|lia]. apply (Hpos v). by apply Hne. }
  split_and!.
  - intros y. destruct (decide (cnt y l = 0)) as [->|Hy]; [done|].
    destruct (Hb y (cnt y l)) as [?|[? ?]]; [by apply Hin|lia..].
  - intros ->. apply He. destruct (decide (map_to_list fr = [])) as [|E0]; [done|].
    assert (∃ k n, (k, n) ∈ map_to_list fr) as (k & n & Hk).
    { destruct (map_to_list fr) as [|[k n] es]; [done|]. exists k, n. by left. }
    apply Hin in Hk as [Hk ?]. rewrite cnt_nil in Hk. lia.
  - intros Hl. destruct l as [|y0 l0] eqn:El; [done|]. rewrite <- El in *.
    assert (Hy0 : (y0, cnt y0 l) ∈ map_to_list fr).
    { apply Hin. split; [done|]. assert (0 < cnt y0 l); [|lia].
      apply cnt_pos. rewrite El. by left. }
    assert (Hvc : (v, c) ∈ map_to_list fr).
    { apply Hne. intros E. rewrite E in Hy0. by apply elem_of_nil in Hy0. }
    pose proof Hvc as [-> Hcne]%Hin. split; [done|].
    intros y Hy. destruct (Hb y (cnt y l)) as [?|[? ?]]; [apply Hin; lia|lia|done].
Qed.

Lemma modeDec_ok x m l l' :
  ModeInv m l → l ≡ₚ x :: l' → ModeInv (modeDec x m) l'.
Proof.
  intros (Hf & Hmax & He & Hne) Hl.
  assert (Hc : ∀ y, cnt y l = cnt y l' + if decide (x = y) then 1 else 0).
  { intros y. by rewrite (cnt_perm _ _ _ Hl), cnt_cons. }
  assert (Hlne : l ≠ []).
  { intros ->. by apply Permutation_nil in Hl. }
  destruct (Hne Hlne) as [Hm Ht].
  pose proof (cnt_nonneg x l') as Hx0.
  assert (Hx : cnt x l = cnt x l' + 1).
  { rewrite Hc. destruct (decide (x = x)); [done|done]. }
  unfold modeDec. rewrite Hf. destruct (decide (cnt x l = 0)) as [|_]; [lia|].
  set (fr := if cnt x l - 1 =? 0 then delete x (freq m)
             else <[x := cnt x l - 1]> (freq m)).
  assert (Hfr : ∀ y, fr !! y = if decide (cnt y l' = 0) then None else Some (cnt y l')).
  { intros y. unfold fr. destruct (Z.eqb_spec (cnt x l - 1) 0) as [E|E].
    - rewrite lookup_delete. destruct (decide (x = y)) as [->|Hxy].
      + rewrite decide_True by lia. done.
      + rewrite Hf. replace (cnt y l) with (cnt y l'); [done|].
        rewrite Hc. destruct (decide (x = y)); [done|lia].
    - rewrite lookup_insert. destruct (decide (x = y)) as [->|Hxy].
      + rewrite decide_False by lia. f_equal. lia.
      + rewrite Hf. replace (cnt y l) with (cnt y l'); [done|].
        rewrite Hc. destruct (decide (x = y)); [done|lia]. }
  destruct ((x =? modeVal m)
            && match fr !! x with Some k => k <? modeCnt m | None => true end) eqn:E.
  - destruct (foldl scan_step (modeVal m, 0) (map_to_list fr)) as [mv mc] eqn:Es.
    destruct (scan_ok fr l' _ _ _ Hfr Es) as (H1 & H2 & H3).
    split_and!; simpl; done.
  - assert (Hxm : x ≠ modeVal m).
    { intros ->. rewrite Z.eqb_refl, Hfr in E. simpl in E.
      destruct (decide (cnt (modeVal m) l' = 0)); [done|].
      apply Z.ltb_ge in E. lia. }
    assert (Hm' : cnt (modeVal m) l' = modeCnt m).
    { rewrite <- Hm, Hc. destruct (decide (x = modeVal m)); [done|lia]. }
    split_and!; simpl; [done|..].
    + intros y. specialize (Hmax y). rewrite Hc in Hmax.
      destruct (decide (x = y)); lia.
    + intros ->. by rewrite <- Hm'.
    + intros _. split; [done|]. intros y Hy. apply Ht.
      specialize (Hmax y). rewrite Hc in Hmax |- *.
      destruct (decide (x = y)); lia.
Qed.

(** ** The order-statistics multiset *)

Lemma AllInv_add x a l l' :
  AllInv a l → l' ≡ₚ x :: l → AllInv (ms_insert x a) l'.
Proof.
  intros [Hs Hp] E. split; [by apply ms_insert_sorted|].
  by rewrite ms_insert_perm, Hp, E.
Qed.

Lemma AllInv_remove x a l l' :
  AllInv a l → l ≡ₚ x :: l' → AllInv (allVals_erase x a) l'.
Proof.
  intros [Hs Hp] E. unfold allVals_erase.
  assert (Hx : x ∈ a). { rewrite Hp, E. by left. }
  rewrite (proj2 (ms_mem_spec x a) Hx).
  split; [by apply ms_erase_sorted|].
  apply (Permutation_cons_inv (a := x)).
  by rewrite <- (ms_erase_perm x a Hx), Hp, E.
Qed.

(** ** The location index *)

Lemma LocsInv_add x p m l l' :
  LocsInv m l → l' ≡ₚ mkNode p x :: l → LocsInv (locs_insert x p m) l'.
Proof.
  intros H E y q. unfold locs_insert. rewrite E, elem_of_cons, <- (H y q), lookup_insert.
  destruct (decide (x = y)) as [->|Hxy]; simpl.
  - destruct (bool_decide_reflect (p ∈ default [] (m !! y))) as [Hin|Hin].
    + split; [by right|]. intros [[= ->]|?]; done.
    + rewrite elem_of_cons. split; (intros [?|?]; [left; congruence|by right]).
  - split; [by right|]. intros [[= ? ?]|?]; [congruence|done].
Qed.

Lemma LocsInv_remove x p m l l' :
  LocsInv m l → NoDup (addr <$> l) → l ≡ₚ mkNode p x :: l' →
  LocsInv (locs_erase x p m) l'.
Proof.
  intros H Hnd E. unfold LocsInv in H.
  assert (Hp : ∀ y, mkNode p y ∉ l').
  { intros y Hy. rewrite E in Hnd. simpl in Hnd. apply NoDup_cons in Hnd as [Hn _].
    apply Hn. apply list_elem_of_fmap. by exists (mkNode p y). }
  assert (Hl : ∀ y q, mkNode q y ∈ l ↔ (q = p ∧ y = x) ∨ mkNode q y ∈ l').
  { intros y q. rewrite E, elem_of_cons. naive_solver. }
  intros y q. unfold locs_erase.
  destruct (m !! x) as [set|] eqn:Hx.
  - assert (Hset : ∀ q, q ∈ set ↔ mkNode q x ∈ l).
    { intros q'. rewrite <- H, Hx. done. }
    assert (Hgoal : q ∈ filter (λ q, q ≠ p) set ↔ mkNode q x ∈ l').
    { rewrite list_elem_of_filter, Hset, Hl. specialize (Hp x). naive_solver. }
    destruct (filter (λ q, q ≠ p) set) as [|q0 f] eqn:Ef.
    + rewrite lookup_delete. destruct (decide (x = y)) as [->|Hxy]; simpl; [done|].
      rewrite H, Hl. naive_solver.
    + rewrite lookup_insert. destruct (decide (x = y)) as [->|Hxy]; simpl; [done|].
      rewrite H, Hl. naive_solver.
  - rewrite H, Hl. split; [|by right]. intros [[-> ->]|?]; [|done].
    assert (p ∈ default [] (m !! x)) as Hin. { apply H, Hl. by left. }
    rewrite Hx in Hin. by apply elem_of_nil in Hin.
Qed.

Lemma LocsInv_perm m l l' : LocsInv m l → l ≡ₚ l' → LocsInv m l'.
Proof. intros H E x p. by rewrite <- E. Qed.

(** ** The random pool *)

Lemma removelast_lookup {A} (l : list A) i :
  (S i < length l)%nat → removelast l !! i = l !! i.
Proof.
  intros Hi. rewrite removelast_firstn_len. apply lookup_take_lt. lia.
Qed.

Lemma pool_ok_add p r : pool_ok r → pool_ok (poolAdd p r).
Proof.
  intros H q i. unfold poolAdd; simpl. rewrite lookup_insert.
  destruct (decide (p = q)) as [->|Hpq]; simpl.
  - intros [= <-]. by rewrite lookup_app_r, Nat.sub_diag.
  - intros Hq. apply H in Hq. by apply lookup_app_l_Some.
Qed.

Lemma pool_ok_remove p r : pool_ok r → pool_ok (poolRemove p r).
Proof.
  intros H. unfold poolRemove.
  destruct (poolPos r !! p) as [idx|] eqn:Hp; [|done].
  pose proof (H _ _ Hp) as Hidx.
  pose proof (lookup_lt_Some _ _ _ Hidx) as Hlt.
  destruct (decide (idx ≠ (length (pool r) - 1)%nat)) as [Hne|Heq].
  - destruct (pool r !! (length (pool r) - 1)%nat) as [q|] eqn:Hq.
    2:{ apply lookup_ge_None in Hq. lia. }
    intros p' i; simpl. rewrite lookup_delete.
    destruct (decide (p = p')) as [|Hpp']; [done|]. rewrite lookup_insert.
    destruct (decide (q = p')) as [->|Hqp'].
    + intros [= <-]. rewrite removelast_lookup by (rewrite length_insert; lia).
      by apply list_lookup_insert_eq.
    + intros Hi. pose proof (H _ _ Hi) as Hpi.
      pose proof (lookup_lt_Some _ _ _ Hpi).
      assert (i ≠ (length (pool r) - 1)%nat) by congruence.
      assert (i ≠ idx) by congruence.
      rewrite removelast_lookup by (rewrite length_insert; lia).
      by rewrite list_lookup_insert_ne.
  - intros p' i; simpl. rewrite lookup_delete.
    destruct (decide (p = p')) as [|Hpp']; [done|].
    intros Hi. pose proof (H _ _ Hi) as Hpi.
    pose proof (lookup_lt_Some _ _ _ Hpi).
    assert (i ≠ idx) by congruence.
    rewrite removelast_lookup by lia. done.
Qed.

Lemma pool_ok_empty : pool_ok (mkPool [] ∅).
Proof. intros p i. simpl. by rewrite lookup_empty. Qed.

(** ** All indices together *)

Lemma AuxInv_perm s l l' : AuxInv s l → l ≡ₚ l' → AuxInv s l'.
Proof.
  intros (H1 & H2 & [H3 H3'] & H4 & H5) E.
  assert (E' : val <$> l ≡ₚ val <$> l') by (by rewrite E).
  split_and!; [by eapply LocsInv_perm|by eapply ModeInv_perm| |by eapply MedInv_perm|done].
  split; [done|]. by rewrite H3'.
Qed.

Lemma AuxInv_empty :
  AuxInv emptyDS [].
Proof.
  split_and!; simpl.
  - intros x p. rewrite lookup_empty. simpl. split; by intros ?%elem_of_nil.
  - apply ModeInv_empty.
  - split; [constructor|done].
  - apply MedInv_empty.
  - apply pool_ok_empty.
Qed.

Lemma AuxInv_addIndices x p s l l' :
  AuxInv s l → l' ≡ₚ mkNode p x :: l → AuxInv (addIndices x p s) l'.
Proof.
  intros (H1 & H2 & H3 & H4 & H5) E.
  assert (E' : val <$> l' ≡ₚ x :: (val <$> l)) by (by rewrite E).
  split_and!; simpl.
  - by eapply LocsInv_add.
  - by eapply modeInc_ok.
  - by eapply AllInv_add.
  - by eapply medianAdd_ok.
  - by apply pool_ok_add.
Qed.

Lemma AuxInv_add x p s l l' :
  AuxInv s l → l' ≡ₚ mkNode p x :: l → AuxInv (addValueStructures x p s) l'.
Proof. intros H E. exact (AuxInv_addIndices x p s l l' H E). Qed.

(** What [update] does before it adds the new value: the old value leaves
    every index but the pool. *)
Lemma AuxInv_untrack x p s l l' nl n :
  AuxInv s l → NoDup (addr <$> l) → l ≡ₚ mkNode p x :: l' →
  AuxInv (mkDS nl n (locs_erase x p (locs s)) (modeDec x (mode s))
               (allVals_erase x (allVals s)) (medianRemove x (median s)) (random s)) l'.
Proof.
  intros (H1 & H2 & H3 & H4 & H5) Hnd E.
  assert (E' : val <$> l ≡ₚ x :: (val <$> l')) by (by rewrite E).
  split_and!; simpl.
  - by eapply LocsInv_remove.
  - by eapply modeDec_ok.
  - by eapply AllInv_remove.
  - by eapply medianRemove_ok.
  - done.
Qed.

Lemma AuxInv_remove x p s l l' :
  AuxInv s l → NoDup (addr <$> l) → l ≡ₚ mkNode p x :: l' →
  AuxInv (removeValueStructures x p s) l'.
Proof.
  intros H Hnd E.
  destruct (AuxInv_untrack x p s l l' [] 0%nat H Hnd E) as (H1 & H2 & H3 & H4 & H5).
  split_and!; simpl; try done. apply pool_ok_remove, H.
Qed.

(** ** The node list *)

Lemma node_eta n : mkNode (addr n) (val n) = n.
Proof. by destruct n. Qed.

Lemma detach_sublist p l : detach p l `sublist_of` l.
Proof.
  induction l as [|n t IH]; simpl; [done|].
  destruct (decide (addr n = p)); [by apply sublist_cons|by apply sublist_skip].
Qed.

Lemma detach_perm p x l :
  NoDup (addr <$> l) → mkNode p x ∈ l → l ≡ₚ mkNode p x :: detach p l.
Proof.
  induction l as [|n t IH]; simpl; [by intros _ ?%elem_of_nil|].
  intros [Hn Hnd]%NoDup_cons Hin.
  destruct (decide (addr n = p)) as [Hp|Hp].
  - apply elem_of_cons in Hin as [<-|Hin]; [done|].
    exfalso. apply Hn. rewrite Hp. apply list_elem_of_fmap. by exists (mkNode p x).
  - apply elem_of_cons in Hin as [<-|Hin]; [exfalso; by apply Hp|].
    rewrite (IH Hnd Hin) at 1. apply Permutation_swap.
Qed.

Lemma detach_other p n l : n ∈ l → addr n ≠ p → n ∈ detach p l.
Proof.
  induction l as [|m t IH]; simpl; [done|].
  intros [->|Hin]%elem_of_cons Hne.
  - rewrite decide_False by done. by left.
  - destruct (decide (addr m = p)); [done|]. right. by apply IH.
Qed.

Lemma NoDup_addr_sublist (l k : list Node) :
  k `sublist_of` l → NoDup (addr <$> l) → NoDup (addr <$> k).
Proof. intros Hs Hl. eapply sublist_NoDup; [exact Hl|by apply fmap_sublist]. Qed.

Lemma set_val_addr p v l : addr <$> set_val p v l = addr <$> l.
Proof.
  unfold set_val. rewrite <- list_fmap_compose. apply list_fmap_ext.
  intros i n _. simpl. by destruct (decide (addr n = p)).
Qed.

Lemma set_val_perm p x v l :
  NoDup (addr <$> l) → mkNode p x ∈ l →
  set_val p v l ≡ₚ mkNode p v :: detach p l.
Proof.
  induction l as [|n t IH]; simpl; [by intros _ ?%elem_of_nil|].
  intros [Hn Hnd]%NoDup_cons Hin.
  destruct (decide (addr n = p)) as [Hp|Hp].
  - constructor. match goal with |- ?a ≡ₚ _ => replace a with t; [done|] end.
    rewrite <- (list_fmap_id t) at 1.
    apply list_fmap_ext. intros i m Hm. simpl.
    destruct (decide (addr m = p)) as [Hm'|]; [|done].
    exfalso. apply Hn. rewrite Hp, <- Hm'. apply list_elem_of_fmap.
    exists m. split; [done|]. by eapply list_elem_of_lookup_2.
  - apply elem_of_cons in Hin as [<-|Hin]; [exfalso; by apply Hp|].
    fold (set_val p v t). rewrite (IH Hnd Hin). apply Permutation_swap.
Qed.

Lemma set_val_id p x l :
  NoDup (addr <$> l) → mkNode p x ∈ l → set_val p x l = l.
Proof.
  intros Hnd Hin. unfold set_val. rewrite <- (list_fmap_id l) at 2.
  apply list_fmap_ext. intros i n Hn. simpl.
  destruct (decide (addr n = p)) as [Hp|]; [|done].
  apply list_elem_of_lookup_1 in Hin as [j Hj].
  assert (i = j); [|congruence].
  eapply NoDup_lookup; [exact Hnd|..]; rewrite list_lookup_fmap; [by rewrite Hn|].
  by rewrite Hj, Hp.
Qed.

Lemma set_val_twice p x y l : set_val p x (set_val p y l) = set_val p x l.
Proof.
  unfold set_val. rewrite <- list_fmap_compose. apply list_fmap_ext.
  intros i n _. simpl. destruct (decide (addr n = p)); simpl.
  - by rewrite decide_True.
  - by rewrite decide_False.
Qed.

Lemma elem_of_set_val n p v l :
  n ∈ set_val p v l → n = mkNode p v ∨ n ∈ l.
Proof.
  unfold set_val. intros (m & -> & Hm)%list_elem_of_fmap.
  destruct (decide (addr m = p)); [by left|by right].
Qed.

Lemma set_val_elem p x v l : mkNode p x ∈ l → mkNode p v ∈ set_val p v l.
Proof.
  intros Hin. unfold set_val. apply list_elem_of_fmap.
  exists (mkNode p x). simpl. by rewrite decide_True.
Qed.

Lemma write_back_addr a l : addr <$> write_back a l = take (length a) (addr <$> l).
Proof.
  revert a. induction l as [|n t IH]; intros [|v a]; simpl; try done.
  by rewrite IH.
Qed.

Lemma write_back_val a l :
  length a = length l → val <$> write_back a l = a.
Proof.
  revert a. induction l as [|n t IH]; intros [|v a]; simpl; try done.
  intros [= H]. by rewrite IH.
Qed.

(** ** Preservation of the invariant *)

Lemma fold_add_spec post : ∀ s0 pre,
  AuxInv s0 pre →
  let s' := foldl (λ st n, addValueStructures (val n) (addr n) st) s0 post in
  nodes s' = nodes s0 ∧ sz s' = (sz s0 + length post)%nat ∧ AuxInv s' (pre ++ post).
Proof.
  induction post as [|n t IH]; intros s0 pre H; simpl.
  - rewrite app_nil_r. split_and!; [done|lia|done].
  - destruct (IH (addValueStructures (val n) (addr n) s0) (pre ++ [n])) as (H1 & H2 & H3).
    + eapply AuxInv_add; [exact H|]. rewrite node_eta.
      symmetry. apply Permutation_cons_append.
    + split_and!; [by rewrite H1|rewrite H2; simpl; lia|by rewrite <- app_assoc in H3].
Qed.

Lemma fold_addIndices_spec post : ∀ s0 pre,
  AuxInv s0 pre →
  let s' := foldl (λ st n, addIndices (val n) (addr n) st) s0 post in
  nodes s' = nodes s0 ∧ sz s' = sz s0 ∧ AuxInv s' (pre ++ post).
Proof.
  induction post as [|n t IH]; intros s0 pre H; simpl.
  - rewrite app_nil_r. split_and!; done.
  - destruct (IH (addIndices (val n) (addr n) s0) (pre ++ [n])) as (H1 & H2 & H3).
    + eapply AuxInv_addIndices; [exact H|]. rewrite node_eta.
      symmetry. apply Permutation_cons_append.
    + split_and!; [by rewrite H1|by rewrite H2|by rewrite <- app_assoc in H3].
Qed.

Lemma rebuildAll_spec s :
  nodes (rebuildAll s) = nodes s
  ∧ sz (rebuildAll s) = (sz s + length (nodes s))%nat
  ∧ AuxInv (rebuildAll s) (nodes s).
Proof.
  unfold rebuildAll.
  exact (fold_add_spec (nodes s)
           (mkDS (nodes s) (sz s) ∅ (mkMode ∅ 0 0) [] (mkMedian [] []) (mkPool [] ∅))
           [] AuxInv_empty).
Qed.

Lemma Inv_empty : Inv emptyDS.
Proof. split_and!; simpl; [constructor|apply AuxInv_empty|lia]. Qed.

Lemma Inv_rebuildAll s : NoDup (addr <$> nodes s) → Inv (rebuildAll s).
Proof.
  intros Hnd. destruct (rebuildAll_spec s) as (H1 & H2 & H3).
  split_and!; rewrite ?H1, ?H2; [done|done|lia].
Qed.

Lemma Inv_add_node x p s l' :
  Inv s → fresh p s → l' ≡ₚ mkNode p x :: nodes s →
  Inv (addValueStructures x p (with_nodes l' s)).
Proof.
  intros (Hnd & Ha & Hsz) Hf E. split_and!; simpl.
  - rewrite E. simpl. by apply NoDup_cons.
  - by apply (AuxInv_add x p (with_nodes l' s) (nodes s) l').
  - rewrite E. simpl. lia.
Qed.

Lemma Inv_remove_node x p s :
  Inv s → mkNode p x ∈ nodes s →
  Inv (removeValueStructures x p (with_nodes (detach p (nodes s)) s)).
Proof.
  intros (Hnd & Ha & Hsz) Hin.
  pose proof (detach_perm p x _ Hnd Hin) as E.
  split_and!; simpl.
  - eapply NoDup_addr_sublist; [apply detach_sublist|done].
  - by apply (AuxInv_remove x p (with_nodes (detach p (nodes s)) s) (nodes s)).
  - apply Permutation_length in E. simpl in E. lia.
Qed.

Lemma Inv_perm_nodes s l' : Inv s → l' ≡ₚ nodes s → Inv (with_nodes l' s).
Proof.
  intros (Hnd & Ha & Hsz) E. split_and!; simpl.
  - by rewrite E.
  - by apply (AuxInv_perm s (nodes s)).
  - by rewrite E.
Qed.

(** A node that the location index lists for [x] is in the list with value [x]. *)
Lemma locs_pick s x set i p :
  Inv s → locs s !! x = Some set → set !! i = Some p → mkNode p x ∈ nodes s.
Proof.
  intros (_ & (Hl & _) & _) Hs Hp. apply Hl. rewrite Hs. simpl.
  by eapply list_elem_of_lookup_2.
Qed.

Lemma Inv_pushBack x p s : Inv s → fresh p s → Inv (pushBack x p s).
Proof.
  intros. apply Inv_add_node; [done..|]. unfold attachBack.
  symmetry. apply Permutation_cons_append.
Qed.

Lemma Inv_pushFront x p s : Inv s → fresh p s → Inv (pushFront x p s).
Proof. intros. by apply Inv_add_node. Qed.

Lemma Inv_popBack s : Inv s → Inv (popBack s).
Proof.
  intros H. unfold popBack. destruct (last (nodes s)) as [n|] eqn:E; [|done].
  apply Inv_remove_node; [done|]. rewrite node_eta. by apply last_Some_elem_of.
Qed.

Lemma Inv_popFront s : Inv s → Inv (popFront s).
Proof.
  intros H. unfold popFront. destruct (nodes s) as [|n t] eqn:E; [done|].
  rewrite <- E. apply Inv_remove_node; [done|]. rewrite node_eta, E. by left.
Qed.

Lemma Inv_deleteVal pick x s : Inv s → Inv (deleteVal pick x s).2.
Proof.
  intros H. unfold deleteVal. destruct (locs s !! x) as [set|] eqn:E; [|done].
  destruct (set !! _) as [p|] eqn:Ep; [|done]. simpl.
  apply Inv_remove_node; [done|]. by eapply locs_pick.
Qed.

Lemma Inv_update pick a b s : Inv s → Inv (update pick a b s).2.
Proof.
  intros H. unfold update. destruct (locs s !! a) as [set|] eqn:E; [|done].
  destruct (set !! _) as [p|] eqn:Ep; [|done]. simpl.
  pose proof (locs_pick _ _ _ _ _ H E Ep) as Hin.
  destruct H as (Hnd & Ha & Hsz).
  pose proof (detach_perm p a _ Hnd Hin) as Ed.
  split_and!; simpl.
  - by rewrite set_val_addr.
  - eapply (AuxInv_add b p _ (detach p (nodes s))).
    + by apply (AuxInv_untrack a p s (nodes s)).
    + by eapply set_val_perm.
  - rewrite <- (length_fmap addr), set_val_addr, length_fmap. lia.
Qed.

Lemma Inv_reverse s : Inv s → Inv (reverse_ s).
Proof. intros. apply Inv_perm_nodes; [done|]. apply reverse_Permutation. Qed.

Lemma Inv_rotate k s s' : Inv s → rotate k s = Some s' → Inv s'.
Proof.
  intros H. unfold rotate. repeat case_decide; intros [= <-]; try done.
  apply Inv_perm_nodes; [done|].
  rewrite Permutation_app_comm. by rewrite take_drop.
Qed.

Lemma Inv_dedup_fold rest : ∀ st seen,
  Inv st → NoDup (addr <$> rest) → (∀ n, n ∈ rest → n ∈ nodes st) →
  Inv (foldl dedup_step (st, seen) rest).1.
Proof.
  induction rest as [|n t IH]; intros st seen H Hnd Hsub; simpl; [done|].
  simpl in Hnd. apply NoDup_cons in Hnd as [Hn Hnd].
  case_bool_decide.
  - apply IH; [|done|].
    + apply Inv_remove_node; [done|]. rewrite node_eta. apply Hsub. by left.
    + intros m Hm. simpl. apply detach_other; [apply Hsub; by right|].
      intros Heq. apply Hn. rewrite <- Heq. by apply list_elem_of_fmap_2.
  - apply IH; [done|done|]. intros m Hm. apply Hsub. by right.
Qed.

Lemma Inv_removeDuplicates s : Inv s → Inv (removeDuplicates s).
Proof. intros H. apply Inv_dedup_fold; [done|apply H|done]. Qed.

Lemma Inv_rewrite a s : Inv s → Inv (rebuildAll (with_nodes (write_back a (nodes s)) s)).
Proof.
  intros (Hnd & _). apply Inv_rebuildAll. simpl. rewrite write_back_addr.
  eapply sublist_NoDup; [done|apply sublist_take].
Qed.

Lemma Inv_sortAscending s : Inv s → Inv (sortAscending s).
Proof. intros H. unfold sortAscending. destruct (_ <=? _)%nat; [done|by apply Inv_rewrite]. Qed.

Lemma Inv_sortDescending s : Inv s → Inv (sortDescending s).
Proof. intros H. unfold sortDescending. destruct (_ <=? _)%nat; [done|by apply Inv_rewrite]. Qed.

Lemma Inv_nextPermutation s : Inv s → Inv (nextPermutation s).2.
Proof.
  intros H. unfold nextPermutation. destruct (_ <=? _)%nat; [done|].
  destruct (next_permutation _) as [a ok]. by apply Inv_rewrite.
Qed.

Lemma Inv_prevPermutation s : Inv s → Inv (prevPermutation s).2.
Proof.
  intros H. unfold prevPermutation. destruct (_ <=? _)%nat; [done|].
  destruct (prev_permutation _) as [a ok]. by apply Inv_rewrite.
Qed.

Lemma MedInv_rebalance m l : MedInv m l → MedInv (rebalanceMedian m) l.
Proof.
  intros (Hs & Hp & Hb1 & Hb2). apply rebalanceMedian_ok; [done..|].
  unfold pre_balanced. lia.
Qed.

Lemma Inv_merge s o s' o' :
  Inv s → Inv o →
  (∀ p, p ∈ addr <$> nodes s → p ∉ addr <$> nodes o) →
  merge s o = Some (s', o') → Inv s' ∧ Inv o'.
Proof.
  intros Hs Ho Hdisj. unfold merge.
  destruct (decide (sz o = 0%nat)) as [Ho0|Ho0]; [by intros [= <- <-]|].
  set (linked := if decide (sz s = 0%nat) then Some (nodes o)
                 else match nodes s, nodes o with
                      | _ :: _, _ :: _ => Some (nodes s ++ nodes o)
                      | _, _ => None
                      end).
  assert (Hl : ∀ l, linked = Some l → l = nodes s ++ nodes o).
  { intros l. unfold linked. destruct (decide (sz s = 0%nat)) as [Hs0|Hs0].
    - intros [= <-]. destruct Hs as (_ & _ & Hsz). rewrite Hs0 in Hsz.
      destruct (nodes s); [done|simpl in Hsz; lia].
    - destruct (nodes s), (nodes o); by intros [= <-]. }
  destruct linked as [l|]; [|done]. simpl. specialize (Hl l eq_refl). subst l.
  intros [= <- <-]. split; [|apply Inv_empty].
  destruct Hs as (Hnds & Has & Hszs), Ho as (Hndo & Hao & Hszo).
  destruct (fold_addIndices_spec (nodes o)
              (mkDS (nodes s ++ nodes o) (sz s + sz o) (locs s) (mode s)
                    (allVals s) (median s) (random s))
              (nodes s) Has) as (H1 & H2 & H3).
  simpl in H1, H2.
  split_and!; simpl; rewrite ?H1, ?H2.
  - rewrite fmap_app. apply NoDup_app. done.
  - destruct H3 as (A1 & A2 & A3 & A4 & A5). split_and!; simpl; try done.
    by apply MedInv_rebalance.
  - rewrite length_app. lia.
Qed.

Lemma Inv_split k s s' r : Inv s → split k s = Some (s', r) → Inv s' ∧ Inv r.
Proof.
  intros Hs. unfold split.
  destruct (sz s <=? k)%nat; [intros [= <- <-]; split; [done|apply Inv_empty]|].
  destruct (decide (k = 0%nat)) as [->|Hk].
  - destruct (merge emptyDS s) as [[r0 s0]|] eqn:E; simpl; [|done].
    intros [= <- <-]. apply and_comm.
    eapply Inv_merge; [apply Inv_empty|exact Hs| |exact E].
    simpl. by intros p ?%elem_of_nil.
  - destruct (decide (k < length (nodes s))%nat); [|done].
    intros [= <- <-]. destruct Hs as (Hnd & _).
    split; apply Inv_rebuildAll; simpl;
      (eapply sublist_NoDup; [exact Hnd|apply fmap_sublist]);
      [apply sublist_take|apply sublist_drop].
Qed.

(** Every state that public calls can reach satisfies the invariant. *)
Lemma reachable_Inv s : reachable s → Inv s.
Proof.
  induction 1.
  - apply Inv_empty.
  - by apply Inv_pushBack.
  - by apply Inv_pushFront.
  - by apply Inv_popBack.
  - by apply Inv_popFront.
  - by apply Inv_deleteVal.
  - by apply Inv_update.
  - by apply Inv_reverse.
  - by eapply Inv_rotate.
  - by apply Inv_removeDuplicates.
  - by apply Inv_sortAscending.
  - by apply Inv_sortDescending.
  - by apply Inv_nextPermutation.
  - by apply Inv_prevPermutation.
  - eapply proj1, (Inv_merge s o); eauto.
  - eapply proj2, (Inv_merge s o); eauto.
  - eapply proj1, (Inv_split k s); eauto.
  - eapply proj2, (Inv_split k s); eauto.
  - apply Inv_empty.
Qed.

(** The loop of [merge] changes neither the list nor the counter. *)
Lemma fold_addIndices_frame l : ∀ s0,
  nodes (foldl (λ st n, addIndices (val n) (addr n) st) s0 l) = nodes s0
  ∧ sz (foldl (λ st n, addIndices (val n) (addr n) st) s0 l) = sz s0.
Proof.
  induction l as [|n t IH]; intros s0; simpl; [done|].
  destruct (IH (addIndices (val n) (addr n) s0)) as [-> ->]. done.
Qed.

(** ** Rewriting the stored values *)

(** Writing a full array of values over the slots and rebuilding: the slots
    keep their addresses and hold the array. *)
Lemma rewrite_traverse a s :
  length a = length (nodes s) →
  traverse (rebuildAll (with_nodes (write_back a (nodes s)) s)) = a
  ∧ addr <$> nodes (rebuildAll (with_nodes (write_back a (nodes s)) s)) = addr <$> nodes s.
Proof.
  intros Hlen. unfold traverse.
  destruct (rebuildAll_spec (with_nodes (write_back a (nodes s)) s)) as (-> & _).
  simpl. split; [by apply write_back_val|].
  rewrite write_back_addr, Hlen, <- (length_fmap addr). apply firstn_all.
Qed.

Lemma short_sorted (R : relation Z) (l : list Z) : (length l ≤ 1)%nat → Sorted R l.
Proof. destruct l as [|x [|y l]]; simpl; [repeat constructor..|lia]. Qed.

Lemma sort_asc_length a : length (sort_asc a) = length a.
Proof. unfold sort_asc. by rewrite merge_sort_Permutation. Qed.

Lemma sort_desc_perm a : sort_desc a ≡ₚ a.
Proof.
  unfold sort_desc. by rewrite reverse_Permutation, merge_sort_Permutation, reverse_Permutation.
Qed.

(** ** The library permutation step *)

Section PermutationStep.
Variable lt : Z → Z → bool.
Hypothesis lt_irrefl : ∀ x, lt x x = false.
Hypothesis lt_trans : ∀ x y z, lt x y = true → lt y z = true → lt x z = true.
Hypothesis lt_total : ∀ x y, lt x y = false → lt y x = false → x = y.

Lemma lt_asym x y : lt x y = true → lt y x = false.
Proof.
  intros H. destruct (lt y x) eqn:E; [|done].
  rewrite <- (lt_irrefl x). symmetry. by eapply lt_trans.
Qed.

Lemma leb_of_trans x y z : (leb_of lt) x y → (leb_of lt) y z → (leb_of lt) x z.
Proof.
  unfold leb_of. intros Hxy Hyz. destruct (lt z x) eqn:E; [|done].
  destruct (lt x y) eqn:E'.
  - rewrite <- Hyz. symmetry. by eapply lt_trans.
  - rewrite (lt_total x y E' Hxy) in E. congruence.
Qed.

Lemma lt_leb_of x y z : lt x y = true → (leb_of lt) y z → lt x z = true.
Proof.
  unfold leb_of. intros Hxy Hyz. destruct (lt y z) eqn:E; [by eapply lt_trans|].
  by rewrite <- (lt_total y z E Hyz).
Qed.

#[local] Instance leb_of_transitive : Transitive (leb_of lt).
Proof. intros x y z. apply leb_of_trans. Qed.

(** *** The lexicographic order *)


Lemma lexb_cons x a y c :
  lexb lt (x :: a) (y :: c) = true ↔ lt x y = true ∨ (x = y ∧ lexb lt a c = true).
Proof.
  simpl. rewrite orb_true_iff, andb_true_iff, bool_decide_eq_true. done.
Qed.


Lemma lexb_total a c :
  length a = length c → lexb lt a c = false → lexb lt c a = false → a = c.
Proof.
  revert c. induction a as [|x a IH]; intros [|y c]; try done.
  simpl. intros [= Hlen].
  rewrite !orb_false_iff, !andb_false_iff, !bool_decide_eq_false.
  intros [H1 H1'] [H2 H2'].
  pose proof (lt_total x y H1 H2) as ->. f_equal. apply IH; [done|..].
  - by destruct H1'.
  - by destruct H2'.
Qed.

Lemma lexb_app_l p u v : lexb lt (p ++ u) (p ++ v) = lexb lt u v.
Proof.
  induction p as [|x p IH]; simpl; [done|].
  by rewrite lt_irrefl, bool_decide_eq_true_2, IH.
Qed.

(** A sequence between two sequences that share a prefix has that prefix. *)
Lemma lexb_sandwich p u v c :
  lexb lt (p ++ u) c = true → lexb lt c (p ++ v) = true →
  ∃ w, c = p ++ w ∧ lexb lt u w = true ∧ lexb lt w v = true.
Proof.
  revert c. induction p as [|x p IH]; intros c.
  { simpl. intros. by exists c. }
  destruct c as [|z c]; [done|]. rewrite <- !app_comm_cons, !lexb_cons.
  intros [H1|[-> H1]] [H2|[E H2]].
  - rewrite (lt_asym _ _ H1) in H2. done.
  - subst. by rewrite lt_irrefl in H1.
  - by rewrite lt_irrefl in H2.
  - destruct (IH c H1 H2) as (w & -> & ? & ?). by exists w.
Qed.

(** A sequence that never rises is the last of its permutations. *)
Lemma desc_is_last d c :
  StronglySorted (λ x y, (leb_of lt) y x) d → c ≡ₚ d → lexb lt d c = false.
Proof.
  intros Hd. revert c. induction Hd as [|x d Hd IH Hx]; intros c Hp.
  { apply Permutation_nil_r in Hp as ->. done. }
  destruct c as [|z c]; [by apply Permutation_nil_cons in Hp|].
  simpl. apply orb_false_iff.
  assert (Hz : z ∈ x :: d) by (rewrite <- Hp; by left).
  assert (Hxz : lt x z = false).
  { apply elem_of_cons in Hz as [->|Hz]; [apply lt_irrefl|].
    rewrite Forall_forall in Hx. by apply Hx. }
  split; [done|]. apply andb_false_iff.
  destruct (decide (x = z)) as [->|Hne].
  - right. apply IH. by apply Permutation_cons_inv in Hp.
  - left. by apply bool_decide_eq_false.
Qed.

(** A sequence that never falls is the first of its permutations. *)
Lemma asc_is_first a c :
  StronglySorted (leb_of lt) a → c ≡ₚ a → lexb lt c a = false.
Proof.
  intros Ha. revert c. induction Ha as [|x a Ha IH Hx]; intros c Hp.
  { apply Permutation_nil_r in Hp as ->. done. }
  destruct c as [|z c]; [by apply Permutation_nil_cons in Hp|].
  simpl. apply orb_false_iff.
  assert (Hz : z ∈ x :: a) by (rewrite <- Hp; by left).
  assert (Hzx : lt z x = false).
  { apply elem_of_cons in Hz as [->|Hz]; [apply lt_irrefl|].
    rewrite Forall_forall in Hx. by apply Hx. }
  split; [done|]. apply andb_false_iff.
  destruct (decide (z = x)) as [->|Hne].
  - right. apply IH. by apply Permutation_cons_inv in Hp.
  - left. by apply bool_decide_eq_false.
Qed.

(** *** The two walks of the algorithm *)

Lemma pivot_split_cons x y rest :
  pivot_split lt (x :: y :: rest)
  = if lt y x then Some ([x], y, rest)
    else match pivot_split lt (y :: rest) with
         | Some (s, p, rest') => Some (x :: s, p, rest')
         | None => None
         end.
Proof. done. Qed.

Lemma pivot_split_none r : pivot_split lt r = None → Sorted (leb_of lt) r.
Proof.
  induction r as [|x r IH]; [constructor|].
  destruct r as [|y rest]; [repeat constructor|].
  rewrite pivot_split_cons. destruct (lt y x) eqn:E; [done|].
  destruct (pivot_split lt (y :: rest)) as [[[s p] rest']|] eqn:E'; [done|].
  intros _. constructor; [by apply IH|]. by constructor.
Qed.

Lemma pivot_split_some r s p rest :
  pivot_split lt r = Some (s, p, rest) →
  r = s ++ p :: rest ∧ Sorted (leb_of lt) s ∧ ∃ s' m, s = s' ++ [m] ∧ lt p m = true.
Proof.
  revert s. induction r as [|x r IH]; intros s; [done|].
  destruct r as [|y t]; [done|].
  rewrite pivot_split_cons. destruct (lt y x) eqn:E.
  - intros [= <- <- <-]. split_and!; [done|repeat constructor|]. by exists [], x.
  - destruct (pivot_split lt (y :: t)) as [[[s0 p0] rest0]|] eqn:E'; [|done].
    intros [= <- <- <-].
    destruct (IH s0 eq_refl) as (Hr & Hs & s' & m & -> & Hm).
    split_and!.
    + simpl. by rewrite Hr.
    + constructor; [done|]. destruct s' as [|z s'']; simpl in *.
      * injection Hr as -> _. by constructor.
      * injection Hr as -> _. by constructor.
    + by exists (x :: s'), m.
Qed.

Lemma swap_in_spec p s :
  (∃ s' m, s = s' ++ [m] ∧ lt p m = true) →
  ∃ s1 q s3, swap_in lt p s = Some (q, s1 ++ p :: s3)
             ∧ s = s1 ++ q :: s3
             ∧ (∀ x, x ∈ s1 → lt p x = false)
             ∧ lt p q = true.
Proof.
  induction s as [|x t IH]; intros (s' & m & Hs & Hm).
  { by destruct s'. }
  simpl. destruct (lt p x) eqn:E.
  - exists [], x, t. split_and!; [done|done|by intros ? ?%elem_of_nil|done].
  - destruct s' as [|z s'']; simpl in Hs.
    { injection Hs as -> _. congruence. }
    injection Hs as -> ->.
    destruct IH as (s1 & q & s3 & -> & Ht & H1 & Hq); [by exists s'', m|].
    exists (z :: s1), q, s3. rewrite Ht. split_and!; [done|done| |done].
    intros y [->|Hy]%elem_of_cons; [done|by apply H1].
Qed.
Lemma swap_in_sorted p s1 q s3 :
  StronglySorted (leb_of lt) (s1 ++ q :: s3) →
  (∀ x, x ∈ s1 → lt p x = false) → lt p q = true →
  StronglySorted (leb_of lt) (s1 ++ p :: s3).
Proof.
  intros Hs H1 Hq.
  apply StronglySorted_app in Hs as (Hc & Hs1 & Hs3').
  apply StronglySorted_cons in Hs3' as [Hq3 Hs3].
  apply StronglySorted_app. split_and!; [|done|].
  - intros x1 x2 Hx1 [->|Hx2]%elem_of_cons; [by apply H1|].
    apply Hc; [done|by right].
  - apply StronglySorted_cons. split; [|done].
    rewrite Forall_forall in Hq3 |- *. intros z Hz. specialize (Hq3 z Hz).
    unfold leb_of in *. destruct (lt z p) eqn:E; [|done].
    rewrite <- Hq3. symmetry. by eapply lt_trans.
Qed.

Lemma reverse_desc s :
  StronglySorted (leb_of lt) s → StronglySorted (λ x y, (leb_of lt) y x) (reverse s).
Proof.
  induction 1 as [|x s Hs IH Hx]; [rewrite reverse_nil; constructor|].
  rewrite reverse_cons. apply StronglySorted_app. split_and!; [|done|repeat constructor].
  intros x1 x2 Hx1 ->%list_elem_of_singleton. rewrite elem_of_reverse in Hx1.
  rewrite Forall_forall in Hx. exact (Hx _ Hx1).
Qed.

(** When the step answers [true] the result is the permutation that comes
    next: above the argument, with no permutation in between. *)
Lemma step_true a b :
  step_permutation lt a = (b, true) →
  b ≡ₚ a ∧ lexb lt a b = true
  ∧ ∀ c, c ≡ₚ a → lexb lt a c = true → lexb lt c b = false.
Proof.
  unfold step_permutation.
  destruct (pivot_split lt (reverse a)) as [[[s p] rest]|] eqn:E; [|done].
  destruct (pivot_split_some _ _ _ _ E) as (Hr & Hs & Hlast).
  apply Sorted_StronglySorted in Hs; [|apply _].
  destruct (swap_in_spec p s Hlast) as (s1 & q & s3 & -> & Hs13 & H1 & Hq).
  intros [= <-].
  assert (Ha : a = reverse rest ++ p :: reverse s).
  { rewrite <- (reverse_involutive a), Hr, reverse_app, reverse_cons, <- app_assoc. done. }
  assert (HA : StronglySorted (leb_of lt) (s1 ++ p :: s3)).
  { apply (swap_in_sorted p s1 q s3); [by rewrite <- Hs13|done..]. }
  assert (Hperm : q :: s1 ++ p :: s3 ≡ₚ p :: reverse s).
  { rewrite reverse_Permutation, Hs13, <- !Permutation_middle. apply perm_swap. }
  split_and!.
  - rewrite Ha. by apply Permutation_app_head.
  - rewrite Ha, lexb_app_l. simpl. by rewrite Hq.
  - intros c Hc Hac.
    destruct (lexb lt c (reverse rest ++ q :: s1 ++ p :: s3)) eqn:Hcb; [exfalso|done].
    rewrite Ha in Hac, Hc.
    destruct (lexb_sandwich _ _ _ _ Hac Hcb) as (w & -> & Hw1 & Hw2).
    apply Permutation_app_inv_l in Hc.
    destruct w as [|z w]; [by apply Permutation_nil_cons in Hc|].
    apply lexb_cons in Hw1 as [Hpz|[<- Hw1]].
    2:{ apply Permutation_cons_inv in Hc.
        rewrite (desc_is_last (reverse s) w) in Hw1; [done|by apply reverse_desc|done]. }
    apply lexb_cons in Hw2 as [Hzq|[-> Hw2]].
    2:{ rewrite <- Hperm in Hc. apply Permutation_cons_inv in Hc.
        rewrite (asc_is_first (s1 ++ p :: s3) w) in Hw2; done. }
    assert (Hz : z ∈ p :: reverse s) by (rewrite <- Hc; by left).
    apply elem_of_cons in Hz as [->|Hz]; [by rewrite lt_irrefl in Hpz|].
    rewrite elem_of_reverse, Hs13, elem_of_app, elem_of_cons in Hz.
    destruct Hz as [Hz|[->|Hz]].
    + by rewrite (H1 z Hz) in Hpz.
    + by rewrite lt_irrefl in Hzq.
    + rewrite Hs13 in Hs. apply StronglySorted_app in Hs as (_ & _ & Hs3).
      apply StronglySorted_cons in Hs3 as [Hq3 _].
      rewrite Forall_forall in Hq3. specialize (Hq3 z Hz). unfold leb_of in Hq3. congruence.
Qed.

(** When the step answers [false] the argument was the last permutation and
    the result is the first one. *)
Lemma step_false a b :
  step_permutation lt a = (b, false) →
  b = reverse a ∧ StronglySorted (leb_of lt) b
  ∧ ∀ c, c ≡ₚ a → lexb lt a c = false.
Proof.
  unfold step_permutation.
  destruct (pivot_split lt (reverse a)) as [[[s p] rest]|] eqn:E.
  { by destruct (swap_in lt p s) as [[q s']|]. }
  intros [= <-]. apply pivot_split_none in E.
  apply Sorted_StronglySorted in E; [|apply _].
  split_and!; [done|done|].
  intros c Hc. apply desc_is_last; [|done].
  rewrite <- (reverse_involutive a). by apply reverse_desc.
Qed.


(** *** Repeating the step *)



End PermutationStep.

(** ** The permutation step on integers and in the container *)

Lemma ltb_irrefl x : (x <? x) = false.
Proof. apply Z.ltb_irrefl. Qed.

Lemma ltb_trans x y z : (x <? y) = true → (y <? z) = true → (x <? z) = true.
Proof. rewrite !Z.ltb_lt. lia. Qed.

Lemma ltb_total x y : (x <? y) = false → (y <? x) = false → x = y.
Proof. rewrite !Z.ltb_ge. lia. Qed.

Lemma gtb_trans x y z : (y <? x) = true → (z <? y) = true → (z <? x) = true.
Proof. rewrite !Z.ltb_lt. lia. Qed.

Lemma gtb_total x y : (y <? x) = false → (x <? y) = false → x = y.
Proof. rewrite !Z.ltb_ge. lia. Qed.



Lemma next_permutation_length a : length (next_permutation a).1 = length a.
Proof.
  destruct (next_permutation a) as [b [|]] eqn:E; simpl.
  - destruct (step_true Z.ltb ltb_irrefl ltb_trans ltb_total a b E) as (Hb & _). by rewrite Hb.
  - destruct (step_false Z.ltb ltb_irrefl ltb_trans ltb_total a b E) as (-> & _).
    apply length_reverse.
Qed.

Lemma prev_permutation_length a : length (prev_permutation a).1 = length a.
Proof.
  destruct (prev_permutation a) as [b [|]] eqn:E; simpl.
  - destruct (step_true (λ x y, y <? x) ltb_irrefl gtb_trans gtb_total a b E) as (Hb & _). by rewrite Hb.
  - destruct (step_false (λ x y, y <? x) ltb_irrefl gtb_trans gtb_total a b E) as (-> & _).
    apply length_reverse.
Qed.

Lemma step_short lt a : (length a ≤ 1)%nat → step_permutation lt a = (a, false).
Proof. destruct a as [|x [|y a]]; simpl; [done|done|lia]. Qed.

(** The container call does the library step on the stored sequence. *)
Lemma nextPermutation_traverse s :
  (length (nodes s) ≤ sz s)%nat →
  (traverse (nextPermutation s).2, (nextPermutation s).1) = next_permutation (traverse s).
Proof.
  intros Hsz. unfold nextPermutation.
  destruct (Nat.leb_spec (sz s) 1) as [Hle|Hgt]; simpl.
  - unfold next_permutation. rewrite step_short; [done|].
    unfold traverse. rewrite length_fmap. lia.
  - pose proof (next_permutation_length (traverse s)) as Hlen.
    destruct (next_permutation (traverse s)) as [b ok]. simpl in *.
    destruct (rewrite_traverse b s) as [-> _]; [|done].
    rewrite Hlen. unfold traverse. by rewrite length_fmap.
Qed.

Lemma prevPermutation_traverse s :
  (length (nodes s) ≤ sz s)%nat →
  (traverse (prevPermutation s).2, (prevPermutation s).1) = prev_permutation (traverse s).
Proof.
  intros Hsz. unfold prevPermutation.
  destruct (Nat.leb_spec (sz s) 1) as [Hle|Hgt]; simpl.
  - unfold prev_permutation. rewrite step_short; [done|].
    unfold traverse. rewrite length_fmap. lia.
  - pose proof (prev_permutation_length (traverse s)) as Hlen.
    destruct (prev_permutation (traverse s)) as [b ok]. simpl in *.
    destruct (rewrite_traverse b s) as [-> _]; [|done].
    rewrite Hlen. unfold traverse. by rewrite length_fmap.
Qed.

(** The cycle of container calls follows the cycle of library steps. *)
Lemma permutation_cycle_traverse fuel : ∀ s L e,
  Inv s →
  step_cycle next_permutation fuel (traverse s) = Some (L, e) →
  ∃ s', permutation_cycle fuel s = Some (L, s') ∧ traverse s' = e.
Proof.
  induction fuel as [|fuel IH]; intros s L e HI; simpl; [done|].
  pose proof HI as (_ & _ & Hsz).
  pose proof (nextPermutation_traverse s Hsz) as Hn.
  pose proof (Inv_nextPermutation s HI) as HI'.
  destruct (next_permutation (traverse s)) as [b ok].
  destruct (nextPermutation s) as [ok' s1]. simpl in Hn, HI'.
  injection Hn as Hb ->. destruct ok.
  - destruct (step_cycle next_permutation fuel b) as [[L0 e0]|] eqn:Ec; simpl; [|done].
    intros [= <- <-]. rewrite <- Hb in Ec.
    destruct (IH s1 L0 e0 HI' Ec) as (s' & -> & Ht). simpl. by exists s'.
  - intros [= <- <-]. by exists s1.
Qed.

(** ** Stored values are [int]s *)

Lemma write_back_vals a l n : n ∈ write_back a l → val n ∈ a.
Proof.
  revert a. induction l as [|m t IH]; intros [|v a]; simpl; try by intros ?%elem_of_nil.
  intros [->|Hn]%elem_of_cons; [by left|]. right. by apply IH.
Qed.

Lemma dedup_nodes_sub rest : ∀ st seen n,
  n ∈ nodes (foldl dedup_step (st, seen) rest).1 → n ∈ nodes st.
Proof.
  induction rest as [|m t IH]; intros st seen n; simpl; [done|].
  case_bool_decide; intros Hn%IH; [|done].
  simpl in Hn. by eapply elem_of_sublist, detach_sublist.
Qed.

Lemma step_permutation_perm (a : list Z) b ok :
  next_permutation a = (b, ok) ∨ prev_permutation a = (b, ok) → b ≡ₚ a.
Proof.
  intros [E|E]; destruct ok.
  - by apply (step_true Z.ltb ltb_irrefl ltb_trans ltb_total a b).
  - destruct (step_false Z.ltb ltb_irrefl ltb_trans ltb_total a b E) as (-> & _).
    apply reverse_Permutation.
  - by apply (step_true (λ x y, y <? x) ltb_irrefl gtb_trans gtb_total a b).
  - destruct (step_false (λ x y, y <? x) ltb_irrefl gtb_trans gtb_total a b E) as (-> & _).
    apply reverse_Permutation.
Qed.

Lemma rewrite_is_int a s :
  (∀ v, v ∈ a → v ∈ traverse s) →
  (∀ n, n ∈ nodes s → is_int (val n)) →
  ∀ n, n ∈ nodes (rebuildAll (with_nodes (write_back a (nodes s)) s)) → is_int (val n).
Proof.
  intros Ha Hs n.
  destruct (rebuildAll_spec (with_nodes (write_back a (nodes s)) s)) as (-> & _).
  simpl. intros Hn%write_back_vals%Ha.
  apply list_elem_of_fmap in Hn as (m & -> & Hm). by apply Hs.
Qed.

Lemma merge_nodes s o s' o' n :
  merge s o = Some (s', o') → n ∈ nodes s' ∨ n ∈ nodes o' → n ∈ nodes s ∨ n ∈ nodes o.
Proof.
  unfold merge. destruct (decide (sz o = 0%nat)); [by intros [= <- <-]|].
  destruct (decide (sz s = 0%nat)).
  - simpl. intros [= <- <-]. simpl.
    destruct (fold_addIndices_frame (nodes o)
                (mkDS (nodes o) (sz s + sz o) (locs s) (mode s) (allVals s)
                      (median s) (random s))) as [-> _].
    simpl. intros [?|?%elem_of_nil]; [by right|done].
  - destruct (nodes s) as [|a l] eqn:Es; [done|].
    destruct (nodes o) as [|b k] eqn:Eo; [done|].
    simpl. intros [= <- <-]. simpl.
    destruct (fold_addIndices_frame (b :: k)
                (mkDS (a :: l ++ b :: k) (sz s + sz o) (locs s) (mode s) (allVals s)
                      (median s) (random s))) as [Hn _].
    simpl in Hn. rewrite Hn. simpl.
    intros [H|?%elem_of_nil]; [|done].
    change (n ∈ (a :: l) ++ b :: k) in H. by apply elem_of_app in H.
Qed.

(** Every value stored in a reachable container is in the range of [int]:
    the conversions and the sum in [getMedian] are exact. *)
Lemma reachable_is_int s : reachable s → ∀ n, n ∈ nodes s → is_int (val n).
Proof.
  induction 1 as [ | s x p Hr IH Hx Hp | s x p Hr IH Hx Hp | s Hr IH | s Hr IH
                 | s pick x Hr IH | s pick a b Hr IH Hb | s Hr IH | s k s2 Hr IH Hk
                 | s Hr IH | s Hr IH | s Hr IH | s Hr IH | s Hr IH
                 | s o s2 o2 Hr IH Hro IHo Hd Hm | s o s2 o2 Hr IH Hro IHo Hd Hm
                 | s k s2 r Hr IH Hk | s k s2 r Hr IH Hk | s Hr IH ]; intros n.
  - by intros ?%elem_of_nil.
  - simpl. unfold attachBack. intros [?| ->%list_elem_of_singleton]%elem_of_app; [by apply IH|done].
  - simpl. unfold attachFront. intros [->|?]%elem_of_cons; [done|by apply IH].
  - unfold popBack. destruct (last (nodes s)); [|apply IH]. simpl.
    intros Hn. apply IH. by eapply elem_of_sublist, detach_sublist.
  - unfold popFront. destruct (nodes s) as [|m t] eqn:E.
    { rewrite E. by intros ?%elem_of_nil. }
    cbn [nodes removeValueStructures with_nodes]. intros Hn. apply IH.
    eapply elem_of_sublist; [exact Hn|apply detach_sublist].
  - unfold deleteVal. destruct (locs s !! x); [|apply IH].
    destruct (_ !! _); [|apply IH]. simpl.
    intros Hn. apply IH. by eapply elem_of_sublist, detach_sublist.
  - unfold update. destruct (locs s !! a); [|apply IH].
    destruct (_ !! _); [|apply IH]. simpl.
    intros [->|?]%elem_of_set_val; [done|by apply IH].
  - simpl. rewrite elem_of_reverse. apply IH.
  - unfold rotate in Hk. repeat case_decide; try done; injection Hk as <-; try apply IH.
    simpl. rewrite elem_of_app. intros [Hn|Hn]; apply IH.
    + by eapply elem_of_sublist, sublist_drop.
    + by eapply elem_of_sublist, sublist_take.
  - intros Hn%dedup_nodes_sub. by apply IH.
  - unfold sortAscending. destruct (_ <=? _)%nat; [apply IH|].
    apply rewrite_is_int; [|done]. intros v. unfold sort_asc.
    by rewrite merge_sort_Permutation.
  - unfold sortDescending. destruct (_ <=? _)%nat; [apply IH|].
    apply rewrite_is_int; [|done]. intros v. by rewrite sort_desc_perm.
  - unfold nextPermutation. destruct (_ <=? _)%nat; [apply IH|].
    destruct (next_permutation (traverse s)) as [b ok] eqn:E.
    apply rewrite_is_int; [|done]. intros v.
    by rewrite (step_permutation_perm _ _ _ (or_introl E)).
  - unfold prevPermutation. destruct (_ <=? _)%nat; [apply IH|].
    destruct (prev_permutation (traverse s)) as [b ok] eqn:E.
    apply rewrite_is_int; [|done]. intros v.
    by rewrite (step_permutation_perm _ _ _ (or_intror E)).
  - intros Hn. destruct (merge_nodes _ _ _ _ n Hm (or_introl Hn)); [by apply IH|by apply IHo].
  - intros Hn. destruct (merge_nodes _ _ _ _ n Hm (or_intror Hn)); [by apply IH|by apply IHo].
  - unfold split in Hk. destruct (_ <=? _)%nat; [injection Hk as <- <-; apply IH|].
    destruct (decide (k = 0%nat)).
    + destruct (merge emptyDS s) as [[r0 s0]|] eqn:Em; [|done]. simpl in Hk.
      injection Hk as <- <-. intros Hn.
      destruct (merge_nodes _ _ _ _ n Em (or_intror Hn)) as [?%elem_of_nil|?]; [done|by apply IH].
    + case_decide; [|done]. injection Hk as <- <-.
      match goal with |- context [rebuildAll ?a] => destruct (rebuildAll_spec a) as (-> & _) end.
      simpl. intros Hn. apply IH. by eapply elem_of_sublist, sublist_take.
  - unfold split in Hk. destruct (_ <=? _)%nat; [injection Hk as <- <-; by intros ?%elem_of_nil|].
    destruct (decide (k = 0%nat)).
    + destruct (merge emptyDS s) as [[r0 s0]|] eqn:Em; [|done]. simpl in Hk.
      injection Hk as <- <-. intros Hn.
      destruct (merge_nodes _ _ _ _ n Em (or_introl Hn)) as [?%elem_of_nil|?]; [done|by apply IH].
    + case_decide; [|done]. injection Hk as <- <-.
      match goal with |- context [rebuildAll ?a] => destruct (rebuildAll_spec a) as (-> & _) end.
      simpl. intros Hn. apply IH. by eapply elem_of_sublist, sublist_drop.
  - by intros ?%elem_of_nil.
Qed.

(** ** Sample runs are reachable *)

Ltac solve_fresh := unfold fresh; apply (bool_decide_unpack _); vm_compute; exact I.
Ltac solve_int := unfold is_int, INT_MIN, INT_MAX; lia.
Ltac reach_step :=
  first [ apply reach_new
        | apply reach_pushBack; [|solve_int|solve_fresh]
        | apply reach_pushFront; [|solve_int|solve_fresh] ].

Lemma ds_1_2_reachable : reachable ds_1_2.
Proof. unfold ds_1_2. repeat reach_step. Qed.

Lemma ds_5_3_1_2_reachable : reachable ds_5_3_1_2.
Proof. unfold ds_5_3_1_2. repeat reach_step. Qed.

Lemma ds_1_2_3_reachable : reachable ds_1_2_3.
Proof. unfold ds_1_2_3, ds_1_2. repeat reach_step. Qed.

Lemma ds_1_2_3_4_reachable : reachable ds_1_2_3_4.
Proof. unfold ds_1_2_3_4, ds_1_2_3, ds_1_2. repeat reach_step. Qed.

Lemma ds_5_reachable : reachable ds_5.
Proof. unfold ds_5. repeat reach_step. Qed.

Lemma ds_example_reachable : reachable ds_example.
Proof.
  unfold ds_example.
  apply reach_update; [|solve_int].
  apply reach_deleteVal, reach_nextPermutation, reach_sortAscending, ds_5_3_1_2_reachable.
Qed.

Lemma ds_drained_reachable : reachable ds_drained.
Proof.
  unfold ds_drained. apply reach_popBack, reach_update; [|solve_int].
  repeat reach_step.
Qed.

(** ** The size counter (C1) *)

(** C1 fails: after [pushBack(1); pushBack(2); sortAscending()] the counter
    is 4 while the list, the frequency sum, the multisets and the pool all
    hold 2 elements; [rebuildAll] never resets [sz] before it counts the
    nodes in again. *)
Theorem aggregate_invariant_broken_by_sort :
  let s := sortAscending ds_1_2 in
  reachable s
  ∧ sz s = 4%nat
  ∧ length (nodes s) = 2%nat
  ∧ freq_total s = 2
  ∧ length (allVals s) = 2%nat
  ∧ (length (lower (median s)) + length (upper (median s)))%nat = 2%nat
  ∧ length (pool (random s)) = 2%nat
  ∧ ¬ aggregate_invariant s.
Proof.
  split; [apply reach_sortAscending, ds_1_2_reachable|].
  split_and!; try by vm_compute.
  intros [H _]. by vm_compute in H.
Qed.

(** [update] adds the slot to the pool and counts it a second time: after
    [pushBack(1); pushBack(2); update(1, 7)] the counter and the pool are at
    3 for 2 nodes. *)
Lemma aggregate_invariant_broken_by_update :
  let s := (update 0 1 7 ds_1_2).2 in
  reachable s
  ∧ sz s = 3%nat
  ∧ length (pool (random s)) = 3%nat
  ∧ length (nodes s) = 2%nat
  ∧ ¬ aggregate_invariant s.
Proof.
  split; [apply reach_update; [apply ds_1_2_reachable|solve_int]|].
  split_and!; try by vm_compute.
  intros [H _]. by vm_compute in H.
Qed.

(** The same happens on every rebuild: the counter grows by the number of
    nodes. *)
Lemma rebuildAll_counts_twice s :
  sz (rebuildAll s) = (sz s + length (nodes s))%nat.
Proof. apply rebuildAll_spec. Qed.

Lemma sum_snd_perm (l1 l2 : list (Z * Z)) :
  l1 ≡ₚ l2 → foldr (λ p acc, p.2 + acc) 0 l1 = foldr (λ p acc, p.2 + acc) 0 l2.
Proof. induction 1; simpl; lia. Qed.

(** The frequencies add up to the number of values they count. *)
Lemma freq_sum (l : list Z) : ∀ m : gmap Z Z,
  (∀ x, m !! x = if decide (cnt x l = 0) then None else Some (cnt x l)) →
  foldr (λ p acc, p.2 + acc) 0 (map_to_list m) = Z.of_nat (length l).
Proof.
  induction l as [|y l IH]; intros m Hm.
  - assert (m = ∅) as ->. { apply map_empty. intros x. by rewrite Hm, cnt_nil. }
    by rewrite map_to_list_empty.
  - set (c := cnt y l). pose proof (cnt_nonneg y l) as Hc. fold c in Hc.
    assert (Hy : m !! y = Some (c + 1)).
    { rewrite Hm, cnt_cons. fold c. rewrite (decide_True (P := y = y)) by done.
      destruct (decide (c + 1 = 0)); [lia|done]. }
    set (m0 := delete y m).
    assert (Hm0 : m = <[y := c + 1]> m0).
    { unfold m0. rewrite insert_delete_eq. symmetry. by apply insert_id. }
    assert (H0 : m0 !! y = None) by apply lookup_delete_eq.
    assert (Hs0 : foldr (λ p acc, p.2 + acc) 0 (map_to_list m0) = Z.of_nat (length l) - c).
    { destruct (decide (c = 0)) as [E|E].
      - rewrite (IH m0); [lia|]. intros x. destruct (decide (x = y)) as [->|Hxy].
        + rewrite H0. fold c. by rewrite decide_True.
        + unfold m0. rewrite lookup_delete_ne by done. rewrite Hm, cnt_cons.
          rewrite (decide_False (P := y = x)) by done. by rewrite Z.add_0_r.
      - pose proof (IH (<[y := c]> m0)) as IH'.
        rewrite (sum_snd_perm _ _ (map_to_list_insert _ _ _ H0)) in IH'. simpl in IH'.
        cut (c + foldr (λ p acc, p.2 + acc) 0 (map_to_list m0) = Z.of_nat (length l));
          [lia|].
        apply IH'. intros x. destruct (decide (x = y)) as [->|Hxy].
        + rewrite lookup_insert_eq. fold c. by rewrite decide_False.
        + rewrite lookup_insert_ne by done. unfold m0. rewrite lookup_delete_ne by done.
          rewrite Hm, cnt_cons. rewrite (decide_False (P := y = x)) by done.
          by rewrite Z.add_0_r. }
    rewrite Hm0, (sum_snd_perm _ _ (map_to_list_insert _ _ _ H0)). simpl.
    rewrite Hs0. lia.
Qed.

(** What does hold in every state of [reachable]: the list, the frequency map,
    the order-statistics multiset and the two median halves hold the same
    number of elements, and the counter is not below it. *)
Lemma index_sizes_agree s :
  reachable s →
  freq_total s = Z.of_nat (length (nodes s))
  ∧ length (allVals s) = length (nodes s)
  ∧ (length (lower (median s)) + length (upper (median s)))%nat = length (nodes s)
  ∧ (length (nodes s) ≤ sz s)%nat.
Proof.
  intros Hr.
  destruct (reachable_Inv s Hr) as (_ & (_ & (Hf & _) & [_ Ha] & (_ & Hm & _) & _) & Hsz).
  split_and!; [|..|rewrite <- length_app|done].
  - unfold freq_total. rewrite (freq_sum _ _ Hf). by rewrite length_fmap.
  - rewrite Ha. by rewrite length_fmap.
  - rewrite Hm. by rewrite length_fmap.
Qed.

(** ** The two levels on the usage example *)

(** On the usage example of the source file, where the list is the object's
    own, the two levels give the same sequence, counter and answers. *)
Example levels_agree_on_example :
  ∃ ds h, run_example = Some (ds, h)
    ∧ Linked.traverse ds h = Some (traverse ds_example, h)
    ∧ Linked.sz ds = Z.of_nat (sz ds_example)
    ∧ Linked.getMin ds = getMin ds_example
    ∧ Linked.getMax ds = getMax ds_example
    ∧ Linked.getMedian ds = getMedian ds_example
    ∧ Linked.getMode ds = getMode ds_example.
Proof. do 2 eexists. split; [by vm_compute|]. split_and!; by vm_compute. Qed.

(** So they do on a run through [split], [merge] and the two pops, where
    every object stays a list of its own: the sequence is 3 1 with the
    counter at 6. *)
Example levels_agree_on_split_and_merge :
  ∃ r ds h r' ds',
    run_split_merge = Some (r, ds, h) ∧ ds_split_merge = Some (r', ds')
    ∧ Linked.traverse r h = Some (traverse r', h) ∧ traverse r' = [3; 1]
    ∧ Linked.traverse ds h = Some (traverse ds', h)
    ∧ Linked.sz r = Z.of_nat (sz r') ∧ Linked.sz ds = Z.of_nat (sz ds')
    ∧ Linked.getKth 1 r h = (λ v, (v, h)) <$> getKth 1 r'
    ∧ Linked.getMedian r = getMedian r'
    ∧ Linked.getMode r = getMode r'.
Proof.
  do 5 eexists. split; [by vm_compute|]. split; [by vm_compute|].
  split_and!; by vm_compute.
Qed.

(** ** Queries on an empty container (C2) *)

(** C2 fails: the result of each query on an empty container is an [int]
    that a one-element container returns as well. *)
Lemma empty_query_sentinel_collides :
  let with_max := pushBack INT_MAX 1%positive emptyDS in
  let with_min := pushBack INT_MIN 1%positive emptyDS in
  reachable with_max ∧ reachable with_min
  ∧ traverse with_max = [INT_MAX] ∧ traverse with_min = [INT_MIN]
  ∧ is_int INT_MAX ∧ is_int INT_MIN
  ∧ getMin emptyDS = getMin with_max
  ∧ getMax emptyDS = getMax with_min
  ∧ getMode emptyDS = getMode with_min
  ∧ getRandom 0 emptyDS = getRandom 0 with_min.
Proof.
  split; [repeat reach_step|]. split; [repeat reach_step|].
  split; [done|]. split; [done|].
  split; [solve_int|]. split; [solve_int|].
  split_and!; by vm_compute.
Qed.

(** C2 as amended: on a container that is a list of its own, holds no element
    and has indices that agree with it ([Inv]), as a new or a cleared one,
    [getMin] returns [INT_MAX], [getMax] and [getMode] return [INT_MIN], and
    so does [getRandom] when its pool is empty; both are values an [int] slot
    can hold. *)
Theorem empty_queries_return_sentinels s :
  Inv s → nodes s = [] →
  getMin s = INT_MAX ∧ getMax s = INT_MIN ∧ getMode s = INT_MIN
  ∧ (pool (random s) = [] → ∀ i, getRandom i s = Some INT_MIN)
  ∧ is_int INT_MAX ∧ is_int INT_MIN.
Proof.
  intros (_ & (_ & (_ & _ & Hm & _) & [_ Ha] & _) & _) He.
  rewrite He in Ha, Hm. simpl in Ha, Hm. apply Permutation_nil_r in Ha.
  unfold getMin, getMax, getMode, getRandom. rewrite Ha, (Hm eq_refl). simpl.
  split_and!; [done|done|done| |solve_int|solve_int].
  by intros ->.
Qed.

Lemma empty_queries_return_sentinels_witness :
  Inv (clear ds_5_3_1_2) ∧ nodes (clear ds_5_3_1_2) = [] ∧
  getMin (clear ds_5_3_1_2) = INT_MAX ∧ getMax (clear ds_5_3_1_2) = INT_MIN
  ∧ getMode (clear ds_5_3_1_2) = INT_MIN
  ∧ (pool (random (clear ds_5_3_1_2)) = [] → ∀ i, getRandom i (clear ds_5_3_1_2) = Some INT_MIN)
  ∧ is_int INT_MAX ∧ is_int INT_MIN.
Proof.
  split; [apply Inv_empty|]. split; [reflexivity|].
  apply (empty_queries_return_sentinels (clear ds_5_3_1_2)); [apply Inv_empty|reflexivity].
Defined.

(** ** Median (C3) *)

(** C3 fails.  After [pushBack(1); pushBack(2); sortAscending()] the counter
    is 4 for two nodes, so [r = split(2)] walks to the last node and returns
    an object [r] with a null [head] and its [tail] at that node;
    [r.pushBack(9)] links the new node behind it.  This container then holds
    1 2 9, whose median is 2, and [getMedian()] answers 1.5, from the halves
    of 1 2. *)
Theorem median_wrong_after_split :
  ∃ ds r h, run_split_push 9 = Some (ds, r, h)
    ∧ Linked.traverse ds h = Some ([1; 2; 9], h)
    ∧ Linked.getMedian ds = Some (Dbl (QArith_base.Qmake 3 2))
    ∧ std_median [1; 2; 9] = Some (QArith_base.inject_Z 2)
    ∧ Linked.getMedian ds ≠ Dbl <$> std_median [1; 2; 9].
Proof.
  do 3 eexists. split; [by vm_compute|].
  split_and!; [by vm_compute..|]. by vm_compute.
Qed.

(** The two halves, side by side, are the sorted sequence. *)
Lemma median_halves_sorted s :
  Inv s → lower (median s) ++ upper (median s) = merge_sort Z.le (traverse s).
Proof.
  intros (_ & (_ & _ & _ & (Hs & Hp & _) & _) & _).
  apply (StronglySorted_unique Z.le); [done|apply StronglySorted_merge_sort; apply _|].
  by rewrite merge_sort_Permutation.
Qed.

(** [((double)a + (double)b) / 2.0] is the rational (a + b) / 2. *)
Lemma avg2_half a b : avg2 a b = QArith_base.Qmake (a + b) 2.
Proof.
  unfold avg2, QArith_base.Qdiv, QArith_base.Qmult, QArith_base.Qinv,
    QArith_base.Qplus, QArith_base.inject_Z. simpl. f_equal. lia.
Qed.

(** X24: on every non-empty container that is a list of its own and whose
    indices agree with it ([Inv]) [getMedian] returns the standard median of
    the stored values: the middle value of the sorted sequence for an odd
    length, the exact average of the two middle values for an even length. *)
Theorem getMedian_standard s :
  Inv s → nodes s ≠ [] →
  ∃ q, std_median (traverse s) = Some q ∧ getMedian s = Some (Dbl q).
Proof.
  intros HI Hne.
  pose proof (median_halves_sorted s HI) as Hsort.
  destruct HI as (_ & (_ & _ & _ & (Hs & Hp & Hb1 & Hb2) & _) & Hsz).
  unfold std_median, getMedian. rewrite <- Hsort.
  destruct (median s) as [lo up]. cbn [lower upper] in *.
  assert (Hlen : (length lo + length up = length (nodes s))%nat).
  { rewrite <- length_app, Hp. unfold traverse. by rewrite length_fmap. }
  assert (Hn : (0 < length (nodes s))%nat) by (destruct (nodes s); [done|simpl; lia]).
  rewrite decide_False by lia. rewrite length_app.
  destruct (Nat.ltb_spec (length up) (length lo)) as [Hlt|Hge].
  - assert (Hlo : length lo = S (length up)) by lia.
    assert (Hodd : Nat.odd (length lo + length up) = true).
    { apply Nat.odd_spec. exists (length up). lia. }
    assert (Hdiv : ((length lo + length up) / 2 = length up)%nat).
    { symmetry. apply (Nat.div_unique _ 2 _ 1); lia. }
    rewrite Hodd, Hdiv, (lookup_app_l lo up) by lia.
    rewrite last_lookup, Hlo. simpl.
    destruct (lo !! length up) as [a|] eqn:Ea.
    + exists (QArith_base.inject_Z a). done.
    + apply lookup_ge_None in Ea. lia.
  - assert (Hlo : length lo = length up) by lia.
    assert (Hodd : Nat.odd (length lo + length up) = false).
    { rewrite <- Nat.negb_even. apply negb_false_iff, Nat.even_spec.
      exists (length up). lia. }
    assert (Hdiv : ((length lo + length up) / 2 = length lo)%nat).
    { symmetry. apply (Nat.div_unique _ 2 _ 0); lia. }
    rewrite Hodd, Hdiv, (lookup_app_l lo up (length lo - 1)) by lia.
    rewrite (lookup_app_r lo up (length lo)), Nat.sub_diag by lia.
    rewrite last_lookup, head_lookup.
    replace (pred (length lo)) with (length lo - 1)%nat by lia.
    destruct (lo !! (length lo - 1)%nat) as [a|] eqn:Ea.
    2:{ apply lookup_ge_None in Ea. lia. }
    destruct (up !! 0%nat) as [b|] eqn:Eb.
    2:{ apply lookup_ge_None in Eb. lia. }
    simpl. exists (QArith_base.Qmake (a + b) 2). by rewrite avg2_half.
Qed.

Lemma getMedian_standard_witness :
  Inv ds_5_3_1_2 ∧ nodes ds_5_3_1_2 ≠ [] ∧
  ∃ q, std_median (traverse ds_5_3_1_2) = Some q ∧ getMedian ds_5_3_1_2 = Some (Dbl q).
Proof.
  assert (HI : Inv ds_5_3_1_2) by exact (reachable_Inv _ ds_5_3_1_2_reachable).
  split; [exact HI|]. split; [by vm_compute|].
  apply (getMedian_standard ds_5_3_1_2); [exact HI|by vm_compute].
Defined.

(** ** Mode (C4) *)

(** C4 fails.  After [pushBack(1); pushBack(2); sortAscending(); r = split(2);
    r.pushBack(2)] this container holds 1 2 2, where 2 is the value met most
    often, and [getMode()] answers 1, from the counts of 1 2. *)
Theorem mode_wrong_after_split :
  ∃ ds r h, run_split_push 2 = Some (ds, r, h)
    ∧ Linked.traverse ds h = Some ([1; 2; 2], h)
    ∧ Linked.getMode ds = 1
    ∧ brute_mode [1; 2; 2] = Some 2
    ∧ is_mode [1; 2; 2] 2.
Proof.
  do 3 eexists. split; [by vm_compute|].
  split_and!; [by vm_compute..|].
  split; [apply (bool_decide_unpack _); by vm_compute|].
  intros y. unfold cnt. simpl. rewrite !filter_cons, filter_nil.
  repeat case_decide; simpl; lia.
Qed.

Lemma is_mode_unique l m m' : is_mode l m → is_mode l m' → m = m'.
Proof.
  intros [_ H] [_ H']. specialize (H m'). specialize (H' m). lia.
Qed.

Lemma brute_fold l k :
  k ≠ [] →
  ∃ m, foldr (λ x acc,
           match acc with
           | None => Some x
           | Some m =>
               if (cnt m l <? cnt x l) || ((cnt x l =? cnt m l) && (x <? m))
               then Some x else Some m
           end) None k = Some m
       ∧ m ∈ k
       ∧ ∀ y, y ∈ k → cnt y l < cnt m l ∨ (cnt y l = cnt m l ∧ m <= y).
Proof.
  induction k as [|x t IH]; [done|]. intros _. simpl.
  destruct t as [|x' t'].
  - simpl. exists x. split_and!; [done|by left|].
    intros y ->%list_elem_of_singleton. lia.
  - destruct IH as (m & -> & Hm & Hb); [done|].
    destruct ((cnt m l <? cnt x l) || ((cnt x l =? cnt m l) && (x <? m))) eqn:E.
    + rewrite orb_true_iff, andb_true_iff, Z.ltb_lt, Z.eqb_eq, Z.ltb_lt in E.
      exists x. split_and!; [done|by left|].
      intros y [->|Hy]%elem_of_cons; [lia|]. specialize (Hb y Hy). lia.
    + rewrite orb_false_iff, andb_false_iff, Z.ltb_ge, Z.eqb_neq, Z.ltb_ge in E.
      exists m. split_and!; [done|by right|].
      intros y [->|Hy]%elem_of_cons; [lia|]. by apply Hb.
Qed.

Lemma brute_mode_is_mode l : l ≠ [] → ∃ m, brute_mode l = Some m ∧ is_mode l m.
Proof.
  intros Hl. destruct (brute_fold l l Hl) as (m & Hf & Hm & Hb).
  exists m. split; [done|]. split; [done|].
  intros y. destruct (decide (y ∈ l)) as [Hy|Hy]; [by apply Hb|].
  left. apply cnt_zero in Hy. apply cnt_pos in Hm. lia.
Qed.

(** X25: on every non-empty container that is a list of its own and whose
    indices agree with it ([Inv]) [getMode] is the value with the highest
    count, the smallest such value on a tie, which is what brute-force
    counting over the stored values finds. *)
Theorem getMode_correct s :
  Inv s → nodes s ≠ [] →
  is_mode (traverse s) (getMode s) ∧ brute_mode (traverse s) = Some (getMode s).
Proof.
  intros HI Hne.
  destruct HI as (_ & (_ & (Hf & Hmax & He & Hm) & _) & _).
  assert (Hl : traverse s ≠ []).
  { unfold traverse. destruct (nodes s); done. }
  fold (traverse s) in *. destruct (Hm Hl) as [Hc Ht].
  assert (Hpos : 0 < modeCnt (mode s)).
  { destruct (traverse s) as [|y l'] eqn:E; [done|].
    specialize (Hmax y). assert (0 < cnt y (y :: l')); [|lia].
    apply cnt_pos. by left. }
  assert (Hg : getMode s = modeVal (mode s)).
  { unfold getMode. destruct (Z.eqb_spec (modeCnt (mode s)) 0); [lia|done]. }
  assert (Him : is_mode (traverse s) (getMode s)).
  { rewrite Hg. split; [apply cnt_pos; lia|].
    intros y. specialize (Hmax y). specialize (Ht y). lia. }
  split; [done|].
  destruct (brute_mode_is_mode _ Hl) as (m & -> & Hm').
  f_equal. by eapply is_mode_unique.
Qed.

Lemma getMode_correct_witness :
  Inv ds_5_3_1_2 ∧ nodes ds_5_3_1_2 ≠ [] ∧
  is_mode (traverse ds_5_3_1_2) (getMode ds_5_3_1_2) ∧
  brute_mode (traverse ds_5_3_1_2) = Some (getMode ds_5_3_1_2).
Proof.
  assert (HI : Inv ds_5_3_1_2) by exact (reachable_Inv _ ds_5_3_1_2_reachable).
  split; [exact HI|]. split; [by vm_compute|].
  apply (getMode_correct ds_5_3_1_2); [exact HI|by vm_compute].
Defined.

(** ** The permutation calls of the container (C5) *)


(** The permutation calls keep the number of nodes and do not count the
    counter down. *)
Lemma nextPermutation_counted s :
  (length (nodes s) ≤ sz s)%nat →
  (length (nodes (nextPermutation s).2) ≤ sz (nextPermutation s).2)%nat.
Proof.
  intros Hsz. unfold nextPermutation. destruct (sz s <=? 1)%nat; [done|].
  destruct (next_permutation (traverse s)) as [a ok]. simpl.
  destruct (rebuildAll_spec (with_nodes (write_back a (nodes s)) s)) as (-> & -> & _).
  simpl. lia.
Qed.




(** The cycle on 1 2 3 run in full: six sequences, then 1 2 3 again. *)
Example permutation_cycle_1_2_3 :
  (λ '(L, e), (L, traverse e)) <$> permutation_cycle 6 ds_1_2_3
  = Some ([[1; 2; 3]; [1; 3; 2]; [2; 1; 3]; [2; 3; 1]; [3; 1; 2]; [3; 2; 1]], [1; 2; 3]).
Proof. by vm_compute. Qed.

(** ** Update there and back (C6) *)


(** [update] finds a slot of any value that is stored, and rewrites it in
    place. *)
Lemma update_nodes pick a b s :
  Inv s → a ∈ traverse s →
  ∃ p, mkNode p a ∈ nodes s
       ∧ (update pick a b s).1 = true
       ∧ nodes (update pick a b s).2 = set_val p b (nodes s).
Proof.
  intros HI (n & -> & Hn)%list_elem_of_fmap.
  pose proof HI as (_ & (Hl & _) & _).
  assert (Hp : addr n ∈ default [] (locs s !! val n)).
  { apply Hl. by rewrite node_eta. }
  unfold update. destruct (locs s !! val n) as [set|] eqn:E; simpl in Hp.
  2:{ by apply elem_of_nil in Hp. }
  assert (Hlen : (0 < length set)%nat).
  { destruct set; [by apply elem_of_nil in Hp|simpl; lia]. }
  destruct (set !! (pick mod length set)%nat) as [p|] eqn:Ep.
  2:{ apply lookup_ge_None in Ep.
      pose proof (Nat.mod_upper_bound pick (length set)). lia. }
  exists p. simpl. split; [|done]. by eapply locs_pick.
Qed.

(** X26: on a container that is a list of its own and whose indices agree with
    it ([Inv]) and that holds [a], [update(a, b)] and then [update(b, a)] both
    succeed, whichever nodes the location sets hand out; the frequency of
    every value and the multiset of stored values are as before, and the
    sequence order is as before whenever [b] was not stored before the calls
    or [b] is [a]. *)
Theorem update_round_trip s a b pick1 pick2 :
  Inv s → a ∈ traverse s →
  let r1 := update pick1 a b s in
  let r2 := update pick2 b a r1.2 in
  r1.1 = true ∧ r2.1 = true
  ∧ freq (mode r2.2) = freq (mode s)
  ∧ traverse r2.2 ≡ₚ traverse s
  ∧ (a = b ∨ b ∉ traverse s → traverse r2.2 = traverse s).
Proof.
  intros HI Ha r1 r2.
  destruct (update_nodes pick1 a b s HI Ha) as (p & Hp & Hok1 & Hn1).
  fold r1 in Hok1, Hn1.
  assert (HI1 : Inv r1.2) by (by apply Inv_update).
  pose proof HI as (Hnd & _).
  assert (Hb : b ∈ traverse r1.2).
  { unfold traverse. rewrite Hn1. apply list_elem_of_fmap.
    exists (mkNode p b). split; [done|]. by eapply set_val_elem. }
  destruct (update_nodes pick2 b a r1.2 HI1 Hb) as (q & Hq & Hok2 & Hn2).
  fold r2 in Hok2, Hn2.
  assert (HI2 : Inv r2.2) by (by apply Inv_update).
  assert (Hnd1 : NoDup (addr <$> nodes r1.2)) by apply HI1.
  assert (Hperm : traverse r2.2 ≡ₚ traverse s).
  { unfold traverse. rewrite Hn2.
    rewrite (set_val_perm q b a _ Hnd1 Hq). simpl.
    rewrite (detach_perm p a _ Hnd Hp). simpl. constructor.
    apply (Permutation_cons_inv (a := b)).
    change (val <$> mkNode q b :: detach q (nodes r1.2)
            ≡ₚ val <$> mkNode p b :: detach p (nodes s)).
    rewrite <- (detach_perm q b _ Hnd1 Hq), Hn1.
    by rewrite (set_val_perm p a b _ Hnd Hp). }
  split_and!; [done|done| |done|].
  - apply map_eq. intros x.
    destruct HI as (_ & (_ & (Hf & _) & _) & _).
    destruct HI2 as (_ & (_ & (Hf2 & _) & _) & _).
    rewrite Hf, Hf2. fold (traverse s) (traverse r2.2).
    by rewrite (cnt_perm x _ _ Hperm).
  - intros Hcase. unfold traverse. f_equal. rewrite Hn2, Hn1.
    assert (Hqp : a ≠ b → b ∉ traverse s → q = p).
    { intros Hab Hnb. rewrite Hn1 in Hq.
      apply elem_of_set_val in Hq as [[= ->]|Hq]; [done|].
      exfalso. apply Hnb. apply list_elem_of_fmap. by exists (mkNode q b). }
    destruct (decide (a = b)) as [<-|Hab].
    + rewrite (set_val_id p a) by done. rewrite Hn1, (set_val_id p a) in Hq by done.
      by apply set_val_id.
    + destruct Hcase as [?|Hnb]; [done|]. rewrite (Hqp Hab Hnb).
      rewrite set_val_twice. by apply set_val_id.
Qed.

Lemma update_round_trip_witness :
  Inv ds_5_3_1_2 ∧ 3 ∈ traverse ds_5_3_1_2 ∧
  let r1 := update 0 3 7 ds_5_3_1_2 in
  let r2 := update 0 7 3 r1.2 in
  r1.1 = true ∧ r2.1 = true
  ∧ freq (mode r2.2) = freq (mode ds_5_3_1_2)
  ∧ traverse r2.2 ≡ₚ traverse ds_5_3_1_2
  ∧ (3 = 7 ∨ 7 ∉ traverse ds_5_3_1_2 → traverse r2.2 = traverse ds_5_3_1_2).
Proof.
  assert (HI : Inv ds_5_3_1_2) by exact (reachable_Inv _ ds_5_3_1_2_reachable).
  split; [exact HI|].
  split; [apply (bool_decide_unpack _); by vm_compute|].
  apply (update_round_trip ds_5_3_1_2 3 7 0 0); [exact HI|].
  apply (bool_decide_unpack _); by vm_compute.
Defined.

(** ** Sorting (C7) *)

(** C7 fails.  After [pushBack(5); update(5, 5)] the counter is 2 for one
    node, so [r = split(1)] returns an object with its [tail] at that node;
    [r.pushBack(3); r.pushBack(1)] link two nodes behind it, and
    [popFront()] leaves this container with the sequence 3 1 and the counter
    at 1.  [sortAscending()] then leaves at [sz <= 1] and the sequence stays
    3 1. *)
Theorem sort_skipped_after_split :
  ∃ ds h, run_split_pop = Some (ds, h)
    ∧ Linked.traverse ds h = Some ([3; 1], h)
    ∧ Linked.sz ds = 1
    ∧ Linked.sortAscending ds h = Some (ds, h)
    ∧ ¬ Sorted Z.le [3; 1].
Proof.
  do 2 eexists. split; [by vm_compute|].
  split_and!; [by vm_compute..|].
  intros H. inversion H as [|? ? _ Hd]. inversion Hd as [|? ? Hle]. by vm_compute in Hle.
Qed.

(** X27: on a container that is a list of its own and whose counter is not
    below the number of its nodes and is in the range of a vector,
    [sortAscending] leaves a non-decreasing sequence with the same multiset of
    values in the same slots, and [sortDescending] a non-increasing one. *)
Theorem sort_correct s :
  (length (nodes s) ≤ sz s)%nat → Z.of_nat (sz s) <= VEC_MAX →
  (Sorted Z.le (traverse (sortAscending s))
   ∧ traverse (sortAscending s) ≡ₚ traverse s
   ∧ addr <$> nodes (sortAscending s) = addr <$> nodes s)
  ∧ (Sorted (flip Z.le) (traverse (sortDescending s))
     ∧ traverse (sortDescending s) ≡ₚ traverse s
     ∧ addr <$> nodes (sortDescending s) = addr <$> nodes s).
Proof.
  intros Hsz _.
  unfold sortAscending, sortDescending.
  destruct (Nat.leb_spec (sz s) 1) as [Hle|Hgt].
  - assert (length (traverse s) ≤ 1)%nat.
    { unfold traverse. rewrite length_fmap. lia. }
    split; (split; [by apply short_sorted|done]).
  - split.
    + destruct (rewrite_traverse (sort_asc (traverse s)) s) as [-> ->].
      { rewrite sort_asc_length. unfold traverse. by rewrite length_fmap. }
      split_and!; [apply Sorted_merge_sort; apply _|apply merge_sort_Permutation|done].
    + destruct (rewrite_traverse (sort_desc (traverse s)) s) as [-> ->].
      { rewrite sort_desc_perm. unfold traverse. by rewrite length_fmap. }
      split_and!; [|apply sort_desc_perm|done].
      apply Sorted_reverse, Sorted_merge_sort; apply _.
Qed.

Lemma sort_correct_witness :
  (length (nodes ds_5_3_1_2) ≤ sz ds_5_3_1_2)%nat ∧ Z.of_nat (sz ds_5_3_1_2) <= VEC_MAX ∧
  (Sorted Z.le (traverse (sortAscending ds_5_3_1_2))
   ∧ traverse (sortAscending ds_5_3_1_2) ≡ₚ traverse ds_5_3_1_2
   ∧ addr <$> nodes (sortAscending ds_5_3_1_2) = addr <$> nodes ds_5_3_1_2)
  ∧ (Sorted (flip Z.le) (traverse (sortDescending ds_5_3_1_2))
     ∧ traverse (sortDescending ds_5_3_1_2) ≡ₚ traverse ds_5_3_1_2
     ∧ addr <$> nodes (sortDescending ds_5_3_1_2) = addr <$> nodes ds_5_3_1_2).
Proof.
  assert (H1 : (length (nodes ds_5_3_1_2) ≤ sz ds_5_3_1_2)%nat) by (vm_compute; lia).
  assert (H2 : Z.of_nat (sz ds_5_3_1_2) <= VEC_MAX) by (by vm_compute).
  split; [exact H1|]. split; [exact H2|].
  apply (sort_correct ds_5_3_1_2 H1 H2).
Defined.

(** ** Merge (C8) *)

(** C8 fails once a counter has drifted.  After [pushBack(1); update(1, 1);
    popBack()] the object [B] holds no element but counts 1; [A.merge(B)]
    with [A] holding 5 passes the [other.sz == 0] test and writes through
    the null [other.head]; with [A] new it returns with [A] counting one
    element and holding none. *)
Theorem merge_drained_crashes :
  reachable ds_5 ∧ reachable ds_drained
  ∧ traverse ds_drained = [] ∧ sz ds_drained = 1%nat
  ∧ merge ds_5 ds_drained = None
  ∧ (sz ∘ fst <$> merge emptyDS ds_drained) = Some 1%nat.
Proof.
  split; [apply ds_5_reachable|]. split; [apply ds_drained_reachable|].
  split_and!; by vm_compute.
Qed.

(** The same drift on the receiving side: an object that holds nothing but
    counts 1 reads its null [tail]. *)
Lemma merge_into_drained_crashes : merge ds_drained ds_5 = None.
Proof. by vm_compute. Qed.


(** ** Split (C9) *)

(** C9 fails on the second split.  [split(2)] on 1 2 3 4 leaves 1 2 in
    this container and returns 3 4, but counts both twice: the sizes are set
    by a traversal and [rebuildAll] then counts every node again.  With the
    counter at 4 for two elements, [split(3)] does not take the [k >= sz]
    exit and walks off the end of the list. *)
Theorem split_twice_crashes :
  ∃ s r,
    split 2 ds_1_2_3_4 = Some (s, r)
    ∧ reachable s
    ∧ traverse s = [1; 2] ∧ traverse r = [3; 4]
    ∧ sz s = 4%nat ∧ sz r = 4%nat
    ∧ split 3 s = None.
Proof.
  destruct (split 2 ds_1_2_3_4) as [[s r]|] eqn:E; [|by vm_compute in E].
  exists s, r. split; [done|].
  split; [by eapply reach_split_this; [apply ds_1_2_3_4_reachable|exact E]|].
  vm_compute in E. injection E as <- <-. split_and!; by vm_compute.
Qed.

(** The same after any rebuild: [sortAscending] on two elements leaves the
    counter at 4, and [split(3)] walks off the list. *)
Lemma split_after_sort_crashes :
  let s := sortAscending ds_1_2 in
  reachable s ∧ length (nodes s) = 2%nat ∧ sz s = 4%nat ∧ split 3 s = None.
Proof.
  split; [apply reach_sortAscending, ds_1_2_reachable|].
  split_and!; by vm_compute.
Qed.


(** ** Rotation (C10) *)

(** C10 fails once the counter has drifted.  In the usage example of the
    source file the sequence is 1 7 3 when [rotate(1)] is reached, and the
    comment there expects 3 1 7; the counter is 12 by then, and the walk of
    [rotate(1)] runs off the end of the list.  After [pushBack(1);
    pushBack(2); pushBack(3); update(1, 1)] the counter is 4 for three
    elements, and [rotate(3)], a rotation by the number of stored elements,
    moves the first element to the end. *)
Theorem rotate_with_drifted_counter :
  let s := (update 0 1 1 ds_1_2_3).2 in
  reachable ds_example
  ∧ traverse ds_example = [1; 7; 3] ∧ sz ds_example = 12%nat
  ∧ rotate 1 ds_example = None
  ∧ reachable s
  ∧ traverse s = [1; 2; 3] ∧ sz s = 4%nat
  ∧ (traverse <$> rotate 3 s) = Some [2; 3; 1].
Proof.
  split; [apply ds_example_reachable|].
  split_and!; try by vm_compute.
  apply reach_update; [apply ds_1_2_3_reachable|solve_int].
Qed.

(** With the counter at the number of elements the example would give the
    3 1 7 of its comment. *)
Example rotate_example_when_counted :
  (traverse <$> rotate 1 (mkDS (nodes ds_example) 3 (locs ds_example) (mode ds_example)
                               (allVals ds_example) (median ds_example)
                               (random ds_example)))
  = Some [3; 1; 7].
Proof. by vm_compute. Qed.

(** Where the counter is the number of nodes, [rotate] is the right rotation
    by [k] modulo the size and touches nothing but the order. *)
Lemma rotate_when_counted k s :
  sz s = length (nodes s) →
  let n := length (nodes s) in
  ∃ s', rotate k s = Some s'
        ∧ traverse s' = drop (n - k mod n) (traverse s) ++ take (n - k mod n) (traverse s)
        ∧ (n = 0%nat ∨ (k mod n = 0)%nat → s' = s)
        ∧ sz s' = sz s ∧ locs s' = locs s ∧ mode s' = mode s
        ∧ allVals s' = allVals s ∧ median s' = median s ∧ random s' = random s.
Proof.
  intros Hsz n. unfold rotate, traverse. rewrite Hsz. fold n.
  destruct (decide (n = 0%nat)) as [Hn|Hn].
  { exists s. split_and!; try done.
    assert (E : nodes s = []) by (by apply length_zero_iff_nil).
    rewrite E. simpl. by rewrite drop_nil, take_nil. }
  destruct (decide ((k mod n)%nat = 0%nat)) as [Hk|Hk].
  { exists s. rewrite Hk, Nat.sub_0_r. split_and!; try done.
    unfold n. rewrite <- (length_fmap val), drop_all, firstn_all. done. }
  pose proof (Nat.mod_upper_bound k n Hn) as Hr.
  set (r := (k mod n)%nat) in *. clearbody r.
  replace (S (n - r - 1)) with (n - r)%nat by lia.
  rewrite decide_True by (unfold n; lia).
  eexists. split; [done|]. simpl. rewrite fmap_app, fmap_drop, fmap_take.
  split_and!; try done. intros [?|?]; lia.
Qed.

(** * Further properties of the operations

    The theorems of this part are about an object that is a list of its own
    and name what they assume of it: [Inv] (the indices describe the list and
    the counter is not below the number of nodes), or less. *)

(** ** The operations keep the list and its indices in step *)

Lemma split_returns k s :
  (sz s ≤ k ∨ k = 0 ∨ k < length (nodes s))%nat → ∃ l r, split k s = Some (l, r).
Proof.
  intros Hk. unfold split. destruct (sz s <=? k)%nat eqn:E; [by eexists _, _|].
  apply Nat.leb_gt in E.
  destruct (decide (k = 0%nat)) as [->|Hk0].
  - unfold merge. rewrite decide_False by lia. simpl. by eexists _, _.
  - rewrite decide_True by lia. by eexists _, _.
Qed.

(** X23: every call made on an object that is a list of its own and whose
    indices agree with it ([Inv]) and whose counter is in range leaves such an
    object, and so are the two objects of [merge] and of [split] when the call
    returns; [split] returns for every [k] but those between the number of
    nodes and the counter. *)
Theorem operations_keep_invariant s :
  Inv s → Z.of_nat (sz s) + Z.of_nat (length (nodes s)) < VEC_MAX →
  (∀ x p, fresh p s → Inv (pushBack x p s) ∧ Inv (pushFront x p s))
  ∧ (Inv (popBack s) ∧ Inv (popFront s))
  ∧ (∀ pick x, Inv (deleteVal pick x s).2)
  ∧ (∀ pick a b, Inv (update pick a b s).2)
  ∧ Inv (reverse_ s)
  ∧ (∀ k s', rotate k s = Some s' → Inv s')
  ∧ Inv (removeDuplicates s)
  ∧ (Inv (sortAscending s) ∧ Inv (sortDescending s))
  ∧ (Inv (nextPermutation s).2 ∧ Inv (prevPermutation s).2)
  ∧ (∀ k, (sz s ≤ k ∨ k = 0 ∨ k < length (nodes s))%nat →
          ∃ l r, split k s = Some (l, r) ∧ Inv l ∧ Inv r)
  ∧ (∀ o s' o', Inv o → (∀ p, p ∈ addr <$> nodes s → p ∉ addr <$> nodes o) →
                Z.of_nat (sz s) + Z.of_nat (sz o) <= VEC_MAX →
                merge s o = Some (s', o') → Inv s' ∧ Inv o')
  ∧ Inv (clear s).
Proof.
  intros HI _.
  split. { intros x p Hp. split; [by apply Inv_pushBack|by apply Inv_pushFront]. }
  split. { split; [by apply Inv_popBack|by apply Inv_popFront]. }
  split. { intros. by apply Inv_deleteVal. }
  split. { intros. by apply Inv_update. }
  split. { by apply Inv_reverse. }
  split. { intros k s' E. by eapply Inv_rotate. }
  split. { by apply Inv_removeDuplicates. }
  split. { split; [by apply Inv_sortAscending|by apply Inv_sortDescending]. }
  split. { split; [by apply Inv_nextPermutation|by apply Inv_prevPermutation]. }
  split.
  { intros k Hk. destruct (split_returns k s Hk) as (l & r & E).
    exists l, r. split; [done|]. by eapply Inv_split. }
  split. { intros o s' o' Ho Hd _ E. by eapply (Inv_merge s o). }
  apply Inv_empty.
Qed.

Lemma operations_keep_invariant_witness :
  Inv ds_example ∧ Z.of_nat (sz ds_example) + Z.of_nat (length (nodes ds_example)) < VEC_MAX
  ∧ Inv (removeDuplicates ds_example)
  ∧ (Inv (sortAscending ds_example) ∧ Inv (sortDescending ds_example)).
Proof.
  assert (HI : Inv ds_example) by exact (reachable_Inv _ ds_example_reachable).
  assert (Hr : Z.of_nat (sz ds_example) + Z.of_nat (length (nodes ds_example)) < VEC_MAX)
    by (by vm_compute).
  split; [exact HI|]. split; [exact Hr|].
  destruct (operations_keep_invariant ds_example HI Hr)
    as (_ & _ & _ & _ & _ & _ & H7 & H8 & _).
  split; [exact H7|exact H8].
Defined.

(** ** Unlinking and overwriting one slot *)

Lemma detach_delete i n l :
  NoDup (addr <$> l) → l !! i = Some n → detach (addr n) l = delete i l.
Proof.
  revert i. induction l as [|m t IH]; intros i; simpl; [done|].
  intros [Hm Hnd]%NoDup_cons Hi. destruct i as [|i]; simpl in *.
  - injection Hi as ->. by rewrite decide_True.
  - rewrite decide_False; [by rewrite (IH i)|].
    intros E. apply Hm. rewrite E. apply list_elem_of_fmap_2.
    by eapply list_elem_of_lookup_2.
Qed.

Lemma set_val_insert i n v l :
  NoDup (addr <$> l) → l !! i = Some n →
  set_val (addr n) v l = <[i := mkNode (addr n) v]> l.
Proof.
  revert i. induction l as [|m t IH]; intros i; simpl; [done|].
  intros [Hm Hnd]%NoDup_cons Hi. destruct i as [|i]; simpl in *.
  - injection Hi as ->. rewrite decide_True by done. f_equal.
    change (set_val (addr n) v t = t).
    unfold set_val. rewrite <- (list_fmap_id t) at 2. apply list_fmap_ext.
    intros j k Hk. simpl. rewrite decide_False; [done|].
    intros E. apply Hm. rewrite <- E. apply list_elem_of_fmap_2.
    by eapply list_elem_of_lookup_2.
  - rewrite decide_False.
    + f_equal. by apply IH.
    + intros E. apply Hm. rewrite E. apply list_elem_of_fmap_2.
      by eapply list_elem_of_lookup_2.
Qed.

Lemma absent_no_slot s x set :
  Inv s → x ∉ traverse s → locs s !! x = Some set → set = [].
Proof.
  intros (_ & (Hl & _) & _) Hx E. destruct set as [|p t]; [done|].
  exfalso. apply Hx. apply list_elem_of_fmap. exists (mkNode p x). split; [done|].
  apply Hl. rewrite E. by left.
Qed.

Lemma present_slot s x :
  Inv s → x ∈ traverse s →
  ∃ set, locs s !! x = Some set ∧ (0 < length set)%nat.
Proof.
  intros (_ & (Hl & _) & _) (n & -> & Hn)%list_elem_of_fmap.
  assert (Hp : addr n ∈ default [] (locs s !! val n)).
  { apply Hl. by rewrite node_eta. }
  destruct (locs s !! val n) as [set|]; simpl in Hp; [|by apply elem_of_nil in Hp].
  exists set. split; [done|]. destruct set; [by apply elem_of_nil in Hp|simpl; lia].
Qed.

(** ** Popping *)

(** X2: on a container that is a list of its own and whose indices agree with
    it ([Inv]) [popBack] takes out the last slot and [popFront] the first one,
    each counting [size()] down by one; on a container without slots both do
    nothing. *)
Theorem pop_removes_end s :
  Inv s →
  traverse (popBack s) = removelast (traverse s)
  ∧ traverse (popFront s) = tail (traverse s)
  ∧ (nodes s = [] → popBack s = s ∧ popFront s = s)
  ∧ (nodes s ≠ [] →
     sz (popBack s) = (sz s - 1)%nat ∧ sz (popFront s) = (sz s - 1)%nat
     ∧ (0 < sz s)%nat).
Proof.
  intros (Hnd & _ & Hsz).
  unfold popBack, popFront, traverse.
  remember (nodes s) as l eqn:E. symmetry in E.
  destruct l as [|n l _] using rev_ind.
  { simpl. rewrite E. split_and!; try done. }
  rewrite last_snoc.
  assert (Hd : detach (addr n) (l ++ [n]) = l).
  { rewrite (detach_delete (length l) n (l ++ [n]));
      [|done|by rewrite list_lookup_middle].
    clear. induction l; simpl; [done|by f_equal]. }
  split_and!.
  - simpl. rewrite Hd, fmap_app. simpl. by rewrite removelast_last.
  - destruct l as [|m l]; simpl; by rewrite decide_True.
  - intros H. by destruct l.
  - intros _. rewrite length_app in Hsz. simpl in Hsz.
    split_and!; [done|by destruct l|lia].
Qed.

Lemma pop_removes_end_witness :
  Inv ds_5_3_1_2 ∧
  traverse (popBack ds_5_3_1_2) = removelast (traverse ds_5_3_1_2)
  ∧ traverse (popFront ds_5_3_1_2) = tail (traverse ds_5_3_1_2)
  ∧ (nodes ds_5_3_1_2 = [] → popBack ds_5_3_1_2 = ds_5_3_1_2 ∧ popFront ds_5_3_1_2 = ds_5_3_1_2)
  ∧ (nodes ds_5_3_1_2 ≠ [] →
     sz (popBack ds_5_3_1_2) = (sz ds_5_3_1_2 - 1)%nat
     ∧ sz (popFront ds_5_3_1_2) = (sz ds_5_3_1_2 - 1)%nat
     ∧ (0 < sz ds_5_3_1_2)%nat).
Proof.
  assert (HI : Inv ds_5_3_1_2) by exact (reachable_Inv _ ds_5_3_1_2_reachable).
  split; [exact HI|].
  apply (pop_removes_end ds_5_3_1_2 HI).
Defined.

(** ** The indices are a function of the stored values *)

Lemma indices_determined s t :
  Inv s → Inv t → traverse s ≡ₚ traverse t →
  freq (mode s) = freq (mode t)
  ∧ modeCnt (mode s) = modeCnt (mode t)
  ∧ (nodes s ≠ [] → modeVal (mode s) = modeVal (mode t))
  ∧ allVals s = allVals t
  ∧ median s = median t.
Proof.
  intros (_ & (_ & Hms & [Has Hap] & (Hss & Hsp & Hsb) & _) & _)
         (_ & (_ & Hmt & [Hat Htp] & (Hst & Htp' & Htb) & _) & _) E.
  fold (traverse s) in *. fold (traverse t) in *.
  destruct Hms as (Hfs & Hcs & Hes & Hns). destruct Hmt as (Hft & Hct & Het & Hnt).
  assert (Hcnt : ∀ x, cnt x (traverse s) = cnt x (traverse t))
    by (intros x; by apply cnt_perm).
  assert (Hnil : nodes s = [] → modeCnt (mode s) = modeCnt (mode t)).
  { intros E0. assert (E1 : traverse s = []) by (unfold traverse; by rewrite E0).
    rewrite Hes by done. rewrite Het; [done|].
    apply Permutation_nil. by rewrite <- E, E1. }
  assert (Hcons : nodes s ≠ [] →
    modeCnt (mode s) = modeCnt (mode t) ∧ modeVal (mode s) = modeVal (mode t)).
  { intros Hne.
    assert (N1 : traverse s ≠ []) by (unfold traverse; by destruct (nodes s)).
    assert (N2 : traverse t ≠ []).
    { intros E2. rewrite E2 in E. by apply Permutation_nil_r in E. }
    destruct (Hns N1) as [Hs1 Hs2]. destruct (Hnt N2) as [Ht1 Ht2].
    assert (Hc : modeCnt (mode s) = modeCnt (mode t)).
    { pose proof (Hcs (modeVal (mode t))). pose proof (Hct (modeVal (mode s))).
      rewrite <- Hcnt in Ht1. rewrite Hcnt in Hs1. lia. }
    split; [done|].
    assert (modeVal (mode s) <= modeVal (mode t)).
    { apply Hs2. rewrite Hcnt. lia. }
    assert (modeVal (mode t) <= modeVal (mode s)).
    { apply Ht2. rewrite <- Hcnt. lia. }
    lia. }
  split_and!.
  - apply map_eq. intros x. by rewrite Hfs, Hft, Hcnt.
  - destruct (decide (nodes s = [])); [by apply Hnil|by apply Hcons].
  - apply Hcons.
  - apply (StronglySorted_unique Z.le); [done..|]. by rewrite Hap, Htp.
  - assert (Happ : lower (median s) ++ upper (median s)
                   = lower (median t) ++ upper (median t)).
    { apply (StronglySorted_unique Z.le); [done..|]. by rewrite Hsp, Htp'. }
    assert (Hlen : length (lower (median s)) = length (lower (median t))).
    { apply (f_equal length) in Happ. rewrite !length_app in Happ. lia. }
    destruct (median s) as [ls us], (median t) as [lt ut]. simpl in *.
    apply app_inj_1 in Happ as [-> ->]; done.
Qed.

Lemma indices_same_answers s t :
  Inv s → Inv t → traverse s ≡ₚ traverse t → same_answers s t.
Proof.
  intros Hs Ht E.
  destruct (indices_determined s t Hs Ht E) as (Hf & Hc & Hv & Ha & Hm).
  unfold same_answers, getMin, getMax, getMode, getFrequency, contains, getMedian.
  rewrite Hf, Hc, Ha, Hm. split_and!; try done.
  - destruct (modeCnt (mode t) =? 0) eqn:E0; [done|]. apply Hv.
    intros En. destruct Hs as (_ & (_ & (_ & _ & He & _) & _) & _).
    rewrite En in He. specialize (He eq_refl). lia.
  - intros H1 H2. by rewrite !decide_False.
Qed.

(** X3: two containers that are lists of their own and whose indices agree
    with them ([Inv]) and that store the same values, in whatever order and
    with whatever counters, answer [getMin], [getMax], [getMode],
    [getFrequency] and [contains] alike, and [getMedian] too when neither
    [size()] is 0. *)
Theorem queries_depend_on_values_only s t :
  Inv s → Inv t → traverse s ≡ₚ traverse t → same_answers s t.
Proof. apply indices_same_answers. Qed.

Lemma queries_depend_on_values_only_witness :
  same_answers (sortDescending ds_5_3_1_2) ds_5_3_1_2.
Proof.
  assert (HI : Inv ds_5_3_1_2) by exact (reachable_Inv _ ds_5_3_1_2_reachable).
  apply (queries_depend_on_values_only (sortDescending ds_5_3_1_2) ds_5_3_1_2).
  - by apply Inv_sortDescending.
  - exact HI.
  - apply sort_correct; [vm_compute; lia|by vm_compute].
Defined.

(** ** Push then pop *)

Lemma detach_snoc_fresh p x l :
  p ∉ addr <$> l → detach p (l ++ [mkNode p x]) = l.
Proof.
  induction l as [|n t IH]; simpl; [by rewrite decide_True|].
  intros [Hn Ht]%not_elem_of_cons.
  rewrite decide_False by done. by rewrite IH.
Qed.

(** X4: on a container that is a list of its own and whose indices agree with
    it ([Inv]), [pushBack(x)] followed by [popBack()], and [pushFront(x)]
    followed by [popFront()], give back the sequence and [size()], and every
    value query answers as before. *)
Theorem push_pop_round_trip x p s :
  Inv s → fresh p s →
  let s1 := popBack (pushBack x p s) in
  let s2 := popFront (pushFront x p s) in
  (traverse s1 = traverse s ∧ size s1 = size s ∧ same_answers s1 s)
  ∧ (traverse s2 = traverse s ∧ size s2 = size s ∧ same_answers s2 s).
Proof.
  intros HI Hf.
  assert (H1 : nodes (popBack (pushBack x p s)) = nodes s).
  { unfold popBack, pushBack, attachBack. cbn [nodes addValueStructures addIndices with_nodes].
    rewrite last_snoc. cbn [nodes removeValueStructures with_nodes addr].
    by apply detach_snoc_fresh. }
  assert (H2 : nodes (popFront (pushFront x p s)) = nodes s).
  { unfold popFront, pushFront, attachFront. cbn [nodes addValueStructures addIndices with_nodes].
    cbn [nodes removeValueStructures with_nodes addr detach]. by rewrite decide_True. }
  assert (Z1 : sz (popBack (pushBack x p s)) = sz s).
  { unfold popBack, pushBack, attachBack. cbn [nodes addValueStructures addIndices with_nodes].
    rewrite last_snoc. simpl. lia. }
  assert (Z2 : sz (popFront (pushFront x p s)) = sz s).
  { unfold popFront, pushFront, attachFront. simpl. lia. }
  cbv zeta. unfold traverse, size. rewrite H1, H2. split_and!; try done.
  - apply indices_same_answers; [by apply Inv_popBack, Inv_pushBack|done|].
    unfold traverse. by rewrite H1.
  - apply indices_same_answers; [by apply Inv_popFront, Inv_pushFront|done|].
    unfold traverse. by rewrite H2.
Qed.

Lemma push_pop_round_trip_witness :
  let s1 := popBack (pushBack 7 9%positive ds_5_3_1_2) in
  let s2 := popFront (pushFront 7 9%positive ds_5_3_1_2) in
  (traverse s1 = traverse ds_5_3_1_2 ∧ size s1 = size ds_5_3_1_2 ∧ same_answers s1 ds_5_3_1_2)
  ∧ (traverse s2 = traverse ds_5_3_1_2 ∧ size s2 = size ds_5_3_1_2 ∧ same_answers s2 ds_5_3_1_2).
Proof.
  apply (push_pop_round_trip 7 9%positive ds_5_3_1_2).
  - exact (reachable_Inv _ ds_5_3_1_2_reachable).
  - apply (bool_decide_unpack _). vm_compute. exact I.
Defined.

(** ** Frequency and membership *)



(** ** Minimum and maximum *)

(** X6: on a non-empty container that is a list of its own and whose indices
    agree with it ([Inv]) [getMin] is a stored value that no stored value is
    below, and [getMax] one that no stored value is above. *)
Theorem getMin_getMax_correct s :
  Inv s → nodes s ≠ [] →
  (getMin s ∈ traverse s ∧ ∀ v, v ∈ traverse s → getMin s <= v)
  ∧ (getMax s ∈ traverse s ∧ ∀ v, v ∈ traverse s → v <= getMax s).
Proof.
  intros (_ & (_ & _ & [Hs Hp] & _) & _) Hne.
  fold (traverse s) in Hp.
  assert (Ha : allVals s ≠ []).
  { intros E. rewrite E in Hp. apply Permutation_nil in Hp.
    unfold traverse in Hp. by destruct (nodes s). }
  unfold getMin, getMax. split.
  - destruct (allVals s) as [|x t] eqn:E; [done|].
    split; [rewrite <- Hp; by left|].
    intros v Hv. rewrite <- Hp in Hv. by eapply SS_head_min.
  - destruct (last (allVals s)) as [m|] eqn:E; [|by apply last_None in E].
    split; [rewrite <- Hp; by apply last_Some_elem_of|].
    intros v Hv. rewrite <- Hp in Hv. by eapply SS_last_max.
Qed.

Lemma getMin_getMax_correct_witness :
  Inv ds_5_3_1_2 ∧ nodes ds_5_3_1_2 ≠ [] ∧
  (getMin ds_5_3_1_2 ∈ traverse ds_5_3_1_2
   ∧ ∀ v, v ∈ traverse ds_5_3_1_2 → getMin ds_5_3_1_2 <= v)
  ∧ (getMax ds_5_3_1_2 ∈ traverse ds_5_3_1_2
     ∧ ∀ v, v ∈ traverse ds_5_3_1_2 → v <= getMax ds_5_3_1_2).
Proof.
  assert (HI : Inv ds_5_3_1_2) by exact (reachable_Inv _ ds_5_3_1_2_reachable).
  split; [exact HI|]. split; [by vm_compute|].
  apply (getMin_getMax_correct ds_5_3_1_2); [exact HI|by vm_compute].
Defined.

(** ** Deleting one occurrence *)

(** X7: on a container that is a list of its own and whose indices agree with
    it ([Inv]) [deleteVal(x)] returns [false] and changes nothing when [x] is
    not stored; when [x] is stored it returns [true], takes out one slot that
    holds [x], whichever node the location set hands out, keeps every other
    slot in its place and order, and counts [size()] down by one. *)
Theorem deleteVal_removes_one_occurrence pick x s :
  Inv s →
  (x ∉ traverse s → deleteVal pick x s = (false, s))
  ∧ (x ∈ traverse s →
     ∃ i, traverse s !! i = Some x
          ∧ (deleteVal pick x s).1 = true
          ∧ traverse (deleteVal pick x s).2 = delete i (traverse s)
          ∧ sz (deleteVal pick x s).2 = (sz s - 1)%nat
          ∧ (0 < sz s)%nat).
Proof.
  intros HI. split; intros Hx; unfold deleteVal.
  - destruct (locs s !! x) as [set|] eqn:E; [|done].
    by rewrite (absent_no_slot s x set HI Hx E).
  - destruct (present_slot s x HI Hx) as (set & E & Hlen). rewrite E.
    destruct (set !! (pick mod length set)%nat) as [p|] eqn:Ep.
    2:{ apply lookup_ge_None in Ep.
        pose proof (Nat.mod_upper_bound pick (length set)). lia. }
    pose proof (locs_pick s x set _ p HI E Ep) as Hin.
    apply list_elem_of_lookup_1 in Hin as [i Hi].
    exists i. simpl. split_and!; [|done| |done|].
    + unfold traverse. by rewrite list_lookup_fmap, Hi.
    + unfold traverse. simpl.
      pose proof (detach_delete i (mkNode p x) (nodes s) (proj1 HI) Hi) as Hd.
      simpl in Hd. rewrite Hd. by rewrite list_fmap_delete.
    + destruct HI as (_ & _ & Hsz). apply lookup_lt_Some in Hi. lia.
Qed.

Lemma deleteVal_removes_one_occurrence_witness :
  Inv ds_5_3_1_2 ∧
  (3 ∉ traverse ds_5_3_1_2 → deleteVal 0 3 ds_5_3_1_2 = (false, ds_5_3_1_2))
  ∧ (3 ∈ traverse ds_5_3_1_2 →
     ∃ i, traverse ds_5_3_1_2 !! i = Some 3
          ∧ (deleteVal 0 3 ds_5_3_1_2).1 = true
          ∧ traverse (deleteVal 0 3 ds_5_3_1_2).2 = delete i (traverse ds_5_3_1_2)
          ∧ sz (deleteVal 0 3 ds_5_3_1_2).2 = (sz ds_5_3_1_2 - 1)%nat
          ∧ (0 < sz ds_5_3_1_2)%nat).
Proof.
  assert (HI : Inv ds_5_3_1_2) by exact (reachable_Inv _ ds_5_3_1_2_reachable).
  split; [exact HI|].
  apply (deleteVal_removes_one_occurrence 0 3 ds_5_3_1_2 HI).
Defined.

(** ** Updating one occurrence *)

(** X8: on a container that is a list of its own and whose indices agree with
    it ([Inv]) [update(a, b)] returns [false] and changes nothing when [a] is
    not stored; when [a] is stored it returns [true] and writes [b] into one
    slot that held [a], every other slot keeping its value and its place. *)
Theorem update_overwrites_one_occurrence pick a b s :
  Inv s →
  (a ∉ traverse s → update pick a b s = (false, s))
  ∧ (a ∈ traverse s →
     ∃ i, traverse s !! i = Some a
          ∧ (update pick a b s).1 = true
          ∧ traverse (update pick a b s).2 = <[i := b]> (traverse s)).
Proof.
  intros HI. split; intros Hx; unfold update.
  - destruct (locs s !! a) as [set|] eqn:E; [|done].
    by rewrite (absent_no_slot s a set HI Hx E).
  - destruct (present_slot s a HI Hx) as (set & E & Hlen). rewrite E.
    destruct (set !! (pick mod length set)%nat) as [p|] eqn:Ep.
    2:{ apply lookup_ge_None in Ep.
        pose proof (Nat.mod_upper_bound pick (length set)). lia. }
    pose proof (locs_pick s a set _ p HI E Ep) as Hin.
    apply list_elem_of_lookup_1 in Hin as [i Hi].
    exists i. simpl. split_and!; [|done|].
    + unfold traverse. by rewrite list_lookup_fmap, Hi.
    + unfold traverse. simpl.
      pose proof (set_val_insert i (mkNode p a) b (nodes s) (proj1 HI) Hi) as Hd.
      simpl in Hd. rewrite Hd. by rewrite list_fmap_insert.
Qed.

Lemma update_overwrites_one_occurrence_witness :
  Inv ds_5_3_1_2 ∧
  (3 ∉ traverse ds_5_3_1_2 → update 0 3 7 ds_5_3_1_2 = (false, ds_5_3_1_2))
  ∧ (3 ∈ traverse ds_5_3_1_2 →
     ∃ i, traverse ds_5_3_1_2 !! i = Some 3
          ∧ (update 0 3 7 ds_5_3_1_2).1 = true
          ∧ traverse (update 0 3 7 ds_5_3_1_2).2 = <[i := 7]> (traverse ds_5_3_1_2)).
Proof.
  assert (HI : Inv ds_5_3_1_2) by exact (reachable_Inv _ ds_5_3_1_2_reachable).
  split; [exact HI|].
  apply (update_overwrites_one_occurrence 0 3 7 ds_5_3_1_2 HI).
Defined.

(** ** Reading by rank *)



(** ** The size counter and the empty container *)



(** ** The distinct values *)

(** X13: on a container that is a list of its own and whose indices agree with
    it ([Inv]) [uniqueElements()] lists each stored value once and nothing
    else. *)
Theorem uniqueElements_distinct_values s :
  Inv s →
  NoDup (uniqueElements s) ∧ ∀ x, x ∈ uniqueElements s ↔ x ∈ traverse s.
Proof.
  intros (_ & (_ & (Hf & _) & _) & _). fold (traverse s) in Hf.
  unfold uniqueElements. split; [apply NoDup_fst_map_to_list|].
  intros x. rewrite list_elem_of_fmap. split.
  - intros ([k n] & -> & Hk%elem_of_map_to_list). simpl in *.
    rewrite Hf in Hk. destruct (decide (cnt k (traverse s) = 0)); [done|].
    apply cnt_pos. pose proof (cnt_nonneg k (traverse s)). lia.
  - intros Hx%cnt_pos. exists (x, cnt x (traverse s)). split; [done|].
    apply elem_of_map_to_list. rewrite Hf. rewrite decide_False by lia. done.
Qed.

Lemma uniqueElements_distinct_values_witness :
  Inv ds_example ∧
  NoDup (uniqueElements ds_example)
  ∧ ∀ x, x ∈ uniqueElements ds_example ↔ x ∈ traverse ds_example.
Proof.
  assert (HI : Inv ds_example) by exact (reachable_Inv _ ds_example_reachable).
  split; [exact HI|].
  apply (uniqueElements_distinct_values ds_example HI).
Defined.

(** ** Removing duplicates *)

Lemma keep_first_elem x l : ∀ seen,
  x ∈ keep_first seen l ↔ x ∈ l ∧ x ∉ seen.
Proof.
  induction l as [|y t IH]; intros seen; simpl.
  - split; [by intros ?%elem_of_nil|by intros [?%elem_of_nil _]].
  - case_bool_decide as Hy.
    + rewrite IH, elem_of_cons. split; [naive_solver|].
      intros [[->|?] ?]; [done|by split].
    + rewrite !elem_of_cons, IH, not_elem_of_cons.
      split; [intros [->|(? & ? & ?)]; [by split; [left|]|by split; [right|]]|].
      intros [[->|Ht] Hs]; [by left|].
      destruct (decide (x = y)) as [->|Hne]; [by left|by right].
Qed.

Lemma keep_first_NoDup l : ∀ seen, NoDup (keep_first seen l).
Proof.
  induction l as [|y t IH]; intros seen; simpl; [constructor|].
  case_bool_decide; [apply IH|].
  apply NoDup_cons. split; [|apply IH].
  rewrite keep_first_elem, not_elem_of_cons. naive_solver.
Qed.

Lemma keep_first_sublist l : ∀ seen, keep_first seen l `sublist_of` l.
Proof.
  induction l as [|y t IH]; intros seen; simpl; [done|].
  case_bool_decide; [by apply sublist_cons|by apply sublist_skip].
Qed.

Lemma keep_first_id l : ∀ seen,
  NoDup l → (∀ x, x ∈ l → x ∉ seen) → keep_first seen l = l.
Proof.
  induction l as [|y t IH]; intros seen; simpl; [done|].
  intros [Hy Ht]%NoDup_cons Hs.
  rewrite bool_decide_eq_false_2 by (apply Hs; by left).
  f_equal. apply IH; [done|]. intros x Hx. apply not_elem_of_cons. split.
  - intros ->. done.
  - apply Hs. by right.
Qed.

Lemma dedup_fold_traverse rest : ∀ st seen kept,
  nodes st = kept ++ rest → NoDup (addr <$> kept ++ rest) →
  traverse (foldl dedup_step (st, seen) rest).1
  = (val <$> kept) ++ keep_first seen (val <$> rest).
Proof.
  induction rest as [|n t IH]; intros st seen kept Hn Hnd; simpl.
  - unfold traverse. by rewrite Hn, !app_nil_r.
  - case_bool_decide as Hs.
    + apply IH; simpl.
      * rewrite Hn. rewrite (detach_delete (length kept) n); [|done|].
        -- clear. induction kept; simpl; [done|by f_equal].
        -- by rewrite list_lookup_middle.
      * eapply sublist_NoDup; [exact Hnd|]. apply fmap_sublist.
        apply sublist_app; [done|by apply sublist_cons].
    + rewrite (IH st (val n :: seen) (kept ++ [n])).
      * by rewrite fmap_app, <- app_assoc.
      * by rewrite <- app_assoc.
      * by rewrite <- app_assoc.
Qed.

(** X14: on a container that is a list of its own and whose indices agree with
    it ([Inv]) [removeDuplicates()] leaves the first slot of every stored
    value and takes out the later ones: what stays is in its old order, holds
    every stored value once, and a container without repeated values keeps its
    sequence. *)
Theorem removeDuplicates_keeps_first_occurrences s :
  Inv s →
  traverse (removeDuplicates s) = keep_first [] (traverse s)
  ∧ NoDup (traverse (removeDuplicates s))
  ∧ traverse (removeDuplicates s) `sublist_of` traverse s
  ∧ (∀ x, x ∈ traverse (removeDuplicates s) ↔ x ∈ traverse s)
  ∧ (NoDup (traverse s) → traverse (removeDuplicates s) = traverse s).
Proof.
  intros (Hnd & _).
  assert (E : traverse (removeDuplicates s) = keep_first [] (traverse s)).
  { unfold removeDuplicates. by rewrite (dedup_fold_traverse (nodes s) s [] []). }
  rewrite E. split_and!.
  - done.
  - apply keep_first_NoDup.
  - apply keep_first_sublist.
  - intros x. rewrite keep_first_elem. split; [by intros [? _]|].
    intros Hx. split; [done|]. by intros ?%elem_of_nil.
  - intros H. apply keep_first_id; [done|]. by intros x _ ?%elem_of_nil.
Qed.

Lemma removeDuplicates_keeps_first_occurrences_witness :
  let s := pushBack 5 6%positive (pushBack 3 5%positive ds_5_3_1_2) in
  Inv s ∧
  traverse (removeDuplicates s) = keep_first [] (traverse s)
  ∧ NoDup (traverse (removeDuplicates s))
  ∧ traverse (removeDuplicates s) `sublist_of` traverse s
  ∧ (∀ x, x ∈ traverse (removeDuplicates s) ↔ x ∈ traverse s)
  ∧ (NoDup (traverse s) → traverse (removeDuplicates s) = traverse s).
Proof.
  assert (HI : Inv (pushBack 5 6%positive (pushBack 3 5%positive ds_5_3_1_2))).
  { apply Inv_pushBack; [apply Inv_pushBack|].
    - exact (reachable_Inv _ ds_5_3_1_2_reachable).
    - apply (bool_decide_unpack _). vm_compute. exact I.
    - apply (bool_decide_unpack _). vm_compute. exact I. }
  split; [exact HI|].
  apply (removeDuplicates_keeps_first_occurrences _ HI).
Defined.

(** ** Sorting and the extreme values *)

Lemma merge_sort_eq (a b : list Z) : a ≡ₚ b → merge_sort Z.le a = merge_sort Z.le b.
Proof.
  intros E. apply (StronglySorted_unique Z.le);
    [apply StronglySorted_merge_sort; apply _..|].
  by rewrite !merge_sort_Permutation.
Qed.

Lemma merge_sort_short (a : list Z) : (length a ≤ 1)%nat → merge_sort Z.le a = a.
Proof.
  intros H. apply (StronglySorted_unique Z.le).
  - apply StronglySorted_merge_sort; apply _.
  - destruct a as [|x [|y a]]; simpl in *; [repeat constructor..|lia].
  - apply merge_sort_Permutation.
Qed.

Lemma sort_traverse s :
  Inv s →
  traverse (sortAscending s) = merge_sort Z.le (traverse s)
  ∧ traverse (sortDescending s) = reverse (merge_sort Z.le (traverse s)).
Proof.
  intros (_ & _ & Hsz). unfold sortAscending, sortDescending.
  destruct (Nat.leb_spec (sz s) 1) as [Hle|Hgt].
  - assert (Hl : (length (traverse s) ≤ 1)%nat).
    { unfold traverse. rewrite length_fmap. lia. }
    rewrite merge_sort_short by done. split; [done|].
    destruct (traverse s) as [|x [|y a]]; simpl in *; [done|done|lia].
  - split.
    + destruct (rewrite_traverse (sort_asc (traverse s)) s) as [-> _]; [|done].
      rewrite sort_asc_length. unfold traverse. by rewrite length_fmap.
    + destruct (rewrite_traverse (sort_desc (traverse s)) s) as [-> _].
      * rewrite sort_desc_perm. unfold traverse. by rewrite length_fmap.
      * unfold sort_desc. f_equal. apply merge_sort_eq, reverse_Permutation.
Qed.

Lemma front_back_traverse s :
  front s = default INT_MIN (head (traverse s))
  ∧ back s = default INT_MIN (last (traverse s)).
Proof.
  unfold front, back, traverse. split; [by destruct (nodes s)|].
  rewrite fmap_last. by destruct (last (nodes s)).
Qed.

(** X15: on a container that is a list of its own and whose indices agree with
    it ([Inv]) and whose counter is in the range of a vector, the sequence
    after [sortDescending()] is the one after [sortAscending()] read
    backwards; when something is stored, the front after [sortAscending()] is
    [getMin()] and the back is [getMax()], and after [sortDescending()] it is
    the other way round. *)
Theorem sorted_ends_are_min_and_max s :
  Inv s → Z.of_nat (sz s) <= VEC_MAX →
  traverse (sortDescending s) = reverse (traverse (sortAscending s))
  ∧ (nodes s ≠ [] →
     front (sortAscending s) = getMin s ∧ back (sortAscending s) = getMax s
     ∧ front (sortDescending s) = getMax s ∧ back (sortDescending s) = getMin s).
Proof.
  intros HI _.
  destruct (sort_traverse s HI) as [Ea Ed].
  split; [by rewrite Ea, Ed|]. intros Hne.
  destruct (front_back_traverse (sortAscending s)) as [-> ->].
  destruct (front_back_traverse (sortDescending s)) as [-> ->].
  rewrite Ea, Ed, head_reverse, last_reverse.
  destruct HI as (_ & (_ & _ & [Hs Hp] & _) & _). fold (traverse s) in Hp.
  assert (E : merge_sort Z.le (traverse s) = allVals s).
  { apply (StronglySorted_unique Z.le);
      [apply StronglySorted_merge_sort; apply _|done|].
    by rewrite merge_sort_Permutation, Hp. }
  rewrite E. unfold getMin, getMax.
  assert (Ha : allVals s ≠ []).
  { intros E0. rewrite E0 in Hp. apply Permutation_nil in Hp.
    unfold traverse in Hp. by destruct (nodes s). }
  destruct (allVals s) as [|x t] eqn:Eq; [done|]. rewrite <- Eq.
  destruct (last (allVals s)) as [m|] eqn:El; [|apply last_None in El; congruence].
  by rewrite Eq.
Qed.

Lemma sorted_ends_are_min_and_max_witness :
  Inv ds_5_3_1_2 ∧ Z.of_nat (sz ds_5_3_1_2) <= VEC_MAX ∧ nodes ds_5_3_1_2 ≠ [] ∧
  traverse (sortDescending ds_5_3_1_2) = reverse (traverse (sortAscending ds_5_3_1_2))
  ∧ front (sortAscending ds_5_3_1_2) = getMin ds_5_3_1_2
  ∧ back (sortAscending ds_5_3_1_2) = getMax ds_5_3_1_2
  ∧ front (sortDescending ds_5_3_1_2) = getMax ds_5_3_1_2
  ∧ back (sortDescending ds_5_3_1_2) = getMin ds_5_3_1_2.
Proof.
  assert (HI : Inv ds_5_3_1_2) by exact (reachable_Inv _ ds_5_3_1_2_reachable).
  assert (Hr : Z.of_nat (sz ds_5_3_1_2) <= VEC_MAX) by (by vm_compute).
  assert (Hne : nodes ds_5_3_1_2 ≠ []) by (by vm_compute).
  split; [exact HI|]. split; [exact Hr|]. split; [exact Hne|].
  destruct (sorted_ends_are_min_and_max ds_5_3_1_2 HI Hr) as [H1 H2].
  split; [exact H1|exact (H2 Hne)].
Defined.

(** ** The permutation step undone *)

Section PermutationInverse.
Variable lt : Z → Z → bool.
Hypothesis lt_irrefl : ∀ x, lt x x = false.
Hypothesis lt_trans : ∀ x y z, lt x y = true → lt y z = true → lt x z = true.
Hypothesis lt_total : ∀ x y, lt x y = false → lt y x = false → x = y.

Lemma lexb_turned a c :
  length a = length c → lexb (λ x y, lt y x) a c = lexb lt c a.
Proof.
  revert c. induction a as [|x a IH]; intros [|y c]; try done.
  simpl. intros [= Hlen]. rewrite (IH c Hlen). f_equal. f_equal.
  apply bool_decide_ext. naive_solver.
Qed.

(** A successful step of the algorithm is undone by a step with the
    comparison turned round. *)
Lemma step_back a b :
  step_permutation lt a = (b, true) →
  step_permutation (λ x y, lt y x) b = (a, true).
Proof.
  intros E.
  destruct (step_true lt lt_irrefl lt_trans lt_total a b E) as (Hb & Hab & Himm).
  assert (gt_trans : ∀ x y z, lt y x = true → lt z y = true → lt z x = true)
    by (intros x y z H1 H2; by eapply lt_trans).
  assert (gt_total : ∀ x y, lt y x = false → lt x y = false → x = y)
    by (intros x y H1 H2; by apply lt_total).
  destruct (step_permutation (λ x y, lt y x) b) as [c ok] eqn:E'. destruct ok.
  - destruct (step_true (λ x y, lt y x) lt_irrefl gt_trans gt_total b c E')
      as (Hc & Hbc & Himm').
    assert (Hca : c ≡ₚ a) by (by rewrite Hc).
    rewrite lexb_turned in Hbc by (by rewrite Hc).
    f_equal. symmetry. apply (lexb_total lt lt_total); [by rewrite Hca| |].
    + destruct (lexb lt a c) eqn:Eac; [|done].
      by rewrite (Himm c Hca Eac) in Hbc.
    + specialize (Himm' a (symmetry Hb)).
      rewrite !lexb_turned in Himm' by (by rewrite ?Hb, ?Hca).
      by apply Himm'.
  - destruct (step_false (λ x y, lt y x) lt_irrefl gt_trans gt_total b c E')
      as (_ & _ & H).
    specialize (H a (symmetry Hb)). rewrite lexb_turned in H by (by rewrite Hb).
    by rewrite H in Hab.
Qed.
End PermutationInverse.

Lemma next_then_prev a b :
  next_permutation a = (b, true) → prev_permutation b = (a, true).
Proof. apply (step_back Z.ltb ltb_irrefl ltb_trans ltb_total). Qed.

Lemma prev_then_next a b :
  prev_permutation a = (b, true) → next_permutation b = (a, true).
Proof.
  intros E.
  exact (step_back (λ x y, y <? x) ltb_irrefl gtb_trans gtb_total a b E).
Qed.

Lemma prevPermutation_counted s :
  (length (nodes s) ≤ sz s)%nat →
  (length (nodes (prevPermutation s).2) ≤ sz (prevPermutation s).2)%nat.
Proof.
  intros Hsz. unfold prevPermutation. destruct (sz s <=? 1)%nat; [done|].
  destruct (prev_permutation (traverse s)) as [a ok]. simpl.
  destruct (rebuildAll_spec (with_nodes (write_back a (nodes s)) s)) as (-> & -> & _).
  simpl. lia.
Qed.

(** X16: on a container that is a list of its own and whose counter is not
    below the number of its nodes and stays in the range of a vector when the
    nodes are counted in once more, a [nextPermutation()] that returns [true]
    is undone by [prevPermutation()], which then returns [true] and gives back
    the sequence, and the other way round. *)
Theorem permutation_steps_are_inverse s :
  (length (nodes s) ≤ sz s)%nat →
  Z.of_nat (sz s) + Z.of_nat (length (nodes s)) <= VEC_MAX →
  ((nextPermutation s).1 = true →
   (prevPermutation (nextPermutation s).2).1 = true
   ∧ traverse (prevPermutation (nextPermutation s).2).2 = traverse s)
  ∧ ((prevPermutation s).1 = true →
     (nextPermutation (prevPermutation s).2).1 = true
     ∧ traverse (nextPermutation (prevPermutation s).2).2 = traverse s).
Proof.
  intros Hsz _. split; intros Hok.
  - pose proof (nextPermutation_traverse s Hsz) as E1.
    pose proof (prevPermutation_traverse _ (nextPermutation_counted s Hsz)) as E2.
    rewrite Hok in E1. symmetry in E1. apply next_then_prev in E1.
    rewrite E1 in E2. by injection E2 as -> ->.
  - pose proof (prevPermutation_traverse s Hsz) as E1.
    pose proof (nextPermutation_traverse _ (prevPermutation_counted s Hsz)) as E2.
    rewrite Hok in E1. symmetry in E1. apply prev_then_next in E1.
    rewrite E1 in E2. by injection E2 as -> ->.
Qed.

Lemma permutation_steps_are_inverse_witness :
  (length (nodes ds_1_2_3) ≤ sz ds_1_2_3)%nat
  ∧ Z.of_nat (sz ds_1_2_3) + Z.of_nat (length (nodes ds_1_2_3)) <= VEC_MAX
  ∧ (nextPermutation ds_1_2_3).1 = true
  ∧ (prevPermutation (nextPermutation ds_1_2_3).2).1 = true
  ∧ traverse (prevPermutation (nextPermutation ds_1_2_3).2).2 = traverse ds_1_2_3.
Proof.
  assert (H1 : (length (nodes ds_1_2_3) ≤ sz ds_1_2_3)%nat) by (vm_compute; lia).
  assert (H2 : Z.of_nat (sz ds_1_2_3) + Z.of_nat (length (nodes ds_1_2_3)) <= VEC_MAX)
    by (by vm_compute).
  split; [exact H1|]. split; [exact H2|]. split; [vm_compute; reflexivity|].
  apply (permutation_steps_are_inverse ds_1_2_3 H1 H2).
  vm_compute. reflexivity.
Defined.

(** ** Split and merge together *)

Lemma merge_into_empty o :
  sz o ≠ 0%nat →
  ∃ m, merge emptyDS o = Some (m, emptyDS) ∧ nodes m = nodes o ∧ sz m = sz o.
Proof.
  intros Ho. unfold merge. rewrite decide_False by done. simpl.
  eexists. split; [done|]. simpl.
  destruct (fold_addIndices_frame (nodes o)
              (mkDS (nodes o) (sz o) ∅ (mkMode ∅ 0 0) [] (mkMedian [] []) (mkPool [] ∅)))
    as [-> ->]. done.
Qed.

(** X17: on an object that is a list of its own, for every [k] but those from
    the number of nodes up to the counter ([split(k)] walks off the list
    between them, and at the number of nodes itself returns an object that is
    no list of its own), [split(k)] returns, and merging the part returned
    back into the part kept gives the sequence as it was before the split and
    leaves the part returned empty. *)
Theorem split_then_merge k s :
  (sz s ≤ k ∨ k = 0 ∨ k < length (nodes s))%nat →
  ∃ l r m, split k s = Some (l, r)
           ∧ merge l r = Some (m, emptyDS) ∧ traverse m = traverse s.
Proof.
  intros Hk. unfold split. destruct (Nat.leb_spec (sz s) k) as [Hle|Hgt].
  { by exists s, emptyDS, s. }
  destruct (decide (k = 0%nat)) as [->|Hk0].
  - destruct (merge_into_empty s) as (m & -> & Hn & Hz); [lia|]. simpl.
    destruct (merge_into_empty m) as (m' & Hm' & Hn' & _); [lia|].
    exists emptyDS, m, m'. split; [done|]. split; [done|].
    unfold traverse. by rewrite Hn', Hn.
  - rewrite decide_True by lia.
    assert (Hm : ∃ m,
      merge (rebuildAll (mkDS (take k (nodes s)) (length (take k (nodes s))) (locs s)
                              (mode s) (allVals s) (median s) (random s)))
            (rebuildAll (mkDS (drop k (nodes s)) (length (drop k (nodes s))) ∅
                              (mkMode ∅ 0 0) [] (mkMedian [] []) (mkPool [] ∅)))
      = Some (m, emptyDS) ∧ traverse m = traverse s).
    { unfold merge.
      destruct (rebuildAll_spec
        (mkDS (take k (nodes s)) (length (take k (nodes s))) (locs s) (mode s)
              (allVals s) (median s) (random s))) as (Hn1 & Hz1 & _).
      destruct (rebuildAll_spec
        (mkDS (drop k (nodes s)) (length (drop k (nodes s))) ∅ (mkMode ∅ 0 0) []
              (mkMedian [] []) (mkPool [] ∅))) as (Hn2 & Hz2 & _).
      simpl in Hn1, Hz1, Hn2, Hz2.
      assert (Ht : take k (nodes s) ≠ []).
      { intros E%(f_equal length). rewrite length_take in E. simpl in E. lia. }
      assert (Hd : drop k (nodes s) ≠ []).
      { intros E%(f_equal length). rewrite length_drop in E. simpl in E. lia. }
      rewrite decide_False.
      2:{ rewrite Hz2, length_drop. lia. }
      rewrite decide_False.
      2:{ rewrite Hz1, length_take. lia. }
      rewrite Hn1, Hn2.
      destruct (take k (nodes s)) as [|a ta] eqn:Et; [done|].
      destruct (drop k (nodes s)) as [|b tb] eqn:Ed; [done|].
      cbn [mbind option_bind].
      eexists. split; [done|]. unfold traverse. cbn [nodes].
      match goal with |- context [foldl ?f ?s0 ?l] =>
        destruct (fold_addIndices_frame l s0) as [Hf _] end.
      rewrite Hf. cbn [nodes]. by rewrite <- Et, <- Ed, take_drop. }
    destruct Hm as (m & Hm & Ht). by eexists _, _, m.
Qed.

Lemma split_then_merge_witness :
  (sz ds_5_3_1_2 ≤ 2 ∨ 2 = 0 ∨ 2 < length (nodes ds_5_3_1_2))%nat ∧
  ∃ l r m, split 2 ds_5_3_1_2 = Some (l, r)
           ∧ merge l r = Some (m, emptyDS) ∧ traverse m = traverse ds_5_3_1_2.
Proof.
  assert (H : (sz ds_5_3_1_2 ≤ 2 ∨ 2 = 0 ∨ 2 < length (nodes ds_5_3_1_2))%nat)
    by (right; right; vm_compute; lia).
  split; [exact H|].
  apply (split_then_merge 2 ds_5_3_1_2 H).
Defined.



(** ** The random pool holds every node *)

Lemma covers_add p r A A' :
  pool_covers r A → (∀ q, q ∈ A' → q = p ∨ q ∈ A) → pool_covers (poolAdd p r) A'.
Proof.
  intros H Hsub q [->|Hq]%Hsub; simpl.
  - rewrite lookup_insert_eq. by eexists.
  - destruct (decide (q = p)) as [->|Hne].
    + rewrite lookup_insert_eq. by eexists.
    + rewrite lookup_insert_ne by done. by apply H.
Qed.

Lemma covers_remove p r A A' :
  pool_covers r A → (∀ q, q ∈ A' → q ≠ p ∧ q ∈ A) → pool_covers (poolRemove p r) A'.
Proof.
  intros H Hsub q [Hne Hq]%Hsub. specialize (H q Hq).
  unfold poolRemove. destruct (poolPos r !! p) as [idx|]; [|done].
  destruct (decide (idx ≠ (length (pool r) - 1)%nat)); [|simpl; by rewrite lookup_delete_ne].
  destruct (pool r !! (length (pool r) - 1)%nat) as [q0|]; simpl;
    rewrite lookup_delete_ne by done; [|done].
  destruct (decide (q = q0)) as [->|Hq0].
  - rewrite lookup_insert_eq. by eexists.
  - by rewrite lookup_insert_ne.
Qed.

Lemma Covered_add_node x p s l' :
  Covered s → (∀ q, q ∈ addr <$> l' → q = p ∨ q ∈ addr <$> nodes s) →
  Covered (addValueStructures x p (with_nodes l' s)).
Proof. intros H Hsub. unfold Covered. simpl. by eapply covers_add. Qed.

Lemma Covered_remove_node x p s :
  Inv s → Covered s → mkNode p x ∈ nodes s →
  Covered (removeValueStructures x p (with_nodes (detach p (nodes s)) s)).
Proof.
  intros (Hnd & _) H Hin. unfold Covered. simpl.
  eapply covers_remove; [exact H|]. intros q Hq.
  pose proof (detach_perm p x _ Hnd Hin) as E.
  rewrite E in Hnd. simpl in Hnd. apply NoDup_cons in Hnd as [Hp _].
  split; [by intros ->|].
  eapply elem_of_sublist; [exact Hq|]. apply fmap_sublist, detach_sublist.
Qed.

Lemma fold_add_covers post : ∀ s0 A,
  pool_covers (random s0) A →
  pool_covers (random (foldl (λ st n, addValueStructures (val n) (addr n) st) s0 post))
              (A ++ (addr <$> post)).
Proof.
  induction post as [|n t IH]; intros s0 A H; simpl.
  - by rewrite app_nil_r.
  - rewrite cons_middle, app_assoc. apply IH. simpl.
    eapply covers_add; [exact H|]. intros q [Hq|Hq%list_elem_of_singleton]%elem_of_app;
      [by right|by left].
Qed.

Lemma fold_addIndices_covers post : ∀ s0 A,
  pool_covers (random s0) A →
  pool_covers (random (foldl (λ st n, addIndices (val n) (addr n) st) s0 post))
              (A ++ (addr <$> post)).
Proof.
  induction post as [|n t IH]; intros s0 A H; simpl.
  - by rewrite app_nil_r.
  - rewrite cons_middle, app_assoc. apply IH. simpl.
    eapply covers_add; [exact H|]. intros q [Hq|Hq%list_elem_of_singleton]%elem_of_app;
      [by right|by left].
Qed.

Lemma Covered_rebuildAll s : Covered (rebuildAll s).
Proof.
  unfold Covered. destruct (rebuildAll_spec s) as (-> & _). unfold rebuildAll.
  apply (fold_add_covers (nodes s) _ []). by intros q ?%elem_of_nil.
Qed.

Lemma Covered_empty : Covered emptyDS.
Proof. by intros q ?%elem_of_nil. Qed.

Lemma Covered_dedup_fold rest : ∀ st seen,
  Inv st → Covered st → NoDup (addr <$> rest) → (∀ n, n ∈ rest → n ∈ nodes st) →
  Covered (foldl dedup_step (st, seen) rest).1.
Proof.
  induction rest as [|n t IH]; intros st seen H Hc Hnd Hsub; simpl; [done|].
  simpl in Hnd. apply NoDup_cons in Hnd as [Hn Hnd].
  assert (Hin : mkNode (addr n) (val n) ∈ nodes st).
  { rewrite node_eta. apply Hsub. by left. }
  case_bool_decide.
  - apply IH; [by apply Inv_remove_node|by apply Covered_remove_node|done|].
    intros m Hm. simpl. apply detach_other; [apply Hsub; by right|].
    intros Heq. apply Hn. rewrite <- Heq. by apply list_elem_of_fmap_2.
  - apply IH; [done|done|done|]. intros m Hm. apply Hsub. by right.
Qed.

Lemma Covered_merge s o s' o' :
  Covered s → Covered o → merge s o = Some (s', o') → Covered s' ∧ Covered o'.
Proof.
  intros Hcs Hco. unfold merge.
  destruct (decide (sz o = 0%nat)); [by intros [= <- <-]|].
  set (linked := if decide (sz s = 0%nat) then Some (nodes o)
                 else match nodes s, nodes o with
                      | _ :: _, _ :: _ => Some (nodes s ++ nodes o)
                      | _, _ => None
                      end).
  assert (Hl : ∀ l, linked = Some l → l `sublist_of` nodes s ++ nodes o).
  { intros l. unfold linked. destruct (decide (sz s = 0%nat)).
    - intros [= <-]. by apply sublist_inserts_l.
    - destruct (nodes s), (nodes o); by intros [= <-]. }
  destruct linked as [l|]; [|done]. simpl. specialize (Hl l eq_refl).
  intros [= <- <-]. split; [|apply Covered_empty].
  unfold Covered. simpl.
  match goal with |- context [foldl ?f ?s0 ?k] =>
    destruct (fold_addIndices_frame k s0) as [-> _];
    pose proof (fold_addIndices_covers k s0 (addr <$> nodes s) Hcs) as Hc end.
  simpl. intros q Hq. apply Hc. rewrite <- fmap_app.
  eapply elem_of_sublist; [exact Hq|]. by apply fmap_sublist.
Qed.

Lemma Covered_split k s s' r :
  Covered s → split k s = Some (s', r) → Covered s' ∧ Covered r.
Proof.
  intros Hs. unfold split.
  destruct (sz s <=? k)%nat; [intros [= <- <-]; split; [done|apply Covered_empty]|].
  destruct (decide (k = 0%nat)) as [->|Hk].
  - destruct (merge emptyDS s) as [[r0 s0]|] eqn:E; simpl; [|done].
    intros [= <- <-]. apply and_comm.
    eapply Covered_merge; [apply Covered_empty|exact Hs|exact E].
  - destruct (decide (k < length (nodes s))%nat); [|done].
    intros [= <- <-]. split; apply Covered_rebuildAll.
Qed.

Lemma Covered_rewrite (b : bool) s t : Covered s → Covered (if b then s else rebuildAll t).
Proof. intros H. destruct b; [done|apply Covered_rebuildAll]. Qed.

Lemma Covered_pushBack x p s : Covered s → Covered (pushBack x p s).
Proof.
  intros H. apply Covered_add_node; [done|]. unfold attachBack. rewrite fmap_app. simpl.
  intros q [?|?%list_elem_of_singleton]%elem_of_app; [by right|by left].
Qed.

Lemma Covered_pushFront x p s : Covered s → Covered (pushFront x p s).
Proof.
  intros H. apply Covered_add_node; [done|]. unfold attachFront. simpl.
  intros q [?|?]%elem_of_cons; [by left|by right].
Qed.

Lemma Covered_popBack s : Inv s → Covered s → Covered (popBack s).
Proof.
  intros HI H. unfold popBack.
  destruct (last (nodes s)) as [n|] eqn:E; [|done].
  apply Covered_remove_node; [done..|]. rewrite node_eta. by apply last_Some_elem_of.
Qed.

Lemma Covered_popFront s : Inv s → Covered s → Covered (popFront s).
Proof.
  intros HI H. unfold popFront.
  destruct (nodes s) as [|n t] eqn:E; [done|]. rewrite <- E.
  apply Covered_remove_node; [done..|]. rewrite node_eta, E. by left.
Qed.

Lemma Covered_deleteVal pick x s : Inv s → Covered s → Covered (deleteVal pick x s).2.
Proof.
  intros HI H. unfold deleteVal.
  destruct (locs s !! x) as [set|] eqn:E; [|done].
  destruct (set !! _) as [p|] eqn:Ep; [|done]. simpl.
  apply Covered_remove_node; [done..|]. by eapply locs_pick.
Qed.

Lemma Covered_update pick a b s : Covered s → Covered (update pick a b s).2.
Proof.
  intros H. unfold update. destruct (locs s !! a) as [set|] eqn:E; [|done].
  destruct (set !! _) as [p|] eqn:Ep; [|done]. simpl.
  unfold Covered. simpl. eapply covers_add; [exact H|].
  intros q Hq. right. by rewrite set_val_addr in Hq.
Qed.

Lemma Covered_reverse s : Covered s → Covered (reverse_ s).
Proof.
  intros H. unfold Covered, reverse_. simpl. intros q Hq. apply H.
  by rewrite fmap_reverse, elem_of_reverse in Hq.
Qed.

Lemma Covered_rotate k s s' : Covered s → rotate k s = Some s' → Covered s'.
Proof.
  intros H. unfold rotate. repeat case_decide; intros [= <-]; try done.
  unfold Covered. simpl. intros q Hq. apply H.
  rewrite fmap_app, elem_of_app in Hq.
  rewrite <- (take_drop (S (sz s - k mod sz s - 1)) (nodes s)).
  rewrite fmap_app, elem_of_app. tauto.
Qed.

Lemma Covered_removeDuplicates s : Inv s → Covered s → Covered (removeDuplicates s).
Proof. intros HI H. apply Covered_dedup_fold; [done|done|apply HI|done]. Qed.

Lemma Covered_nextPermutation s : Covered s → Covered (nextPermutation s).2.
Proof.
  intros H. unfold nextPermutation. destruct (_ <=? _)%nat; [done|].
  destruct (next_permutation _) as [a ok]. apply Covered_rebuildAll.
Qed.

Lemma Covered_prevPermutation s : Covered s → Covered (prevPermutation s).2.
Proof.
  intros H. unfold prevPermutation. destruct (_ <=? _)%nat; [done|].
  destruct (prev_permutation _) as [a ok]. apply Covered_rebuildAll.
Qed.

(** Every state of [reachable] has a pool entry for each node. *)
Lemma reachable_Covered s : reachable s → Covered s.
Proof.
  induction 1 as [|s x p Hr IH _ Hf|s x p Hr IH _ Hf|s Hr IH|s Hr IH|s pick x Hr IH
                  |s pick a b Hr IH _|s Hr IH|s k s' Hr IH E|s Hr IH|s Hr IH|s Hr IH
                  |s Hr IH|s Hr IH|s o s' o' Hr IH Hr' IH' _ E|s o s' o' Hr IH Hr' IH' _ E
                  |s k s' r Hr IH E|s k s' r Hr IH E|s Hr IH].
  - apply Covered_empty.
  - by apply Covered_pushBack.
  - by apply Covered_pushFront.
  - apply Covered_popBack; [by apply reachable_Inv|done].
  - apply Covered_popFront; [by apply reachable_Inv|done].
  - apply Covered_deleteVal; [by apply reachable_Inv|done].
  - by apply Covered_update.
  - by apply Covered_reverse.
  - by eapply Covered_rotate.
  - apply Covered_removeDuplicates; [by apply reachable_Inv|done].
  - unfold sortAscending. by apply Covered_rewrite.
  - unfold sortDescending. by apply Covered_rewrite.
  - by apply Covered_nextPermutation.
  - by apply Covered_prevPermutation.
  - eapply proj1, (Covered_merge s o); eauto.
  - eapply proj2, (Covered_merge s o); eauto.
  - eapply proj1, (Covered_split k s); eauto.
  - eapply proj2, (Covered_split k s); eauto.
  - apply Covered_empty.
Qed.

Lemma deref_node n l : NoDup (addr <$> l) → n ∈ l → deref (addr n) l = Some (val n).
Proof.
  intros Hnd Hn. unfold deref.
  destruct (list_find (λ m, addr m = addr n) l) as [[i m]|] eqn:E.
  - apply list_find_Some in E as (Hi & Hm & _). simpl.
    apply list_elem_of_lookup_1 in Hn as [j Hj].
    assert (i = j) as ->.
    { eapply NoDup_lookup; [exact Hnd|..]; rewrite list_lookup_fmap.
      - by rewrite Hi.
      - rewrite Hj. simpl. by rewrite Hm. }
    congruence.
  - apply list_find_None in E. rewrite Forall_forall in E. by destruct (E n Hn).
Qed.

(** ** Drawing at random *)

(** X19: where the object is a list of its own whose indices agree with it
    ([Inv]) and every node has an entry in the pool ([Covered]), every stored
    value is drawn by [getRandom] for some index of the pool; and the calls
    that change the list or the pool leave every node with an entry. *)
Theorem getRandom_draws_stored_values s :
  Inv s → Covered s →
  (∀ v, v ∈ traverse s →
        ∃ i, (i < length (pool (random s)))%nat ∧ getRandom i s = Some v)
  ∧ (∀ x p, Covered (pushBack x p s) ∧ Covered (pushFront x p s))
  ∧ (Covered (popBack s) ∧ Covered (popFront s))
  ∧ (∀ pick x, Covered (deleteVal pick x s).2)
  ∧ (∀ pick a b, Covered (update pick a b s).2)
  ∧ Covered (removeDuplicates s)
  ∧ (Covered (sortAscending s) ∧ Covered (sortDescending s))
  ∧ (Covered (nextPermutation s).2 ∧ Covered (prevPermutation s).2).
Proof.
  intros HI Hc. pose proof HI as (Hnd & (_ & _ & _ & _ & Hok) & _).
  split.
  { intros v (n & -> & Hn)%list_elem_of_fmap.
    destruct (Hc (addr n)) as [i Hi]; [by apply list_elem_of_fmap_2|].
    apply Hok in Hi. exists i.
    split; [by eapply lookup_lt_Some|].
    unfold getRandom. destruct (pool (random s)) as [|q t] eqn:E; [done|].
    rewrite Hi. simpl. by apply deref_node. }
  split. { intros x p. split; [by apply Covered_pushBack|by apply Covered_pushFront]. }
  split. { split; [by apply Covered_popBack|by apply Covered_popFront]. }
  split. { intros. by apply Covered_deleteVal. }
  split. { intros. by apply Covered_update. }
  split. { by apply Covered_removeDuplicates. }
  split.
  { split; [unfold sortAscending|unfold sortDescending]; by apply Covered_rewrite. }
  split; [by apply Covered_nextPermutation|by apply Covered_prevPermutation].
Qed.

Lemma getRandom_draws_stored_values_witness :
  Inv ds_example ∧ Covered ds_example ∧
  (∀ v, v ∈ traverse ds_example →
        ∃ i, (i < length (pool (random ds_example)))%nat ∧ getRandom i ds_example = Some v).
Proof.
  assert (HI : Inv ds_example) by exact (reachable_Inv _ ds_example_reachable).
  assert (Hc : Covered ds_example) by exact (reachable_Covered _ ds_example_reachable).
  split; [exact HI|]. split; [exact Hc|].
  exact (proj1 (getRandom_draws_stored_values ds_example HI Hc)).
Defined.

(** ** The swap-remove of the pool *)

Lemma insert_Permutation {A} (l : list A) i x y :
  l !! i = Some x → <[i := y]> l ≡ₚ y :: delete i l.
Proof.
  revert i. induction l as [|z l IH]; intros [|i]; simpl; try done.
  intros Hi. rewrite (IH i Hi). apply Permutation_swap.
Qed.

(** X20: where every position recorded in [poolPos] holds the node it is
    recorded for ([pool_ok], which [poolAdd] and [poolRemove] keep from the
    empty pool on), [poolRemove(node)] on a recorded node reads and writes
    inside the vector, takes exactly one entry of that node out of the pool
    and leaves every other entry, forgets the position of the node, and keeps
    the positions right. *)
Theorem poolRemove_takes_one_entry p idx r :
  pool_ok r → poolPos r !! p = Some idx →
  (idx < length (pool r))%nat
  ∧ is_Some (pool r !! (length (pool r) - 1)%nat)
  ∧ pool r ≡ₚ p :: pool (poolRemove p r)
  ∧ poolPos (poolRemove p r) !! p = None
  ∧ pool_ok (poolRemove p r)
  ∧ (∀ q, pool_ok (poolAdd q r)).
Proof.
  intros Hok Hp. pose proof (Hok p idx Hp) as Hi.
  pose proof (lookup_lt_Some _ _ _ Hi) as Hlt.
  split; [done|]. split; [apply lookup_lt_is_Some; lia|].
  split; [|split; [|split; [by apply pool_ok_remove|intros q; by apply pool_ok_add]]].
  - unfold poolRemove. rewrite Hp.
    destruct (pool r) as [|z l0] eqn:El using rev_ind; [simpl in Hlt; lia|clear IHl0].
    rewrite length_app in *. simpl in *.
    replace (length l0 + 1 - 1)%nat with (length l0) by lia.
    destruct (decide (idx ≠ length l0)) as [Hne|Heq].
    + rewrite list_lookup_middle by done.
      rewrite lookup_app_l in Hi by lia.
      rewrite insert_app_l by lia. simpl. rewrite removelast_last.
      rewrite (insert_Permutation l0 idx p z Hi).
      rewrite <- Permutation_cons_append, (delete_Permutation l0 idx p Hi) at 1.
      apply Permutation_swap.
    + assert (idx = length l0) as -> by lia.
      rewrite list_lookup_middle in Hi by done. injection Hi as ->.
      simpl. rewrite removelast_last. by rewrite <- Permutation_cons_append.
  - unfold poolRemove. rewrite Hp. clear.
    destruct (decide _); [destruct (pool r !! (length (pool r) - 1)%nat)|];
      simpl; apply lookup_delete_eq.
Qed.

Lemma poolRemove_takes_one_entry_witness :
  pool_ok (random ds_5_3_1_2) ∧ poolPos (random ds_5_3_1_2) !! 2%positive = Some 1%nat ∧
  pool (random ds_5_3_1_2) ≡ₚ 2%positive :: pool (poolRemove 2%positive (random ds_5_3_1_2)).
Proof.
  assert (Hok : pool_ok (random ds_5_3_1_2)).
  { exact (proj2 (proj2 (proj2 (proj2 (proj1 (proj2
             (reachable_Inv _ ds_5_3_1_2_reachable))))))). }
  assert (H : poolPos (random ds_5_3_1_2) !! 2%positive = Some 1%nat)
    by (vm_compute; reflexivity).
  split; [exact Hok|]. split; [exact H|].
  exact (proj1 (proj2 (proj2
    (poolRemove_takes_one_entry 2%positive 1%nat (random ds_5_3_1_2) Hok H)))).
Defined.

(** ** The rescan of the mode *)

(** X21: on a frequency map whose counts are positive, as [modeInc] and
    [modeDec] leave them, the rescan loop of [modeDec] ends with the same
    value and count in whatever order the hash map hands out its entries; when
    the map is not empty they are the highest count and the smallest key that
    has it, whatever the start value. *)
Theorem mode_rescan_any_order (fr : gmap Z Z) es v0 :
  (∀ k n, fr !! k = Some n → 0 < n) → es ≡ₚ map_to_list fr →
  foldl scan_step (v0, 0) es = foldl scan_step (v0, 0) (map_to_list fr)
  ∧ (fr ≠ ∅ →
     ∃ v c, foldl scan_step (v0, 0) es = (v, c)
            ∧ fr !! v = Some c
            ∧ ∀ k n, fr !! k = Some n → n < c ∨ (n = c ∧ v <= k)).
Proof.
  intros Hpos Hp.
  assert (Hpos' : ∀ k n, (k, n) ∈ es → 0 < n).
  { intros k n Hin. rewrite Hp in Hin. apply elem_of_map_to_list in Hin. by eapply Hpos. }
  split; [by apply scan_any_order|].
  intros Hne.
  destruct (foldl scan_step (v0, 0) es) as [v c] eqn:E.
  destruct (scan_fold es v0 Hpos' v c E) as (Hb & _ & Hin).
  exists v, c. split; [done|]. split.
  - apply elem_of_map_to_list. rewrite <- Hp. apply Hin.
    intros ->. apply Permutation_nil in Hp. by apply map_to_list_empty_iff in Hp.
  - intros k n Hk. apply Hb. rewrite Hp. by apply elem_of_map_to_list.
Qed.

Lemma mode_rescan_any_order_witness :
  foldl scan_step (9, 0) (reverse (map_to_list (freq (mode ds_5_3_1_2))))
  = foldl scan_step (9, 0) (map_to_list (freq (mode ds_5_3_1_2))).
Proof.
  refine (proj1 (mode_rescan_any_order (freq (mode ds_5_3_1_2))
                   (reverse (map_to_list (freq (mode ds_5_3_1_2)))) 9 _ _)).
  - intros k n Hk.
    destruct (reachable_Inv _ ds_5_3_1_2_reachable) as (_ & (_ & (Hf & _) & _) & _).
    rewrite Hf in Hk. pose proof (cnt_nonneg k (val <$> nodes ds_5_3_1_2)).
    destruct (decide (cnt k (val <$> nodes ds_5_3_1_2) = 0)); [done|].
    injection Hk as <-.
    change (0 < cnt k (val <$> nodes ds_5_3_1_2)). lia.
  - apply reverse_Permutation.
Defined.

(** ** The two halves of the median and the mode cursor *)

(** X22: where the two halves are the sorted values of [l], cut with as many
    values in the lower half as in the upper half or one more ([MedInv]),
    [medianAdd(x)] leaves them so for [l] with [x] added and [medianRemove(x)]
    for [l] with one [x] taken out; the halves describe one list only. *)
Theorem median_halves_kept m l x :
  MedInv m l →
  MedInv (medianAdd x m) (x :: l)
  ∧ (∀ l', l ≡ₚ x :: l' → MedInv (medianRemove x m) l')
  ∧ (length (upper m) ≤ length (lower m) ≤ length (upper m) + 1)%nat
  ∧ (∀ a b, a ∈ lower m → b ∈ upper m → a <= b)
  ∧ lower m ++ upper m = merge_sort Z.le l.
Proof.
  intros H. split; [by eapply medianAdd_ok|].
  split; [intros l' E; by eapply medianRemove_ok|].
  destruct H as (Hs & Hp & Hb). split; [done|]. split.
  - by apply StronglySorted_app in Hs as (Hc & _ & _).
  - apply (StronglySorted_unique Z.le); [done|apply StronglySorted_merge_sort; apply _|].
    by rewrite merge_sort_Permutation.
Qed.

Lemma median_halves_kept_witness :
  MedInv (median ds_example) (traverse ds_example) ∧
  MedInv (medianAdd 4 (median ds_example)) (4 :: traverse ds_example).
Proof.
  assert (H : MedInv (median ds_example) (traverse ds_example)).
  { exact (proj1 (proj2 (proj2 (proj2 (proj1 (proj2
             (reachable_Inv _ ds_example_reachable))))))). }
  split; [exact H|].
  exact (proj1 (median_halves_kept (median ds_example) (traverse ds_example) 4 H)).
Defined.

(** X28: where the frequency map counts the values of [l] and the cursor is at
    the value met most often, the smallest on a tie ([ModeInv]), [modeInc(x)]
    leaves them so for [l] with [x] added and [modeDec(x)] for [l] with one
    [x] taken out. *)
Theorem mode_cursor_kept m l x :
  ModeInv m l →
  ModeInv (modeInc x m) (x :: l)
  ∧ (∀ l', l ≡ₚ x :: l' → ModeInv (modeDec x m) l')
  ∧ (l ≠ [] → is_mode l (modeVal m) ∧ modeCnt m = cnt (modeVal m) l).
Proof.
  intros H. split; [by eapply modeInc_ok|].
  split; [intros l' E; by eapply modeDec_ok|].
  intros Hne. destruct H as (Hf & Hmax & He & Hm). destruct (Hm Hne) as [Hc Ht].
  split; [|done]. split.
  - apply cnt_pos. destruct l as [|y l0]; [done|].
    specialize (Hmax y). assert (0 < cnt y (y :: l0)); [|lia]. apply cnt_pos. by left.
  - intros y. specialize (Hmax y). specialize (Ht y). lia.
Qed.

Lemma mode_cursor_kept_witness :
  ModeInv (mode ds_example) (traverse ds_example) ∧
  ModeInv (modeInc 4 (mode ds_example)) (4 :: traverse ds_example).
Proof.
  assert (H : ModeInv (mode ds_example) (traverse ds_example)).
  { exact (proj1 (proj2 (proj1 (proj2 (reachable_Inv _ ds_example_reachable))))). }
  split; [exact H|].
  exact (proj1 (mode_cursor_kept (mode ds_example) (traverse ds_example) 4 H)).
Defined.
